(** * jermacaption: the admission queue, the scheduler and the browser pool

    A shallow embedding of the bot module (rate limiter, queue, scheduler,
    interaction handler) and of the captions module (browser pool,
    [generateImage]) of the repository, and the properties of the
    specification checked against it.

    JavaScript runs one task at a time, and a task runs until it suspends
    on an awaited operation of the outside world (Discord, the file
    system, puppeteer, ffmpeg).  The embedding follows that:
    - the module-level variables of both modules are the fields of one
      [State], passed explicitly;
    - every async function is cut at its awaits of outside operations: a
      definition with the name of the function runs it up to its first
      such await, and the definitions for its later pieces ([_resume],
      [_finally], [catch_block]) run it from one await to the next;
    - an event of the outside world (an interaction arrives, an awaited
      operation settles, a timer fires) is one [step]; the reactions to
      promises that the program itself settles run in the same step, as
      the microtasks they are;
    - every [Date.now()] of one step reads the time of the step;
    - a rejection that no function handles ends that function and nothing
      else;
    - what the page renders (the HTML, the sizes) is not modelled, only the
      order of the calls and how each can settle. *)

From Stdlib Require Import ZArith NArith List Bool Ascii String Lia.
From stdpp Require Import base tactics option list gmap strings.

Open Scope Z_scope.

(** ** JavaScript strings

    A string is its sequence of UTF-16 code units; [length] is the
    [.length] of the source. *)

Definition code_unit := N.
Definition jsstring := list code_unit.

(** An ASCII literal as a JavaScript string. *)
Definition js (s : string) : jsstring :=
  map N_of_ascii (list_ascii_of_string s).

Definition in_range (lo hi c : code_unit) : bool :=
  (N.leb lo c) && (N.leb c hi).

Definition is_unit (k c : code_unit) : bool := N.eqb c k.

Arguments in_range (lo hi c)%_N.
Arguments is_unit (k c)%_N.

(** The class [a-zA-Z0-9_\- ] of the regular expression of
    [sanitizeInput]. *)
Definition allowed_char (c : code_unit) : bool :=
  in_range 97 122 c        (* a-z *)
  || in_range 65 90 c      (* A-Z *)
  || in_range 48 57 c      (* 0-9 *)
  || is_unit 95 c            (* _ *)
  || is_unit 45 c            (* - *)
  || is_unit 32 c.           (* space *)

(** [input.replace(/[^a-zA-Z0-9_\- ]/g, "")]: without the [u] flag the
    expression matches single code units, and every match is removed. *)
Definition remove_disallowed (s : jsstring) : jsstring :=
  List.filter allowed_char s.

(** [sanitizeInput]: [None] is [null] or [undefined]; [!input] also holds
    of the empty string. *)
Definition sanitizeInput (input : option jsstring) : jsstring :=
  match input with
  | None => []
  | Some [] => []
  | Some s => remove_disallowed s
  end.

(** White space and line terminators of ECMAScript, which
    [String.prototype.trim] strips. *)
Definition is_whitespace (c : code_unit) : bool :=
  in_range 9 13 c          (* TAB LF VT FF CR *)
  || is_unit 32 c            (* SP *)
  || is_unit 160 c           (* NBSP *)
  || is_unit 5760 c          (* U+1680 *)
  || in_range 8192 8202 c  (* U+2000 .. U+200A *)
  || is_unit 8232 c          (* LS *)
  || is_unit 8233 c          (* PS *)
  || is_unit 8239 c          (* U+202F *)
  || is_unit 8287 c          (* U+205F *)
  || is_unit 12288 c         (* U+3000 *)
  || is_unit 65279 c.        (* U+FEFF *)

Fixpoint trim_start (s : jsstring) : jsstring :=
  match s with
  | [] => []
  | c :: s' => if is_whitespace c then trim_start s' else s
  end.

Definition trim (s : jsstring) : jsstring :=
  rev (trim_start (rev (trim_start s))).

(** [haystack.includes(needle)]. *)
Fixpoint starts_with (needle s : jsstring) : bool :=
  match needle, s with
  | [], _ => true
  | _ :: _, [] => false
  | a :: needle', b :: s' => N.eqb a b && starts_with needle' s'
  end.

Fixpoint includes (s needle : jsstring) : bool :=
  starts_with needle s ||
  match s with
  | [] => false
  | _ :: s' => includes s' needle
  end.

(** ** The rate limiter of the bot module *)

Module Config.
Definition MAX_QUEUE_SIZE : nat := 100.
Definition MAX_USER_REQUESTS_PER_MINUTE : nat := 3.
Definition MAX_PROCESSING_TIME_MS : Z := 30000.
Definition CLEANUP_INTERVAL_MS : Z := 60000.
Definition MAX_CONCURRENT_PROCESSING : Z := 5.
(* CONFIG of the captions module *)
Definition BROWSER_IDLE_TIMEOUT : Z := 300000.
End Config.

(** [userRequestTimes.get(userId) || []] *)
Definition userTimes (t : gmap string (list Z)) (userId : string) : list Z :=
  default [] (t !! userId).

Definition isRateLimited (t : gmap string (list Z)) (userId : string) (now : Z) : bool :=
  let oneMinuteAgo := now - 60000 in
  let recentRequests := List.filter (fun time => oneMinuteAgo <? time) (userTimes t userId) in
  Nat.leb Config.MAX_USER_REQUESTS_PER_MINUTE (length recentRequests).

Definition recordRequest (t : gmap string (list Z)) (userId : string) (now : Z)
  : gmap string (list Z) :=
  <[userId := userTimes t userId ++ [now]]> t.

(** The periodic sweep over [userRequestTimes]: every entry keeps its
    times younger than a minute, and an entry left empty is deleted. *)
Definition cleanupRequestTimes (t : gmap string (list Z)) (now : Z) : gmap string (list Z) :=
  let oneMinuteAgo := now - 60000 in
  omap (fun times =>
          let validTimes := List.filter (fun time => oneMinuteAgo <? time) times in
          match validTimes with [] => None | _ => Some validTimes end) t.

(** ** The data of the bot module *)

(** What the handler asks of an interaction: [isAutocomplete],
    [isMessageContextMenu], [isApplicationCommand], [isCommand]. *)
Inductive InteractionKind :=
| Autocomplete (gif : option jsstring)
| SlashCommand (text gif : option jsstring)
| MessageContextMenu (content : jsstring)
| UserContextMenu
| Component.

Record Interaction := mkInteraction {
  interaction_id : string;
  user_id : string;
  kind : InteractionKind
}.

Definition isAutocomplete (i : Interaction) : bool :=
  match kind i with Autocomplete _ => true | _ => false end.
Definition isMessageContextMenu (i : Interaction) : bool :=
  match kind i with MessageContextMenu _ => true | _ => false end.
Definition isApplicationCommand (i : Interaction) : bool :=
  match kind i with
  | SlashCommand _ _ | MessageContextMenu _ | UserContextMenu => true
  | _ => false
  end.
Definition isCommand (i : Interaction) : bool :=
  match kind i with SlashCommand _ _ => true | _ => false end.

Record QueueItem := mkQueueItem {
  interaction : Interaction;
  text : jsstring;
  gif : jsstring;
  userId : string;
  timestamp : Z
}.

(** What the bot sends to a user. *)
Inductive Content :=
| BannedUserMessage                     (* Constants.BANNED_USER_MESSAGE *)
| TooQuickly                            (* :warning: You're sending requests too quickly! ... *)
| MustHaveText                          (* :x: The message must have text. *)
| SomethingWentWrong                    (* :sweat: Sorry! Something went wrong... Try again later! *)
| QueueIsFull                           (* :warning: The queue is currently full. ... *)
| TooManyInQueue                        (* :warning: You have too many requests in the queue. ... *)
| QueuePosition (position total : Z)    (* :hourglass: Your request is in the queue! Position: p/t *)
| Files (attachment : nat).             (* files: [{ attachment, name: 'jerma.gif' }] *)

(** The calls to the collaborators that the properties speak of, in the
    order they are made. *)
Inductive Effect :=
| Respond (i : Interaction) (choices : list jsstring)
| Reply (i : Interaction) (c : Content)
| DeferReply (i : Interaction)
| EditReply (i : Interaction) (c : Content)
| Screenshot (path : string)
| GenerateGIF (gif : jsstring) (id : string).

(** How an awaited operation of the outside world settles. *)
Inductive Outcome :=
| Fulfilled (v : nat)
| FulfilledNull
| Rejected (message : string).

(** ** The browser pool of the captions module *)

Record BrowserPool := mkPool {
  browser : option nat;
  page : option nat;
  inUse : bool;
  lastUsed : Z
}.

Definition BROWSER_POOL_init : BrowserPool := mkPool None None false 0.

(** The awaits of [processGif] and of what it calls: where a render is
    suspended. *)
Inductive RenderPc :=
| AwaitAccess                             (* ensureDirectoryExists: fs.access *)
| AwaitMkdir                              (* ensureDirectoryExists: fs.mkdir *)
| AwaitHtml                               (* generateHtml *)
| AwaitCloseOld (now : Z)                 (* getBrowserPage: BROWSER_POOL.browser.close() *)
| AwaitLaunch (now : Z)                   (* getBrowserPage: initializeBrowser() *)
| AwaitNewPage (now : Z) (b : nat)        (* getBrowserPage: browser.newPage() *)
| AwaitSetContent (p : nat)               (* page.setContent *)
| AwaitViewport (p : nat)                 (* page.setViewport, height 100 *)
| AwaitContainer (p : nat)                (* page.$('.container') *)
| AwaitBoundingBox (p : nat)              (* container.boundingBox() *)
| AwaitFinalViewport (p : nat)            (* page.setViewport, final height *)
| AwaitScreenshot (p : nat)               (* page.screenshot *)
| AwaitGenerateGIF                        (* processGif: generateGIF *)
| AwaitEditReply                          (* processGif: interaction.editReply({files}) *)
| Finished.

(** An async function runs until it returns, throws or awaits. *)
Inductive Control (A : Type) :=
| Returns (a : A)
| Throws (message : string)
| Awaits (pc : RenderPc).
Arguments Returns {A} a.
Arguments Throws {A} message.
Arguments Awaits {A} pc.

(** [getBrowserPage] up to its first await. *)
Definition getBrowserPage (now : Z) (P : BrowserPool) : BrowserPool * Control nat :=
  match browser P with
  | Some b =>
      match page P, inUse P with
      | Some p, false => (mkPool (Some b) (Some p) true now, Returns p)
      | _, true => (P, Throws "Browser is currently in use")
      | None, false => (P, Awaits (AwaitCloseOld now))
      end
  | None => (P, Awaits (AwaitLaunch now))
  end.

(** [getBrowserPage] resumed at one of its awaits. *)
Definition getBrowserPage_resume (pc : RenderPc) (o : Outcome) (P : BrowserPool)
  : BrowserPool * Control nat :=
  match pc, o with
  | AwaitCloseOld now, _ => (P, Awaits (AwaitLaunch now))   (* a failed close is caught *)
  | AwaitLaunch now, Fulfilled b => (P, Awaits (AwaitNewPage now b))
  | AwaitNewPage now b, Fulfilled p => (mkPool (Some b) (Some p) true now, Returns p)
  | _, Rejected m => (P, Throws m)
  | _, _ => (P, Throws "TypeError")
  end.

Definition releaseBrowserPage (now : Z) (P : BrowserPool) : BrowserPool :=
  mkPool (browser P) (page P) false now.

(** [path.join('./_temp/texts', `${id}-text.png`)] *)
Definition outputPath (id : string) : string :=
  ("_temp/texts/" ++ id ++ "-text.png")%string.

(** [generateImage] up to its first await: the two checks are made before
    the [try] block is entered. *)
Definition generateImage (text : jsstring) (id : string) (P : BrowserPool)
  : BrowserPool * list Effect * Control string :=
  if (length text =? 0)%nat || (length (trim text) =? 0)%nat then
    (P, [], Throws "Text cannot be empty")
  else if 5000 <? Z.of_nat (length text) then
    (P, [], Throws "Text is too long")
  else (P, [], Awaits AwaitAccess).

(** The [try] block of [generateImage] resumed at [pc]. *)
Definition generateImage_try (id : string) (pc : RenderPc) (o : Outcome)
    (now : Z) (P : BrowserPool) : BrowserPool * list Effect * Control string :=
  let withPage (r : BrowserPool * Control nat) :=
    match r with
    | (P', Returns p) => (P', [], Awaits (AwaitSetContent p))
    | (P', Throws m) => (P', [], Throws m)
    | (P', Awaits pc') => (P', [], Awaits pc')
    end in
  match pc, o with
  | AwaitAccess, Rejected _ => (P, [], Awaits AwaitMkdir)
  | AwaitAccess, _ => (P, [], Awaits AwaitHtml)
  | AwaitMkdir, Rejected m => (P, [], Throws m)
  | AwaitMkdir, _ => (P, [], Awaits AwaitHtml)
  | AwaitHtml, Rejected m => (P, [], Throws m)
  | AwaitHtml, _ => withPage (getBrowserPage now P)
  | AwaitCloseOld _, _ | AwaitLaunch _, _ | AwaitNewPage _ _, _ =>
      withPage (getBrowserPage_resume pc o P)
  | _, Rejected m => (P, [], Throws m)
  | AwaitSetContent p, _ => (P, [], Awaits (AwaitViewport p))
  | AwaitViewport p, _ => (P, [], Awaits (AwaitContainer p))
  | AwaitContainer p, FulfilledNull => (P, [], Throws "Could not find container element")
  | AwaitContainer p, _ => (P, [], Awaits (AwaitBoundingBox p))
  | AwaitBoundingBox p, FulfilledNull => (P, [], Throws "Could not get container bounding box")
  | AwaitBoundingBox p, _ => (P, [], Awaits (AwaitFinalViewport p))
  | AwaitFinalViewport p, _ => (P, [Screenshot (outputPath id)], Awaits (AwaitScreenshot p))
  | AwaitScreenshot p, _ => (P, [], Returns (outputPath id))
  | _, _ => (P, [], Throws "TypeError")
  end.

(** [generateImage] resumed at [pc], with its [catch] and [finally]. *)
Definition generateImage_resume (id : string) (pc : RenderPc) (o : Outcome)
    (now : Z) (P : BrowserPool) : BrowserPool * list Effect * Control string :=
  match generateImage_try id pc o now P with
  | (P', eff, Returns path) => (releaseBrowserPage now P', eff, Returns path)
  | (P', eff, Throws m) =>
      (releaseBrowserPage now P', eff, Throws ("Failed to generate image: " ++ m)%string)
  | (P', eff, Awaits pc') => (P', eff, Awaits pc')
  end.

(** The awaits inside [generateImage]. *)
Definition in_generateImage (pc : RenderPc) : bool :=
  match pc with
  | AwaitGenerateGIF | AwaitEditReply | Finished => false
  | _ => true
  end.

(** The awaits between a successful [getBrowserPage] and the [finally] of
    [generateImage]: the render has the page. *)
Definition has_page (pc : RenderPc) : option nat :=
  match pc with
  | AwaitSetContent p | AwaitViewport p | AwaitContainer p
  | AwaitBoundingBox p | AwaitFinalViewport p | AwaitScreenshot p => Some p
  | _ => None
  end.

(** [`${interaction.user.id}-${interaction.id}`] *)
Definition render_id (i : Interaction) : string :=
  (user_id i ++ "-" ++ interaction_id i)%string.

(** [processGif] up to its first await. *)
Definition processGif (i : Interaction) (text gif : jsstring) (P : BrowserPool)
  : BrowserPool * list Effect * Control unit :=
  match generateImage text (render_id i) P with
  | (P', eff, Returns _) => (P', eff ++ [GenerateGIF gif (render_id i)], Awaits AwaitGenerateGIF)
  | (P', eff, Throws m) => (P', eff, Throws m)
  | (P', eff, Awaits pc) => (P', eff, Awaits pc)
  end.

(** [processGif] resumed at [pc]; its [catch] logs and throws again. *)
Definition processGif_resume (i : Interaction) (gif : jsstring) (pc : RenderPc)
    (o : Outcome) (now : Z) (P : BrowserPool) : BrowserPool * list Effect * Control unit :=
  match pc, o with
  | Finished, _ => (P, [], Returns tt)
  | AwaitGenerateGIF, Fulfilled attachment =>
      (P, [EditReply i (Files attachment)], Awaits AwaitEditReply)
  | AwaitGenerateGIF, Rejected m => (P, [], Throws m)
  | AwaitGenerateGIF, FulfilledNull => (P, [], Throws "TypeError")
  | AwaitEditReply, Rejected m => (P, [], Throws m)
  | AwaitEditReply, _ => (P, [], Returns tt)
  | _, _ =>
      match generateImage_resume (render_id i) pc o now P with
      | (P', eff, Returns _) =>
          (P', eff ++ [GenerateGIF gif (render_id i)], Awaits AwaitGenerateGIF)
      | (P', eff, Throws m) => (P', eff, Throws m)
      | (P', eff, Awaits pc') => (P', eff, Awaits pc')
      end
  end.

(** ** The scheduler of the bot module *)

(** Which function awaits the job: the fast path of [handleNewGIFWithGif]
    or [processNextInQueue]. *)
Inductive Origin := FastPath | FromQueue.

(** The promise that [processGifWithTimeout] returns. *)
Inductive PromiseState :=
| Pending
| Resolved
| RejectedWith (message : string).

(** Where the function that awaits the job is: at the await of
    [processGifWithTimeout], at the await of the [editReply] of its
    [catch] block, or past its [finally] block. *)
Inductive CallerPc := AwaitJob | AwaitErrorReply | Completed.

Record Job := mkJob {
  item : QueueItem;
  origin : Origin;
  render : RenderPc;
  promise : PromiseState;
  caller : CallerPc
}.

(** The callbacks given to [setTimeout]. *)
Inductive Callback :=
| RejectTimeout (j : nat)     (* reject(new Error(`Processing timeout ...`)) of job j *)
| ProcessNext.                (* () => processNextInQueue() *)

Record Timer := mkTimer {
  due : Z;
  delay : Z;
  callback : Callback
}.

(** The suspended functions other than those of a job. *)
Inductive Task :=
| HandlerDeferReply (i : Interaction)    (* the handler at await interaction.deferReply() *)
| QueuePositionReply (i : Interaction)   (* handleNewGIFWithGif at the editReply of the position *)
| RejectionReply (i : Interaction)       (* handleNewGIFWithGif at the editReply of the rejection *)
| CleanupClose.                          (* cleanupBrowser at await browser.close() *)

(** The module-level variables of both modules, the suspended functions,
    the pending timers, and the calls made so far. *)
Record State := mkState {
  gifQueue : list QueueItem;
  processingCount : Z;
  userRequestTimes : gmap string (list Z);
  bannedUsers : list string;
  currentGIFs : list jsstring;
  BROWSER_POOL : BrowserPool;
  jobs : list Job;
  tasks : list Task;
  timers : list Timer;
  effects : list Effect;
  clock : Z
}.

Definition set_gifQueue (v : list QueueItem) (s : State) : State :=
  mkState v (processingCount s) (userRequestTimes s) (bannedUsers s) (currentGIFs s)
          (BROWSER_POOL s) (jobs s) (tasks s) (timers s) (effects s) (clock s).
Definition set_processingCount (v : Z) (s : State) : State :=
  mkState (gifQueue s) v (userRequestTimes s) (bannedUsers s) (currentGIFs s)
          (BROWSER_POOL s) (jobs s) (tasks s) (timers s) (effects s) (clock s).
Definition set_userRequestTimes (v : gmap string (list Z)) (s : State) : State :=
  mkState (gifQueue s) (processingCount s) v (bannedUsers s) (currentGIFs s)
          (BROWSER_POOL s) (jobs s) (tasks s) (timers s) (effects s) (clock s).
Definition set_bannedUsers (v : list string) (s : State) : State :=
  mkState (gifQueue s) (processingCount s) (userRequestTimes s) v (currentGIFs s)
          (BROWSER_POOL s) (jobs s) (tasks s) (timers s) (effects s) (clock s).
Definition set_BROWSER_POOL (v : BrowserPool) (s : State) : State :=
  mkState (gifQueue s) (processingCount s) (userRequestTimes s) (bannedUsers s) (currentGIFs s)
          v (jobs s) (tasks s) (timers s) (effects s) (clock s).
Definition set_jobs (v : list Job) (s : State) : State :=
  mkState (gifQueue s) (processingCount s) (userRequestTimes s) (bannedUsers s) (currentGIFs s)
          (BROWSER_POOL s) v (tasks s) (timers s) (effects s) (clock s).
Definition set_tasks (v : list Task) (s : State) : State :=
  mkState (gifQueue s) (processingCount s) (userRequestTimes s) (bannedUsers s) (currentGIFs s)
          (BROWSER_POOL s) (jobs s) v (timers s) (effects s) (clock s).
Definition set_timers (v : list Timer) (s : State) : State :=
  mkState (gifQueue s) (processingCount s) (userRequestTimes s) (bannedUsers s) (currentGIFs s)
          (BROWSER_POOL s) (jobs s) (tasks s) v (effects s) (clock s).
Definition set_effects (v : list Effect) (s : State) : State :=
  mkState (gifQueue s) (processingCount s) (userRequestTimes s) (bannedUsers s) (currentGIFs s)
          (BROWSER_POOL s) (jobs s) (tasks s) (timers s) v (clock s).
Definition set_clock (v : Z) (s : State) : State :=
  mkState (gifQueue s) (processingCount s) (userRequestTimes s) (bannedUsers s) (currentGIFs s)
          (BROWSER_POOL s) (jobs s) (tasks s) (timers s) (effects s) v.

Definition call (eff : list Effect) (s : State) : State :=
  set_effects (effects s ++ eff) s.
Definition suspend (t : Task) (s : State) : State :=
  set_tasks (tasks s ++ [t]) s.
Definition setTimeout (cb : Callback) (ms : Z) (now : Z) (s : State) : State :=
  set_timers (timers s ++ [mkTimer (now + ms) ms cb]) s.

Definition is_timeout_of (j : nat) (t : Timer) : bool :=
  match callback t with RejectTimeout j' => Nat.eqb j j' | ProcessNext => false end.

(** [clearTimeout(timeoutId)] of job [j]. *)
Definition clearTimeout (j : nat) (s : State) : State :=
  set_timers (List.filter (fun t => negb (is_timeout_of j t)) (timers s)) s.

Definition set_render (pc : RenderPc) (job : Job) : Job :=
  mkJob (item job) (origin job) pc (promise job) (caller job).
Definition set_promise (p : PromiseState) (job : Job) : Job :=
  mkJob (item job) (origin job) (render job) p (caller job).
Definition set_caller (c : CallerPc) (job : Job) : Job :=
  mkJob (item job) (origin job) (render job) (promise job) c.

Definition update_job (j : nat) (f : Job -> Job) (s : State) : State :=
  set_jobs (alter f j (jobs s)) s.

(** [findIndex]: -1 when no element passes the test. *)
Fixpoint findIndex {A} (f : A -> bool) (l : list A) : Z :=
  match l with
  | [] => -1
  | x :: l' => if f x then 0 else
                 let r := findIndex f l' in if r <? 0 then -1 else r + 1
  end.

Definition getQueuePosition (s : State) (u : string) : Z :=
  findIndex (fun it => String.eqb (userId it) u) (gifQueue s) + 1.

Definition getUserQueueCount (s : State) (u : string) : nat :=
  length (List.filter (fun it => String.eqb (userId it) u) (gifQueue s)).

Definition isQueueFull (s : State) : bool :=
  (Config.MAX_QUEUE_SIZE <=? length (gifQueue s))%nat.

Definition canProcessMore (s : State) : bool :=
  processingCount s <? Config.MAX_CONCURRENT_PROCESSING.

Definition addToQueue (it : QueueItem) (s : State) : State * bool :=
  if isQueueFull s then (s, false)
  else if (2 <=? getUserQueueCount s (userId it))%nat then (s, false)
  else (set_gifQueue (gifQueue s ++ [it]) s, true).

(** [processGifWithTimeout], up to the first await of [processGif]: the
    timer is set, [processGif] is called, and when it has thrown before
    any await the timer is cleared and the promise rejected.  The job is
    number [length (jobs s)].  ([processGif] awaits at least once before
    it returns, so the last case does not arise.) *)
Definition processGifWithTimeout (org : Origin) (it : QueueItem) (now : Z) (s : State)
  : State :=
  let j := length (jobs s) in
  let s1 := setTimeout (RejectTimeout j) Config.MAX_PROCESSING_TIME_MS now s in
  match processGif (interaction it) (text it) (gif it) (BROWSER_POOL s1) with
  | (P, eff, Awaits pc) =>
      set_jobs (jobs s1 ++ [mkJob it org pc Pending AwaitJob])
               (call eff (set_BROWSER_POOL P s1))
  | (P, eff, Throws m) =>
      clearTimeout j
        (set_jobs (jobs s1 ++ [mkJob it org Finished (RejectedWith m) AwaitJob])
                  (call eff (set_BROWSER_POOL P s1)))
  | (P, eff, Returns _) =>
      clearTimeout j
        (set_jobs (jobs s1 ++ [mkJob it org Finished Resolved AwaitJob])
                  (call eff (set_BROWSER_POOL P s1)))
  end.

(** The [catch] block of the function that awaits job [j] (the same in
    [processNextInQueue] and [handleNewGIFWithGif]), up to its await of
    [editReply]. *)
Definition catch_block (j : nat) (s : State) : State :=
  match jobs s !! j with
  | Some job =>
      update_job j (set_caller AwaitErrorReply)
        (call [EditReply (interaction (item job)) SomethingWentWrong] s)
  | None => s
  end.

(** [try { await processGifWithTimeout(item) } catch ...], up to the
    first await of the function that calls it. *)
Definition try_processGifWithTimeout (org : Origin) (it : QueueItem) (now : Z) (s : State)
  : State :=
  let j := length (jobs s) in
  let s1 := processGifWithTimeout org it now s in
  match jobs s1 !! j with
  | Some job =>
      match promise job with
      | RejectedWith _ => catch_block j s1
      | _ => s1
      end
  | None => s1
  end.

(** [processNextInQueue] up to its first await. *)
Definition processNextInQueue (now : Z) (s : State) : State :=
  if (length (gifQueue s) =? 0)%nat || negb (canProcessMore s) then s
  else
    match gifQueue s with
    | [] => s
    | it :: rest =>
        try_processGifWithTimeout FromQueue it now
          (set_processingCount (processingCount s + 1) (set_gifQueue rest s))
    end.

(** The [finally] block of [processNextInQueue]. *)
Definition processNextInQueue_finally (now : Z) (s : State) : State :=
  setTimeout ProcessNext 100 now (set_processingCount (processingCount s - 1) s).

(** The [finally] block of the fast path of [handleNewGIFWithGif]. *)
Definition handleNewGIFWithGif_finally (now : Z) (s : State) : State :=
  processNextInQueue now (set_processingCount (processingCount s - 1) s).

Definition finally_block (j : nat) (org : Origin) (now : Z) (s : State) : State :=
  let s1 := update_job j (set_caller Completed) s in
  match org with
  | FromQueue => processNextInQueue_finally now s1
  | FastPath => handleNewGIFWithGif_finally now s1
  end.

(** [resolve()] and [reject(error)] of the promise of job [j]: nothing
    happens when it is settled; otherwise the function that awaits it
    goes on, into its [catch] block or straight to its [finally]. *)
Definition settle (j : nat) (r : PromiseState) (now : Z) (s : State) : State :=
  match jobs s !! j with
  | Some job =>
      match promise job with
      | Pending =>
          let s1 := update_job j (set_promise r) s in
          match r with
          | RejectedWith _ => catch_block j s1
          | _ => finally_block j (origin job) now s1
          end
      | _ => s
      end
  | None => s
  end.

(** ** The interaction handler and the event loop *)

Section EventLoop.

(** [String.prototype.toLowerCase] of the platform. *)
Variable toLowerCase : jsstring -> jsstring.

(** [returnGIFQuery]; [names] is the module constant [currentGIFs]. *)
Definition returnGIFQuery (names : list jsstring) (searchQuery : jsstring)
  : list jsstring :=
  take 25 (List.filter
             (fun result => includes (toLowerCase result) (toLowerCase searchQuery))
             names).

Definition handleAutocomplete (i : Interaction) (value : option jsstring) (s : State)
  : State :=
  let searchPhrase := sanitizeInput value in
  match searchPhrase with
  | [] => call [Respond i (take 25 (currentGIFs s))] s
  | _ => call [Respond i (returnGIFQuery (currentGIFs s) searchPhrase)] s
  end.

(** [handleNewGIFWithGif] up to its first await. *)
Definition handleNewGIFWithGif (i : Interaction) (text gif : jsstring) (now : Z)
    (s : State) : State :=
  let queueItem := mkQueueItem i text gif (user_id i) now in
  if canProcessMore s && (length (gifQueue s) =? 0)%nat then
    try_processGifWithTimeout FastPath queueItem now
      (set_processingCount (processingCount s + 1) s)
  else
    let '(s1, added) := addToQueue queueItem s in
    if negb added then
      let reason := if isQueueFull s1 then QueueIsFull else TooManyInQueue in
      suspend (RejectionReply i) (call [EditReply i reason] s1)
    else
      let position := getQueuePosition s1 (user_id i) in
      suspend (QueuePositionReply i)
        (call [EditReply i (QueuePosition position
                              (Z.of_nat (length (gifQueue s1)) + processingCount s1))] s1).

(** [handleNewGIF]; [randomFile] is what [getRandomFile(currentGIFs)]
    returns when [handleNewGIFWithRandomGif] calls it. *)
Definition handleNewGIF (i : Interaction) (text : jsstring) (gif : option jsstring)
    (randomFile : jsstring) (now : Z) (s : State) : State :=
  let s1 := set_userRequestTimes (recordRequest (userRequestTimes s) (user_id i) now) s in
  match gif with
  | Some (c :: g) =>
      match returnGIFQuery (currentGIFs s1) (c :: g) with
      | [found] => handleNewGIFWithGif i text found now s1
      | _ => handleNewGIFWithGif i text randomFile now s1
      end
  | _ => handleNewGIFWithGif i text randomFile now s1
  end.

(** The handler of [interactionCreate] up to its await of [deferReply]. *)
Definition onInteractionCreate (i : Interaction) (now : Z) (s : State) : State :=
  let banned := existsb (String.eqb (user_id i)) (bannedUsers s) in
  if banned && isAutocomplete i then call [Respond i []] s
  else if banned && (isMessageContextMenu i || isApplicationCommand i) then
    call [Reply i BannedUserMessage] s
  else
    match kind i with
    | Autocomplete value => handleAutocomplete i value s
    | _ =>
        if isRateLimited (userRequestTimes s) (user_id i) now then
          if isMessageContextMenu i || isApplicationCommand i
          then call [Reply i TooQuickly] s else s
        else
          match kind i with
          | MessageContextMenu [] => call [Reply i MustHaveText] s
          | MessageContextMenu _ | SlashCommand _ _ =>
              suspend (HandlerDeferReply i) (call [DeferReply i] s)
          | _ => s
          end
    end.

(** The handler after [await interaction.deferReply()]. *)
Definition afterDeferReply (i : Interaction) (randomFile : jsstring) (now : Z)
    (s : State) : State :=
  match kind i with
  | MessageContextMenu content => handleNewGIF i content None randomFile now s
  | SlashCommand text gif =>
      handleNewGIF i (sanitizeInput text) (Some (sanitizeInput gif)) randomFile now s
  | _ => s
  end.

(** [cleanupBrowser] up to its await of [browser.close()]. *)
Definition cleanupBrowser (s : State) : State :=
  match browser (BROWSER_POOL s) with
  | Some _ => if inUse (BROWSER_POOL s) then s else suspend CleanupClose s
  | None => s
  end.

(** The [finally] block of [cleanupBrowser]. *)
Definition cleanupBrowser_finally (s : State) : State :=
  set_BROWSER_POOL
    (mkPool None None (inUse (BROWSER_POOL s)) (lastUsed (BROWSER_POOL s))) s.

(** The callback of the interval of the captions module. *)
Definition idleCheck (now : Z) (s : State) : State :=
  match browser (BROWSER_POOL s) with
  | Some _ =>
      if negb (inUse (BROWSER_POOL s))
         && (Config.BROWSER_IDLE_TIMEOUT <? now - lastUsed (BROWSER_POOL s))
      then cleanupBrowser s else s
  | None => s
  end.

(** What the outside world does. *)
Inductive Event :=
| InteractionCreate (i : Interaction)
| TaskSettles (k : nat) (o : Outcome) (randomFile : jsstring)
| RenderSettles (j : nat) (o : Outcome)
| ErrorReplySettles (j : nat) (o : Outcome)
| TimerFires (k : nat)
| CleanupInterval
| IdleInterval
| Signal
| BannedUsersInterval (banned : list string).

(** The operations whose value the program uses resolve to a value. *)
Definition well_typed (pc : RenderPc) (o : Outcome) : bool :=
  match pc, o with
  | (AwaitLaunch _ | AwaitNewPage _ _ | AwaitGenerateGIF), FulfilledNull => false
  | _, _ => true
  end.

(** The awaited operation of the render of job [j] settles. *)
Definition renderSettles (j : nat) (o : Outcome) (now : Z) (s : State) : option State :=
  match jobs s !! j with
  | Some job =>
      match render job with
      | Finished => None
      | pc =>
          if well_typed pc o then
            match processGif_resume (interaction (item job)) (gif (item job)) pc o now
                    (BROWSER_POOL s) with
            | (P, eff, Awaits pc') =>
                Some (update_job j (set_render pc') (call eff (set_BROWSER_POOL P s)))
            | (P, eff, Returns _) =>
                (* clearTimeout(timeoutId); resolve() *)
                Some (settle j Resolved now
                        (clearTimeout j
                           (update_job j (set_render Finished)
                              (call eff (set_BROWSER_POOL P s)))))
            | (P, eff, Throws m) =>
                (* clearTimeout(timeoutId); reject(error) *)
                Some (settle j (RejectedWith m) now
                        (clearTimeout j
                           (update_job j (set_render Finished)
                              (call eff (set_BROWSER_POOL P s)))))
            end
          else None
      end
  | None => None
  end.

(** The [editReply] of the [catch] block of the function awaiting job [j]
    settles; a failure is logged, and the [finally] block runs. *)
Definition errorReplySettles (j : nat) (now : Z) (s : State) : option State :=
  match jobs s !! j with
  | Some job =>
      match caller job with
      | AwaitErrorReply => Some (finally_block j (origin job) now s)
      | _ => None
      end
  | None => None
  end.

Definition timeout_message (u : string) : string :=
  ("Processing timeout for user " ++ u)%string.

(** A timer that is due runs its callback. *)
Definition timerFires (k : nat) (now : Z) (s : State) : option State :=
  match timers s !! k with
  | Some t =>
      if due t <=? now then
        let s1 := set_timers (delete k (timers s)) s in
        match callback t with
        | RejectTimeout j =>
            match jobs s1 !! j with
            | Some job =>
                Some (settle j (RejectedWith (timeout_message (userId (item job)))) now s1)
            | None => Some s1
            end
        | ProcessNext => Some (processNextInQueue now s1)
        end
      else None
  | None => None
  end.

(** A suspended function other than a job goes on. *)
Definition taskSettles (k : nat) (o : Outcome) (randomFile : jsstring) (now : Z)
    (s : State) : option State :=
  match tasks s !! k with
  | Some t =>
      let s1 := set_tasks (delete k (tasks s)) s in
      match t, o with
      | HandlerDeferReply i, Rejected _ => Some s1
      | HandlerDeferReply i, _ => Some (afterDeferReply i randomFile now s1)
      | QueuePositionReply i, Rejected _ => Some s1
      | QueuePositionReply i, _ => Some (processNextInQueue now s1)
      | RejectionReply i, _ => Some s1
      | CleanupClose, _ => Some (cleanupBrowser_finally s1)
      end
  | None => None
  end.

(** One event at time [now]; the clock does not go back. *)
Definition step (s : State) (now : Z) (e : Event) : option State :=
  if clock s <=? now then
    let s0 := set_clock now s in
    match e with
    | InteractionCreate i => Some (onInteractionCreate i now s0)
    | TaskSettles k o randomFile => taskSettles k o randomFile now s0
    | RenderSettles j o => renderSettles j o now s0
    | ErrorReplySettles j o => errorReplySettles j now s0
    | TimerFires k => timerFires k now s0
    | CleanupInterval =>
        Some (set_userRequestTimes (cleanupRequestTimes (userRequestTimes s0) now) s0)
    | IdleInterval => Some (idleCheck now s0)
    | Signal => Some (cleanupBrowser s0)
    | BannedUsersInterval banned => Some (set_bannedUsers banned s0)
    end
  else None.

Fixpoint run (s : State) (trace : list (Z * Event)) : option State :=
  match trace with
  | [] => Some s
  | (now, e) :: trace' =>
      match step s now e with
      | Some s' => run s' trace'
      | None => None
      end
  end.

End EventLoop.

(** The state when the modules are loaded; [gifs] is what [getGIFNames()]
    returns. *)
Definition init (gifs : list jsstring) : State :=
  mkState [] 0 ∅ [] gifs BROWSER_POOL_init [] [] [] [] 0.

(** ** The text processing of the captions module *)

(** The longest prefix of code units that pass [p], and the rest: what a
    greedy [+] or [*] over a character class takes. *)
Fixpoint span (p : code_unit -> bool) (s : jsstring) : jsstring * jsstring :=
  match s with
  | c :: s' =>
      if p c then let '(taken, rest) := span p s' in (c :: taken, rest)
      else ([], s)
  | [] => ([], [])
  end.

Definition is_digit (c : code_unit) : bool := in_range 48 57 c.

(** [:([^:]+):(\d+)>] at the start of [s]: the name, the id, and what
    follows the match.  A shorter name or id cannot match, since what
    follows either is a ':' and a '>' that the class excludes. *)
Definition match_emoji_body (s : jsstring) : option (jsstring * jsstring * jsstring) :=
  match s with
  | c :: s1 =>
      if is_unit 58 c then
        let '(name, s2) := span (fun c => negb (is_unit 58 c)) s1 in
        match name, s2 with
        | _ :: _, c2 :: s3 =>
            if is_unit 58 c2 then
              let '(id, s4) := span is_digit s3 in
              match id, s4 with
              | _ :: _, c4 :: s5 => if is_unit 62 c4 then Some (name, id, s5) else None
              | _, _ => None
              end
            else None
        | _, _ => None
        end
      else None
  | [] => None
  end.

(** [/<(a?):([^:]+):(\d+)>/] at the start of [s]: [a?] first takes an
    'a' that is there, and gives it back when the rest does not match. *)
Definition match_emoji (s : jsstring) : option (jsstring * jsstring * jsstring) :=
  match s with
  | c :: s1 =>
      if is_unit 60 c then
        let animated :=
          match s1 with
          | a :: s2 => if is_unit 97 a then match_emoji_body s2 else None
          | [] => None
          end in
        match animated with
        | Some r => Some r
        | None => match_emoji_body s1
        end
      else None
  | [] => None
  end.

Definition quote : jsstring := [34%N].

(** The replacement of an emoji, with [CONFIG.EMOJI_SIZE] 60 and
    [CONFIG.EMOJI_MARGIN] 3. *)
Definition emoji_img (name id : jsstring) : jsstring :=
  js "<img src=" ++ quote ++ js "https://cdn.discordapp.com/emojis/" ++ id
    ++ js ".png?size=64" ++ quote
  ++ js " alt=" ++ quote ++ name ++ quote
  ++ js " style=" ++ quote ++ js "height:60px;vertical-align:middle;margin:0 3px;" ++ quote
  ++ js " crossorigin=" ++ quote ++ js "anonymous" ++ quote ++ js " />".

(** [input.replace(emojiRegex, ...)] with the global flag: the matches
    are found from left to right, each search starting where the last
    match ended.  The fuel is the length of what is left. *)
Fixpoint replace_emojis (fuel : nat) (s : jsstring) : jsstring :=
  match fuel with
  | O => s
  | S fuel' =>
      match match_emoji s with
      | Some (name, id, rest) => emoji_img name id ++ replace_emojis fuel' rest
      | None =>
          match s with
          | [] => []
          | c :: s' => c :: replace_emojis fuel' s'
          end
      end
  end.

Definition processDiscordEmojis (input : jsstring) : jsstring :=
  replace_emojis (length input) input.

(** [charactersMap[char]] for the six characters that the regular
    expression of [sanitizeHtml] lists (ampersand, less-than,
    greater-than, double quote, apostrophe, slash), the character itself
    for the others. *)
Definition escape_char (c : code_unit) : jsstring :=
  if is_unit 38 c then js "&amp;"
  else if is_unit 60 c then js "&lt;"
  else if is_unit 62 c then js "&gt;"
  else if is_unit 34 c then js "&quot;"
  else if is_unit 39 c then js "&#39;"
  else if is_unit 47 c then js "&#x2F;"
  else [c].

Definition sanitizeHtml (input : jsstring) : jsstring :=
  flat_map escape_char input.

(** [/(<img[^>]*>)/] at the start of [s]: the tag and what follows it. *)
Definition match_img (s : jsstring) : option (jsstring * jsstring) :=
  if starts_with (js "<img") s then
    let '(attributes, s1) := span (fun c => negb (is_unit 62 c)) (drop 4 s) in
    match s1 with
    | _ :: rest => Some (js "<img" ++ attributes ++ js ">", rest)
    | [] => None
    end
  else None.

(** [processedEmojis.split(/(<img[^>]*>)/)]: the pieces between the
    matches, with the matches themselves (the capture) in between;
    [part] is the piece read so far, last code unit first. *)
Fixpoint split_img (fuel : nat) (part : jsstring) (s : jsstring) : list jsstring :=
  match fuel with
  | O => [rev part ++ s]
  | S fuel' =>
      match match_img s with
      | Some (tag, rest) => rev part :: tag :: split_img fuel' [] rest
      | None =>
          match s with
          | [] => [rev part]
          | c :: s' => split_img fuel' (c :: part) s'
          end
      end
  end.

(** What [processText] makes of one part. *)
Definition processText_part (part : jsstring) : jsstring :=
  if starts_with (js "<img") part then part else sanitizeHtml part.

Definition processText (input : jsstring) : jsstring :=
  let processedEmojis := processDiscordEmojis input in
  let parts := split_img (S (length processedEmojis)) [] processedEmojis in
  concat (map processText_part parts).

(** The six characters that [sanitizeHtml] escapes. *)
Definition needs_escape (c : code_unit) : bool :=
  is_unit 38 c || is_unit 60 c || is_unit 62 c || is_unit 34 c || is_unit 39 c
  || is_unit 47 c.

(** The five of them that can open or close a tag or an attribute. *)
Definition is_markup (c : code_unit) : bool :=
  is_unit 60 c || is_unit 62 c || is_unit 34 c || is_unit 39 c || is_unit 47 c.

(** An emoji as Discord writes it in the content of a message:
    [<:name:id>], or [<a:name:id>] when it is animated. *)
Definition emoji_markup (animated : bool) (name id : jsstring) : jsstring :=
  js "<" ++ (if animated then js "a" else []) ++ js ":" ++ name ++ js ":" ++ id ++ js ">".

(** A tag that the regular expression of the [split] of [processText]
    matches. *)
Definition img_tag (attributes : jsstring) : jsstring :=
  js "<img" ++ attributes ++ js ">".

(** ** The life of a job *)

(** The shapes that a job has between two steps: awaited and rendering;
    failed or timed out, with the failure message on its way; failed or
    timed out, and done with; sent, and done with. *)
Definition job_shape (job : Job) : Prop :=
  match promise job, caller job with
  | Pending, AwaitJob => render job <> Finished
  | RejectedWith _, AwaitErrorReply => True
  | RejectedWith _, Completed => True
  | Resolved, Completed => render job = Finished
  | _, _ => False
  end.

(** The function that awaits the job is past its [finally] block. *)
Definition is_completed (job : Job) : bool :=
  match caller job with Completed => true | _ => false end.

(** The jobs whose [finally] block is still to run. *)
Definition awaited (s : State) : nat :=
  length (List.filter (fun job => negb (is_completed job)) (jobs s)).

(** Every job has one of the shapes, and the counter counts the jobs
    whose [finally] block is still to run. *)
Definition accounted (s : State) : Prop :=
  Forall job_shape (jobs s) /\ processingCount s = Z.of_nat (awaited s).

(** All jobs but job [j] have one of the shapes. *)
Definition shaped_but (j : nat) (l : list Job) : Prop :=
  forall k job, l !! k = Some job -> k <> j -> job_shape job.

(** ** The order of the queue *)

Definition from_queue (job : Job) : bool :=
  match origin job with FromQueue => true | FastPath => false end.

(** The items that [processNextInQueue] has taken from the queue, in the
    order in which it started their jobs, and then the items of the queue. *)
Definition queue_history (s : State) : list QueueItem :=
  map item (List.filter from_queue (jobs s)) ++ gifQueue s.

(** ** The timers of the deadlines *)

Definition is_pending (job : Job) : bool :=
  match promise job with Pending => true | _ => false end.

(** The number of pending timers that reject the promise of job [j]. *)
Definition deadlines (j : nat) (s : State) : nat :=
  length (List.filter (is_timeout_of j) (timers s)).

(** The number of timers that job [j] is to have: one while its promise
    is pending. *)
Definition deadlines_due (j : nat) (l : list Job) : nat :=
  match l !! j with
  | Some job => if is_pending job then 1%nat else 0%nat
  | None => 0%nat
  end.

Definition armed (s : State) : Prop :=
  forall j, deadlines j s = deadlines_due j (jobs s).

(** ** The browser and the page of the pool *)

Definition pool_paired (P : BrowserPool) : Prop :=
  browser P = None <-> page P = None.

(** The render is at [await BROWSER_POOL.browser.close()] in
    [getBrowserPage]. *)
Definition closes_old (pc : RenderPc) : bool :=
  match pc with AwaitCloseOld _ => true | _ => false end.

Definition renders_ok (s : State) : Prop :=
  Forall (fun job => closes_old (render job) = false) (jobs s).

Definition pool_ok (s : State) : Prop :=
  pool_paired (BROWSER_POOL s) /\ renders_ok s.

(** ** What stays of a job *)

(** [job'] is a later state of [job]: the item and the awaiting function
    are the same, and a promise that is settled has stayed as it is. *)
Definition job_later (job job' : Job) : Prop :=
  item job' = item job /\ origin job' = origin job /\
  (promise job <> Pending -> promise job' = promise job).

(** The jobs of [s] are jobs of [s'], with the same numbers. *)
Definition jobs_later (s s' : State) : Prop :=
  forall j job, jobs s !! j = Some job ->
    exists job', jobs s' !! j = Some job' /\ job_later job job'.

(** ** What a caller is told of a failure *)

Definition is_rejected (job : Job) : bool :=
  match promise job with RejectedWith _ => true | _ => false end.

(** The failure message of the [catch] block has been sent for the job
    when its promise is rejected. *)
Definition told (s : State) (job : Job) : Prop :=
  is_rejected job = true ->
  In (EditReply (interaction (item job)) SomethingWentWrong) (effects s).

Definition told_but (j : nat) (s : State) : Prop :=
  forall k job, jobs s !! k = Some job -> k <> j -> told s job.

Definition all_told (s : State) : Prop :=
  forall k job, jobs s !! k = Some job -> told s job.

(** ** The words of the specification *)

Module Spec.
Definition MAX_QUEUE_SIZE : nat := 100.
Definition USER_QUEUE_CAP : nat := 2.
Definition MAX_REQUESTS_PER_WINDOW : nat := 3.
Definition WINDOW_MS : Z := 60000.
Definition MAX_CONCURRENT : Z := 5.

(** A timestamp falls within [WINDOW_MS] of now. *)
Definition within_window (now time : Z) : Prop := now - time < WINDOW_MS.

#[global] Instance within_window_dec now time : Decision (within_window now time).
Proof. unfold within_window. apply _. Defined.

(** How many of the timestamps fall within the window. *)
Fixpoint count_within (now : Z) (times : list Z) : nat :=
  match times with
  | [] => 0
  | time :: times' =>
      if decide (within_window now time)
      then S (count_within now times') else count_within now times'
  end.

(** [allow(callerId)] is the negation of [isRateLimited]. *)
Definition allow (t : gmap string (list Z)) (callerId : string) (now : Z) : bool :=
  negb (isRateLimited t callerId now).
End Spec.

(** A history of the rate limiter: requests recorded and sweeps made. *)
Inductive RateEvent :=
| Recorded (callerId : string) (time : Z)
| Swept (time : Z).

Definition rate_step (t : gmap string (list Z)) (e : RateEvent) : gmap string (list Z) :=
  match e with
  | Recorded u time => recordRequest t u time
  | Swept time => cleanupRequestTimes t time
  end.

Definition rate_table (h : list RateEvent) : gmap string (list Z) :=
  fold_left rate_step h ∅.

(** The timestamps that a history recorded for a caller. *)
Definition recorded_for (u : string) (h : list RateEvent) : list Z :=
  omap (fun e => match e with
                 | Recorded u' time => if String.eqb u' u then Some time else None
                 | Swept _ => None
                 end) h.

Definition sweeps_before (now : Z) (h : list RateEvent) : Prop :=
  Forall (fun e => match e with Swept time => time <= now | _ => True end) h.

(** The calls made between two states. *)
Definition new_effects (s s' : State) : list Effect :=
  drop (length (effects s)) (effects s').

(** The bounds on the queue and on the counter of running jobs. *)
Definition bounded (s : State) : Prop :=
  (length (gifQueue s) <= Spec.MAX_QUEUE_SIZE)%nat /\
  (forall u, getUserQueueCount s u <= Spec.USER_QUEUE_CAP)%nat /\
  processingCount s <= Spec.MAX_CONCURRENT.

(** The items of the submissions that wait or run. *)
Definition items (s : State) : list QueueItem :=
  gifQueue s ++ map item (jobs s).

(** What an item carries, by the kind of its interaction.  For a slash
    command: the sanitized text option, and the one name that the
    sanitized gif option finds among [names], when it finds just one.
    For a context-menu command: the content of the message. *)
Definition item_ok (toLowerCase : jsstring -> jsstring) (names : list jsstring)
    (it : QueueItem) : Prop :=
  match kind (interaction it) with
  | SlashCommand option_text option_gif =>
      text it = sanitizeInput option_text /\
      forall found,
        sanitizeInput option_gif <> [] ->
        returnGIFQuery toLowerCase names (sanitizeInput option_gif) = [found] ->
        gif it = found
  | MessageContextMenu content => text it = content
  | _ => False
  end.

(** The functions of the bot module leave the pool and the names of the
    GIFs as they are. *)
Definition untouched (s s' : State) : Prop :=
  BROWSER_POOL s' = BROWSER_POOL s /\ currentGIFs s' = currentGIFs s.

Definition items_ok (P : QueueItem -> Prop) (s : State) : Prop :=
  Forall P (items s).

(** What has been sent with [editReply] on the interaction [id]. *)
Definition notifications (id : string) (s : State) : list Content :=
  omap (fun e => match e with
                 | EditReply i c =>
                     if String.eqb (interaction_id i) id then Some c else None
                 | _ => None
                 end) (effects s).

(** The jobs whose render has the page. *)
Definition holders (s : State) : list Job :=
  List.filter (fun job => match has_page (render job) with
                          | Some _ => true | None => false end) (jobs s).

(** ** Sample runs

    The traces on which the properties are tried.  The platform function
    is instantiated with the lower-casing of ASCII letters. *)

Definition ascii_toLowerCase (s : jsstring) : jsstring :=
  map (fun c => if in_range 65 90 c then (c + 32)%N else c) s.

Definition gifs : list jsstring := [js "jerma.gif"; js "sus.gif"].

Definition alice : Interaction :=
  mkInteraction "i1" "alice" (SlashCommand (Some (js "hello, world!")) None).
Definition bob : Interaction :=
  mkInteraction "i2" "bob" (MessageContextMenu (js "<b>bold</b>")).
Definition carol : Interaction :=
  mkInteraction "i3" "carol" (SlashCommand (Some (js "third")) (Some (js "sus"))).

(** One submission on the fast path, up to the first await of its render. *)
Definition trace_submit : list (Z * Event) :=
  [ (1000, InteractionCreate alice);
    (1010, TaskSettles 0 (Fulfilled 0) (js "jerma.gif")) ].

(** The render of job 0 up to the call of [generateGIF]: the directory is
    there, the page is made, the browser is launched (handle 1) and opens
    a page (handle 2), and the screenshot is taken. *)
Definition render_to_gif : list (Z * Event) :=
  [ (1020, RenderSettles 0 (Fulfilled 0));      (* fs.access *)
    (1030, RenderSettles 0 (Fulfilled 0));      (* generateHtml *)
    (2000, RenderSettles 0 (Fulfilled 1));      (* puppeteer.launch *)
    (2100, RenderSettles 0 (Fulfilled 2));      (* browser.newPage *)
    (2200, RenderSettles 0 (Fulfilled 0));      (* page.setContent *)
    (2210, RenderSettles 0 (Fulfilled 0));      (* page.setViewport *)
    (2220, RenderSettles 0 (Fulfilled 0));      (* page.$ *)
    (2230, RenderSettles 0 (Fulfilled 0));      (* boundingBox *)
    (2240, RenderSettles 0 (Fulfilled 0));      (* page.setViewport *)
    (2900, RenderSettles 0 (Fulfilled 0)) ].    (* page.screenshot *)

(** [generateGIF] is still running when the timer of job 0 is due. *)
Definition trace_deadline : list (Z * Event) :=
  trace_submit ++ render_to_gif.

(** The timer fires: the failure message is on its way. *)
Definition trace_deadline_fired : list (Z * Event) :=
  trace_deadline ++ [ (31010, TimerFires 0) ].

(** The reply of the [catch] block has been sent. *)
Definition trace_timed_out : list (Z * Event) :=
  trace_deadline_fired ++ [ (31050, ErrorReplySettles 0 (Fulfilled 0)) ].

(** [generateGIF] ends later with attachment 42, which is sent. *)
Definition trace_late_result : list (Z * Event) :=
  trace_timed_out ++
  [ (45000, RenderSettles 0 (Fulfilled 42));    (* generateGIF *)
    (45100, RenderSettles 0 (Fulfilled 0)) ].   (* interaction.editReply *)

(** Three submissions on the fast path.  The render of alice gets the
    page; the render of bob finds the browser in use, and its [finally]
    block clears the flag; the render of carol then gets the same page. *)
Definition trace_three_renders : list (Z * Event) :=
  [ (1000, InteractionCreate alice);
    (1010, TaskSettles 0 (Fulfilled 0) (js "jerma.gif"));
    (1011, InteractionCreate bob);
    (1012, TaskSettles 0 (Fulfilled 0) (js "jerma.gif"));
    (1013, InteractionCreate carol);
    (1014, TaskSettles 0 (Fulfilled 0) (js "jerma.gif"));
    (1020, RenderSettles 0 (Fulfilled 0));      (* alice: fs.access *)
    (1030, RenderSettles 0 (Fulfilled 0));      (* alice: generateHtml *)
    (2000, RenderSettles 0 (Fulfilled 1));      (* alice: puppeteer.launch *)
    (2100, RenderSettles 0 (Fulfilled 2));      (* alice: browser.newPage *)
    (2110, RenderSettles 1 (Fulfilled 0));      (* bob: fs.access *)
    (2120, RenderSettles 1 (Fulfilled 0));      (* bob: generateHtml *)
    (2130, RenderSettles 2 (Fulfilled 0));      (* carol: fs.access *)
    (2140, RenderSettles 2 (Fulfilled 0)) ].    (* carol: generateHtml *)

Definition submitter (n : string) : Interaction :=
  mkInteraction ("i-" ++ n) n (SlashCommand (Some (js "caption")) None).

(** Five submissions run and a sixth is queued; then the render of the
    first, which came by the fast path, gets to its last await. *)
Definition trace_six_submissions : list (Z * Event) :=
  [ (1000, InteractionCreate alice);
    (1010, TaskSettles 0 (Fulfilled 0) (js "jerma.gif"));
    (1011, InteractionCreate (submitter "u2"));
    (1012, TaskSettles 0 (Fulfilled 0) (js "jerma.gif"));
    (1013, InteractionCreate (submitter "u3"));
    (1014, TaskSettles 0 (Fulfilled 0) (js "jerma.gif"));
    (1015, InteractionCreate (submitter "u4"));
    (1016, TaskSettles 0 (Fulfilled 0) (js "jerma.gif"));
    (1017, InteractionCreate (submitter "u5"));
    (1018, TaskSettles 0 (Fulfilled 0) (js "jerma.gif"));
    (1018, InteractionCreate (submitter "u6"));
    (1019, TaskSettles 0 (Fulfilled 0) (js "jerma.gif"));     (* deferReply *)
    (1019, TaskSettles 0 (Fulfilled 0) (js "jerma.gif")) ]    (* the position is sent *)
  ++ render_to_gif
  ++ [ (3000, RenderSettles 0 (Fulfilled 42)) ].              (* generateGIF *)

(** A context-menu submission on the fast path. *)
Definition trace_context_menu : list (Z * Event) :=
  [ (1000, InteractionCreate bob);
    (1010, TaskSettles 0 (Fulfilled 0) (js "jerma.gif")) ].

(** * Properties *)

(** ** The rate limiter *)

Lemma count_within_filter now times :
  length (List.filter (fun time => now - 60000 <? time) times) = Spec.count_within now times.
Proof.
  induction times as [|time times IH]; simpl; [done|].
  unfold Spec.within_window, Spec.WINDOW_MS.
  destruct (Z.ltb_spec (now - 60000) time); destruct (decide _); simpl; lia.
Qed.

Lemma isRateLimited_iff (t : gmap string (list Z)) (userId : string) (now : Z) :
  isRateLimited t userId now = true <->
  (3 <= Spec.count_within now (userTimes t userId))%nat.
Proof.
  unfold isRateLimited. rewrite count_within_filter. apply Nat.leb_le.
Qed.

(** On the table as it is stored: [allow] is false exactly when at least
    [MAX_REQUESTS_PER_WINDOW] of the timestamps that the table holds for
    the caller fall within [WINDOW_MS] of the current time. *)
Lemma allow_false_iff (t : gmap string (list Z)) (callerId : string) (now : Z) :
  Spec.allow t callerId now = false <->
  (Spec.MAX_REQUESTS_PER_WINDOW <= Spec.count_within now (userTimes t callerId))%nat.
Proof.
  unfold Spec.allow. rewrite negb_false_iff. apply isRateLimited_iff.
Qed.

Lemma count_within_app now l1 l2 :
  Spec.count_within now (l1 ++ l2)
  = (Spec.count_within now l1 + Spec.count_within now l2)%nat.
Proof.
  induction l1 as [|x l1 IH]; simpl; [done|].
  destruct (decide _); simpl; lia.
Qed.

Lemma count_within_sweep now at_ times :
  at_ <= now ->
  Spec.count_within now (List.filter (fun time => at_ - 60000 <? time) times)
  = Spec.count_within now times.
Proof.
  intros Hle. induction times as [|x times IH]; simpl; [done|].
  destruct (Z.ltb_spec (at_ - 60000) x); simpl; rewrite IH; [done|].
  destruct (decide _) as [Hin|]; [|done].
  unfold Spec.within_window, Spec.WINDOW_MS in Hin. lia.
Qed.

Lemma userTimes_record t u u' time :
  userTimes (recordRequest t u' time) u
  = if String.eqb u' u then userTimes t u ++ [time] else userTimes t u.
Proof.
  unfold userTimes, recordRequest.
  destruct (String.eqb_spec u' u) as [->|Hne].
  - by rewrite lookup_insert_eq.
  - by rewrite lookup_insert_ne.
Qed.

Lemma userTimes_cleanup t u at_ :
  userTimes (cleanupRequestTimes t at_) u
  = List.filter (fun time => at_ - 60000 <? time) (userTimes t u).
Proof.
  unfold userTimes, cleanupRequestTimes. rewrite lookup_omap.
  destruct (t !! u) as [times|]; simpl; [|done].
  by destruct (List.filter _ times).
Qed.

(** The sweeps lose nothing that counts: after any history of requests
    and sweeps, none of them later than now, the table holds for every
    caller as many timestamps within the window as were recorded. *)
Lemma rate_table_complete (h : list RateEvent) (u : string) (now : Z) :
  sweeps_before now h ->
  Spec.count_within now (userTimes (rate_table h) u)
  = Spec.count_within now (recorded_for u h).
Proof.
  unfold rate_table, recorded_for, sweeps_before.
  induction h as [|e h IH] using rev_ind; intros Hs; [done|].
  apply Forall_app in Hs as [Hs He]. apply Forall_cons in He as [He _].
  rewrite fold_left_app, omap_app, count_within_app, <- (IH Hs). simpl.
  destruct e as [u' time|at_]; simpl.
  - rewrite userTimes_record. destruct (String.eqb u' u); simpl.
    + by rewrite count_within_app.
    + lia.
  - rewrite userTimes_cleanup, count_within_sweep by done. lia.
Qed.

(** C6: for every caller and every history of requests recorded with
    [recordRequest], with the sweeps that were made up to the current
    time, [allow] is false exactly when at least [MAX_REQUESTS_PER_WINDOW]
    of the timestamps recorded for that caller fall within [WINDOW_MS] of
    the current time. *)
Theorem allow_history (h : list RateEvent) (u : string) (now : Z) :
  sweeps_before now h ->
  Spec.allow (rate_table h) u now = false <->
  (Spec.MAX_REQUESTS_PER_WINDOW <= Spec.count_within now (recorded_for u h))%nat.
Proof.
  intros Hs. unfold Spec.allow. rewrite negb_false_iff, isRateLimited_iff.
  by rewrite rate_table_complete.
Qed.

Lemma allow_history_witness :
  Spec.allow (rate_table [Recorded "alice" 1000; Recorded "alice" 2000; Swept 50000;
                          Recorded "alice" 61500; Recorded "alice" 61600;
                          Recorded "bob" 61650; Recorded "alice" 61700])
    "alice" 61900 = false.
Proof.
  apply (allow_history [Recorded "alice" 1000; Recorded "alice" 2000; Swept 50000;
                        Recorded "alice" 61500; Recorded "alice" 61600;
                        Recorded "bob" 61650; Recorded "alice" 61700] "alice" 61900).
  - unfold sweeps_before. repeat constructor. lia.
  - vm_compute. lia.
Defined.

(** ** The checks of [generateImage] *)

Lemma trim_start_nil s : trim_start s = [] <-> forallb is_whitespace s = true.
Proof.
  induction s as [|c s IH]; simpl; [done|].
  destruct (is_whitespace c); simpl; [done|]. split; discriminate.
Qed.

Lemma trim_start_last s c :
  is_whitespace c = false -> trim_start (s ++ [c]) <> [].
Proof.
  intros Hc. induction s as [|d s IH]; simpl.
  - by rewrite Hc.
  - destruct (is_whitespace d); [done|discriminate].
Qed.

Lemma trim_start_keeps s c s' :
  trim_start s = c :: s' -> is_whitespace c = false.
Proof.
  induction s as [|d s IH]; simpl; [discriminate|].
  destruct (is_whitespace d) eqn:Hd; [done|]. by intros [= <- _].
Qed.

(** [text.trim().length === 0] holds of the texts that are empty or made
    of white space only. *)
Lemma trim_nil s : trim s = [] <-> forallb is_whitespace s = true.
Proof.
  unfold trim. rewrite <- trim_start_nil. split.
  - intros H. destruct (trim_start s) as [|c s'] eqn:E; [done|].
    exfalso. apply (f_equal (@rev _)) in H. rewrite rev_involutive in H.
    simpl in H. by apply (trim_start_last (rev s') c (trim_start_keeps _ _ _ E)).
  - by intros ->.
Qed.

Lemma length_zero_iff {A} (l : list A) : (length l =? 0)%nat = true <-> l = [].
Proof. destruct l; simpl; split; (done || discriminate). Qed.

Lemma generateImage_check (text : jsstring) (id : string) (P : BrowserPool) :
  generateImage text id P =
    if forallb is_whitespace text then (P, [], Throws "Text cannot be empty")
    else if 5000 <? Z.of_nat (length text) then (P, [], Throws "Text is too long")
    else (P, [], Awaits AwaitAccess).
Proof.
  unfold generateImage.
  destruct (forallb is_whitespace text) eqn:Hw.
  - apply trim_nil in Hw. rewrite Hw. simpl. by rewrite orb_true_r.
  - assert (trim text <> []) as Ht.
    { intros Ht%trim_nil. congruence. }
    assert (text <> []) as Hne by (intros ->; discriminate).
    destruct text; [done|]. destruct (trim _); [done|]. done.
Qed.

(** C9, as amended: [generateImage] rejects a text that is empty or made
    of white space only with 'Text cannot be empty', and any other text
    longer than 5000 code units with 'Text is too long'; in both cases the
    pool is as it was and nothing has been called. *)
Theorem generateImage_rejects (text : jsstring) (id : string) (P : BrowserPool) :
  (forallb is_whitespace text = true ->
   generateImage text id P = (P, [], Throws "Text cannot be empty")) /\
  (forallb is_whitespace text = false -> 5000 < Z.of_nat (length text) ->
   generateImage text id P = (P, [], Throws "Text is too long")).
Proof.
  rewrite generateImage_check. split.
  - by intros ->.
  - intros -> Hlen. apply Z.ltb_lt in Hlen. by rewrite Hlen.
Qed.

Lemma generateImage_rejects_witness :
  generateImage (js "   ") "alice-i1" BROWSER_POOL_init
    = (BROWSER_POOL_init, [], Throws "Text cannot be empty") /\
  generateImage (repeat 97%N (Z.to_nat 5001)) "alice-i1" BROWSER_POOL_init
    = (BROWSER_POOL_init, [], Throws "Text is too long").
Proof.
  split.
  - apply (proj1 (generateImage_rejects (js "   ") "alice-i1" BROWSER_POOL_init)).
    vm_compute. reflexivity.
  - apply (proj2 (generateImage_rejects (repeat 97%N (Z.to_nat 5001)) "alice-i1" BROWSER_POOL_init)).
    + vm_compute. reflexivity.
    + rewrite repeat_length. lia.
Defined.

(** C9, as stated, fails: a text of 5001 spaces is longer than 5000
    characters and is rejected with 'Text cannot be empty'. *)
Lemma generateImage_long_blank :
  5000 < Z.of_nat (length (repeat 32%N (Z.to_nat 5001))) /\
  generateImage (repeat 32%N (Z.to_nat 5001)) "alice-i1" BROWSER_POOL_init
    = (BROWSER_POOL_init, [], Throws "Text cannot be empty").
Proof.
  split.
  - rewrite repeat_length. lia.
  - vm_compute. reflexivity.
Qed.

(** ** [sanitizeInput] *)

Lemma sanitizeInput_eq (input : option jsstring) :
  sanitizeInput input = remove_disallowed (default [] input).
Proof. by destruct input as [[|c s]|]. Qed.

Lemma sanitizeInput_allowed (input : option jsstring) :
  forallb allowed_char (sanitizeInput input) = true.
Proof.
  rewrite sanitizeInput_eq. unfold remove_disallowed.
  apply forallb_forall. intros c Hc. by apply filter_In in Hc as [_ Hc].
Qed.

Lemma sanitizeInput_removes (s : jsstring) (c : code_unit) :
  In c (sanitizeInput (Some s)) <-> In c s /\ allowed_char c = true.
Proof. rewrite sanitizeInput_eq. simpl. apply filter_In. Qed.

(** ** Starting a job *)

Lemma lookup_snoc {A} (l : list A) (x : A) : (l ++ [x]) !! length l = Some x.
Proof. by rewrite lookup_app_r, Nat.sub_diag. Qed.

Lemma alter_snoc {A} (f : A -> A) (l : list A) (x : A) :
  alter f (length l) (l ++ [x]) = l ++ [f x].
Proof.
  replace (length l) with (length l + 0)%nat at 1 by lia.
  by rewrite alter_app_r.
Qed.

Lemma processGif_start (i : Interaction) (text gif : jsstring) (P : BrowserPool) :
  processGif i text gif P =
    if forallb is_whitespace text then (P, [], Throws "Text cannot be empty")
    else if 5000 <? Z.of_nat (length text) then (P, [], Throws "Text is too long")
    else (P, [], Awaits AwaitAccess).
Proof.
  unfold processGif. rewrite generateImage_check.
  destruct (forallb _ _); [done|]. by destruct (_ <? _).
Qed.

(** What the start of a job changes: one timer or none, one job, and at
    most the reply of the [catch] block. *)
Lemma try_processGifWithTimeout_spec org it now s :
  let s' := try_processGifWithTimeout org it now s in
  exists job,
    jobs s' = jobs s ++ [job] /\ item job = it /\ origin job = org /\
    gifQueue s' = gifQueue s /\ processingCount s' = processingCount s /\
    BROWSER_POOL s' = BROWSER_POOL s /\ tasks s' = tasks s /\
    userRequestTimes s' = userRequestTimes s /\ bannedUsers s' = bannedUsers s /\
    currentGIFs s' = currentGIFs s /\ clock s' = clock s /\
    ((render job = AwaitAccess /\ promise job = Pending /\ caller job = AwaitJob /\
      effects s' = effects s /\
      timers s' = timers s ++ [mkTimer (now + 30000) 30000 (RejectTimeout (length (jobs s)))])
     \/
     (render job = Finished /\ (exists m, promise job = RejectedWith m) /\
      caller job = AwaitErrorReply /\
      effects s' = effects s ++ [EditReply (interaction it) SomethingWentWrong] /\
      timers s' = List.filter (fun t => negb (is_timeout_of (length (jobs s)) t)) (timers s))).
Proof.
  unfold try_processGifWithTimeout, processGifWithTimeout.
  rewrite processGif_start.
  assert (forall ts, List.filter (fun t => negb (is_timeout_of (length (jobs s)) t))
            (ts ++ [mkTimer (now + Config.MAX_PROCESSING_TIME_MS)
                      Config.MAX_PROCESSING_TIME_MS (RejectTimeout (length (jobs s)))])
          = List.filter (fun t => negb (is_timeout_of (length (jobs s)) t)) ts) as Hclear.
  { intros ts. rewrite List.filter_app. simpl. unfold is_timeout_of. simpl.
    rewrite Nat.eqb_refl. simpl. apply app_nil_r. }
  destruct (forallb is_whitespace (text it)); [|destruct (_ <? _)]; cbn.
  - rewrite lookup_snoc. cbn. unfold catch_block. cbn. rewrite lookup_snoc. cbn.
    rewrite alter_snoc, app_nil_r, Hclear.
    eexists. repeat (split; [reflexivity|]). right. cbn. eauto 10.
  - rewrite lookup_snoc. cbn. unfold catch_block. cbn. rewrite lookup_snoc. cbn.
    rewrite alter_snoc, app_nil_r, Hclear.
    eexists. repeat (split; [reflexivity|]). right. cbn. eauto 10.
  - rewrite lookup_snoc. cbn. rewrite app_nil_r.
    eexists. repeat (split; [reflexivity|]). left. cbn. eauto 10.
Qed.

(** ** Admission *)

Lemma isQueueFull_iff s :
  isQueueFull s = true <-> (Spec.MAX_QUEUE_SIZE <= length (gifQueue s))%nat.
Proof. unfold isQueueFull. apply Nat.leb_le. Qed.

Lemma canProcessMore_iff s :
  canProcessMore s = true <-> processingCount s < Spec.MAX_CONCURRENT.
Proof. unfold canProcessMore. apply Z.ltb_lt. Qed.

Lemma handleNewGIFWithGif_fast i text gif now s :
  canProcessMore s && (length (gifQueue s) =? 0)%nat = true ->
  handleNewGIFWithGif i text gif now s
  = try_processGifWithTimeout FastPath (mkQueueItem i text gif (user_id i) now) now
      (set_processingCount (processingCount s + 1) s).
Proof. unfold handleNewGIFWithGif. by intros ->. Qed.

Lemma handleNewGIFWithGif_slow i text gif now s :
  canProcessMore s && (length (gifQueue s) =? 0)%nat = false ->
  handleNewGIFWithGif i text gif now s
  = if isQueueFull s then
      suspend (RejectionReply i) (call [EditReply i QueueIsFull] s)
    else if (2 <=? getUserQueueCount s (user_id i))%nat then
      suspend (RejectionReply i) (call [EditReply i TooManyInQueue] s)
    else
      let s1 := set_gifQueue (gifQueue s ++ [mkQueueItem i text gif (user_id i) now]) s in
      suspend (QueuePositionReply i)
        (call [EditReply i (QueuePosition (getQueuePosition s1 (user_id i))
                              (Z.of_nat (length (gifQueue s1)) + processingCount s))] s1).
Proof.
  unfold handleNewGIFWithGif, addToQueue. intros ->.
  destruct (isQueueFull s) eqn:Hfull.
  - cbv beta iota zeta delta [negb]. by rewrite Hfull.
  - destruct (2 <=? _)%nat; cbv beta iota zeta delta [negb]; [by rewrite Hfull|done].
Qed.



(** ** The fast path *)

(** C7: a submission is dispatched at once, the queue left as it is,
    exactly when the queue is empty and fewer than [MAX_CONCURRENT] jobs
    are counted as running.  Dispatched at once means: a job of the fast
    path is started for the item, the counter of running jobs is raised by
    one, and either [processGif] is running, at its first await, with the
    timer of the deadline set and nothing sent, or [processGif] has
    thrown before its first await, no timer is left and the failure
    message is sent.  With five running and an empty queue the item is
    queued, no job is started, the counter and the timers are as they
    were, and the position reported is 1 (of 6). *)
Theorem fast_path_iff (i : Interaction) (text gif : jsstring) (now : Z) (s : State) :
  let s' := handleNewGIFWithGif i text gif now s in
  let queueItem := mkQueueItem i text gif (user_id i) now in
  ((exists job,
       jobs s' = jobs s ++ [job] /\ item job = queueItem /\ origin job = FastPath /\
       gifQueue s' = gifQueue s /\
       processingCount s' = processingCount s + 1 /\
       ((render job = AwaitAccess /\ promise job = Pending /\ caller job = AwaitJob /\
         new_effects s s' = [] /\
         timers s'
         = timers s ++ [mkTimer (now + 30000) 30000 (RejectTimeout (length (jobs s)))])
        \/
        (render job = Finished /\ (exists m, promise job = RejectedWith m) /\
         caller job = AwaitErrorReply /\
         new_effects s s' = [EditReply i SomethingWentWrong] /\
         timers s'
         = List.filter (fun t => negb (is_timeout_of (length (jobs s)) t)) (timers s))))
   <-> (gifQueue s = [] /\ processingCount s < Spec.MAX_CONCURRENT)) /\
  (gifQueue s = [] -> processingCount s = 5 ->
   gifQueue s' = [queueItem] /\ jobs s' = jobs s /\
   processingCount s' = 5 /\ timers s' = timers s /\
   new_effects s s' = [EditReply i (QueuePosition 1 6)]).
Proof.
  cbv zeta.
  destruct (canProcessMore s && (length (gifQueue s) =? 0)%nat) eqn:Hfast.
  - rewrite handleNewGIFWithGif_fast by done.
    apply andb_true_iff in Hfast as [Hmore%canProcessMore_iff Hempty%length_zero_iff].
    pose proof (try_processGifWithTimeout_spec FastPath
                  (mkQueueItem i text gif (user_id i) now) now
                  (set_processingCount (processingCount s + 1) s)) as Hs.
    cbv zeta in Hs.
    destruct Hs as (job & Hjobs & Hitem & Horg & Hq & Hc & _ & _ & _ & _ & _ & _ & Hcase).
    split.
    + split; [done|]. intros _. exists job.
      split; [done|]. split; [done|]. split; [done|]. split; [done|]. split; [done|].
      unfold new_effects.
      destruct Hcase as [(Hpc & Hp & Hcaller & -> & ->)|(Hpc & Hp & Hcaller & -> & ->)].
      * left. cbn. by rewrite drop_all.
      * right. cbn. by rewrite drop_app_length.
    + unfold Spec.MAX_CONCURRENT in Hmore. lia.
  - rewrite handleNewGIFWithGif_slow by done.
    assert (~ (gifQueue s = [] /\ processingCount s < Spec.MAX_CONCURRENT)) as Hslow.
    { intros [Hempty Hmore%canProcessMore_iff]. by rewrite Hmore, Hempty in Hfast. }
    split.
    + split; [|done]. intros (job & Hjobs & _). exfalso.
      assert (jobs s = jobs s ++ [job]) as Hlen.
      { rewrite <- Hjobs. by repeat case_match. }
      apply (f_equal length) in Hlen. rewrite length_app in Hlen. simpl in Hlen. lia.
    + intros Hempty Hcount. unfold isQueueFull, getUserQueueCount, new_effects.
      rewrite Hempty. cbn. unfold getQueuePosition. cbn.
      rewrite String.eqb_refl, drop_app_length, Hcount. done.
Qed.

Lemma fast_path_iff_witness :
  let i := mkInteraction "i6" "frank" (SlashCommand (Some (js "hi")) None) in
  let running := set_processingCount 5 (init []) in
  let idle := init [] in
  new_effects running (handleNewGIFWithGif i (js "hi") (js "jerma") 9 running)
  = [EditReply i (QueuePosition 1 6)] /\
  exists job,
    jobs (handleNewGIFWithGif i (js "hi") (js "jerma") 9 idle) = [job] /\
    processingCount (handleNewGIFWithGif i (js "hi") (js "jerma") 9 idle) = 1.
Proof.
  cbv zeta. split.
  - apply (fast_path_iff
             (mkInteraction "i6" "frank" (SlashCommand (Some (js "hi")) None))
             (js "hi") (js "jerma") 9 (set_processingCount 5 (init []))).
    + reflexivity.
    + reflexivity.
  - destruct (fast_path_iff
                (mkInteraction "i6" "frank" (SlashCommand (Some (js "hi")) None))
                (js "hi") (js "jerma") 9 (init [])) as [[_ Hdispatch] _].
    destruct Hdispatch as (job & Hjobs & _ & _ & _ & Hcount & _).
    + split; [reflexivity|]. unfold Spec.MAX_CONCURRENT. cbn. lia.
    + exists job. split; [exact Hjobs|exact Hcount].
Defined.

(** ** What the scheduler leaves alone *)

Lemma untouched_refl s : untouched s s.
Proof. by split. Qed.

Lemma catch_block_untouched j s : untouched s (catch_block j s).
Proof. unfold catch_block. by destruct (jobs s !! j). Qed.

Lemma try_processGifWithTimeout_untouched org it now s :
  untouched s (try_processGifWithTimeout org it now s).
Proof.
  by destruct (try_processGifWithTimeout_spec org it now s)
    as (job & _ & _ & _ & _ & _ & ? & _ & _ & _ & ? & _).
Qed.

(** [processNextInQueue] does nothing, or takes the head of the queue,
    counts it and starts it. *)
Lemma processNextInQueue_spec now s :
  let s' := processNextInQueue now s in
  untouched s s' /\
  (s' = s \/
   exists it rest job,
     gifQueue s = it :: rest /\ processingCount s < Spec.MAX_CONCURRENT /\
     gifQueue s' = rest /\ processingCount s' = processingCount s + 1 /\
     jobs s' = jobs s ++ [job] /\ item job = it /\ origin job = FromQueue).
Proof.
  cbv zeta. unfold processNextInQueue.
  destruct (length (gifQueue s) =? 0)%nat; [by auto using untouched_refl|]. simpl.
  destruct (canProcessMore s) eqn:Hmore; [|by auto using untouched_refl]. simpl.
  destruct (gifQueue s) as [|it rest] eqn:Hq; [by auto using untouched_refl|].
  pose proof (try_processGifWithTimeout_untouched FromQueue it now
                (set_processingCount (processingCount s + 1) (set_gifQueue rest s)))
    as Hu.
  destruct (try_processGifWithTimeout_spec FromQueue it now
              (set_processingCount (processingCount s + 1) (set_gifQueue rest s)))
    as (job & Hjobs & Hitem & Horg & Hq' & Hc & _).
  split; [done|]. right. exists it, rest, job.
  apply canProcessMore_iff in Hmore. done.
Qed.

(** A [finally] block decrements the counter, and one job at most is
    started in the same step. *)
Lemma finally_block_spec j org now s :
  let s' := finally_block j org now s in
  untouched s s' /\
  processingCount s'
  = processingCount s - 1 + Z.of_nat (length (jobs s') - length (jobs s)) /\
  (forall job, jobs s !! j = Some job ->
               jobs s' !! j = Some (set_caller Completed job)).
Proof.
  cbv zeta. unfold finally_block. destruct org.
  - unfold handleNewGIFWithGif_finally.
    destruct (processNextInQueue_spec now
                (set_processingCount
                   (processingCount (update_job j (set_caller Completed) s) - 1)
                   (update_job j (set_caller Completed) s)))
      as [Hu [->|(it & rest & job & _ & _ & _ & Hc & Hjobs & _)]].
    + cbn. rewrite length_alter, Nat.sub_diag, list_lookup_alter_eq.
      repeat split; [lia|]. by intros job ->.
    + rewrite Hc, Hjobs. cbn. rewrite length_app, length_alter. simpl.
      repeat split; [apply Hu..|lia|]. intros job0 Hj.
      apply lookup_app_l_Some. by rewrite list_lookup_alter_eq, Hj.
  - cbn. rewrite length_alter, Nat.sub_diag, list_lookup_alter_eq.
    repeat split; [lia|]. by intros job ->.
Qed.

Lemma settle_untouched j r now s : untouched s (settle j r now s).
Proof.
  unfold settle. destruct (jobs s !! j) as [job|]; [|apply untouched_refl].
  destruct (promise job); [|apply untouched_refl..].
  destruct r.
  - by destruct (finally_block_spec j (origin job) now
                   (update_job j (set_promise Pending) s)) as [? _].
  - by destruct (finally_block_spec j (origin job) now
                   (update_job j (set_promise Resolved) s)) as [? _].
  - apply (catch_block_untouched j (update_job j (set_promise (RejectedWith message)) s)).
Qed.

Lemma handleNewGIFWithGif_untouched i text gif now s :
  untouched s (handleNewGIFWithGif i text gif now s).
Proof.
  destruct (canProcessMore s && (length (gifQueue s) =? 0)%nat) eqn:Hfast.
  - rewrite handleNewGIFWithGif_fast by done.
    apply (try_processGifWithTimeout_untouched FastPath _ now
             (set_processingCount (processingCount s + 1) s)).
  - rewrite handleNewGIFWithGif_slow by done. by repeat case_match.
Qed.

Lemma afterDeferReply_untouched toLowerCase i randomFile now s :
  untouched s (afterDeferReply toLowerCase i randomFile now s).
Proof.
  unfold afterDeferReply, handleNewGIF.
  repeat case_match; try apply untouched_refl;
    match goal with |- untouched _ (handleNewGIFWithGif ?i ?t ?g ?n ?s1) =>
      apply (handleNewGIFWithGif_untouched i t g n s1) end.
Qed.

Lemma onInteractionCreate_untouched toLowerCase i now s :
  untouched s (onInteractionCreate toLowerCase i now s).
Proof. unfold onInteractionCreate, handleAutocomplete. by repeat case_match. Qed.

(** No step changes the names of the GIFs. *)
Lemma step_currentGIFs toLowerCase s now e s' :
  step toLowerCase s now e = Some s' -> currentGIFs s' = currentGIFs s.
Proof.
  unfold step. destruct (clock s <=? now); [|done].
  change (currentGIFs s) with (currentGIFs (set_clock now s)).
  generalize (set_clock now s). clear s. intros s.
  destruct e as [i|k o rf|j o|j o|k| | | |banned]; simpl.
  - intros [= <-]. apply onInteractionCreate_untouched.
  - unfold taskSettles. destruct (tasks s !! k) as [t|]; [|done].
    destruct t, o; intros [= <-]; try done;
      try apply (afterDeferReply_untouched toLowerCase _ _ _
                   (set_tasks (delete k (tasks s)) s));
      apply (processNextInQueue_spec now (set_tasks (delete k (tasks s)) s)).
  - unfold renderSettles. destruct (jobs s !! j) as [job|]; [|done].
    destruct (render job) eqn:Hpc; try done;
      (destruct (well_typed _ o); [|done]);
      destruct (processGif_resume _ _ _ _ _ _) as [[P eff] [a|m|pc']];
      intros [= <-]; try done;
      match goal with |- currentGIFs (settle ?j ?r ?n ?s1) = _ =>
        by destruct (settle_untouched j r n s1) as [_ ->] end.
  - unfold errorReplySettles. destruct (jobs s !! j) as [job|]; [|done].
    destruct (caller job); intros [= <-].
    apply (finally_block_spec j (origin job) now s).
  - unfold timerFires. destruct (timers s !! k) as [t|]; [|done].
    destruct (due t <=? now); [|done].
    destruct (callback t) as [j|].
    + cbn [jobs set_timers]. destruct (jobs s !! j); intros [= <-]; [|done].
      apply (settle_untouched j _ now (set_timers (delete k (timers s)) s)).
    + intros [= <-].
      apply (processNextInQueue_spec now (set_timers (delete k (timers s)) s)).
  - by intros [= <-].
  - intros [= <-]. unfold idleCheck, cleanupBrowser. by repeat case_match.
  - intros [= <-]. unfold cleanupBrowser. by repeat case_match.
  - by intros [= <-].
Qed.

Lemma catch_block_pool j s : BROWSER_POOL (catch_block j s) = BROWSER_POOL s.
Proof. apply catch_block_untouched. Qed.

Lemma settle_pool j r now s : BROWSER_POOL (settle j r now s) = BROWSER_POOL s.
Proof. apply settle_untouched. Qed.

Lemma afterDeferReply_pool toLowerCase i randomFile now s :
  BROWSER_POOL (afterDeferReply toLowerCase i randomFile now s) = BROWSER_POOL s.
Proof. apply afterDeferReply_untouched. Qed.

Lemma onInteractionCreate_pool toLowerCase i now s :
  BROWSER_POOL (onInteractionCreate toLowerCase i now s) = BROWSER_POOL s.
Proof. apply onInteractionCreate_untouched. Qed.

(** ** Invariants of the event loop *)

Section Invariants.
Variable toLowerCase : jsstring -> jsstring.

(** A property that the initial state has and every step keeps holds in
    every state that a trace reaches. *)
Lemma run_invariant (Inv : State -> Prop) :
  (forall s now e s', Inv s -> step toLowerCase s now e = Some s' -> Inv s') ->
  forall trace s s', Inv s -> run toLowerCase s trace = Some s' -> Inv s'.
Proof.
  intros Hstep trace. induction trace as [|[now e] trace IH]; intros s s' Hs; simpl.
  - by intros [= <-].
  - destruct (step toLowerCase s now e) as [s1|] eqn:E; [|done].
    apply IH. by eapply Hstep.
Qed.

(** *** The queue and the counter stay within their bounds *)

Lemma bounded_same s s' :
  gifQueue s' = gifQueue s -> processingCount s' = processingCount s ->
  bounded s -> bounded s'.
Proof.
  unfold bounded, getUserQueueCount. by intros -> ->.
Qed.

Lemma catch_block_sched j s :
  gifQueue (catch_block j s) = gifQueue s /\
  processingCount (catch_block j s) = processingCount s.
Proof. unfold catch_block. by destruct (jobs s !! j). Qed.

Lemma try_processGifWithTimeout_bounded org it now s :
  bounded s -> bounded (try_processGifWithTimeout org it now s).
Proof.
  destruct (try_processGifWithTimeout_spec org it now s)
    as (job & _ & _ & _ & Hq & Hc & _).
  by apply bounded_same.
Qed.

Lemma bounded_shift it rest s n :
  gifQueue s = it :: rest -> processingCount s < Spec.MAX_CONCURRENT ->
  n <= processingCount s + 1 ->
  bounded s -> bounded (set_processingCount n (set_gifQueue rest s)).
Proof.
  unfold bounded, getUserQueueCount. cbn. intros -> Hlt Hn (Hlen & Hcap & Hcount).
  simpl in Hlen. split; [lia|]. split; [|lia].
  intros u. specialize (Hcap u). simpl in Hcap.
  destruct (String.eqb (userId it) u); simpl in Hcap; lia.
Qed.

Lemma processNextInQueue_bounded now s :
  bounded s -> bounded (processNextInQueue now s).
Proof.
  intros Hb. unfold processNextInQueue.
  destruct (length (gifQueue s) =? 0)%nat; [done|]. simpl.
  destruct (canProcessMore s) eqn:Hmore; [|done]. simpl.
  destruct (gifQueue s) as [|it rest] eqn:Hq; [done|].
  apply try_processGifWithTimeout_bounded.
  apply canProcessMore_iff in Hmore. eapply bounded_shift; eauto. lia.
Qed.

Lemma bounded_decrement s :
  bounded s -> bounded (set_processingCount (processingCount s - 1) s).
Proof. unfold bounded, getUserQueueCount. cbn. intros (? & ? & ?). repeat split; [done..|lia]. Qed.

Lemma finally_block_bounded j org now s :
  bounded s -> bounded (finally_block j org now s).
Proof.
  intros Hb. unfold finally_block.
  assert (bounded (update_job j (set_caller Completed) s)) as Hb'
    by (by apply (bounded_same s)).
  destruct org.
  - apply processNextInQueue_bounded. by apply bounded_decrement.
  - unfold processNextInQueue_finally.
    eapply bounded_same; [| |apply (bounded_decrement _ Hb')]; done.
Qed.

Lemma settle_bounded j r now s :
  bounded s -> bounded (settle j r now s).
Proof.
  intros Hb. unfold settle.
  destruct (jobs s !! j) as [job|]; [|done].
  destruct (promise job); [|done..].
  assert (bounded (update_job j (set_promise r) s)) as Hb'
    by (by apply (bounded_same s)).
  destruct r.
  - by apply finally_block_bounded.
  - by apply finally_block_bounded.
  - destruct (catch_block_sched j (update_job j (set_promise (RejectedWith message)) s)).
    by eapply bounded_same.
Qed.

Lemma handleNewGIFWithGif_bounded i text gif now s :
  bounded s -> bounded (handleNewGIFWithGif i text gif now s).
Proof.
  intros Hb.
  destruct (canProcessMore s && (length (gifQueue s) =? 0)%nat) eqn:Hfast.
  - rewrite handleNewGIFWithGif_fast by done.
    apply andb_true_iff in Hfast as [Hmore%canProcessMore_iff _].
    apply try_processGifWithTimeout_bounded.
    destruct Hb as (? & ? & ?). repeat split; [done..|]. cbn. lia.
  - rewrite handleNewGIFWithGif_slow by done.
    destruct (isQueueFull s) eqn:Hfull; [by apply (bounded_same s)|].
    destruct (2 <=? getUserQueueCount s (user_id i))%nat eqn:Hcap;
      [by apply (bounded_same s)|].
    apply Nat.leb_gt in Hcap.
    assert (length (gifQueue s) < Spec.MAX_QUEUE_SIZE)%nat as Hlt.
    { apply Nat.lt_nge. intros H%isQueueFull_iff. congruence. }
    destruct Hb as (Hlen & Hu & Hc). unfold bounded, getUserQueueCount in *. cbn.
    rewrite length_app. simpl. split; [lia|]. split; [|done].
    intros u. rewrite List.filter_app, length_app. simpl.
    destruct (String.eqb_spec (user_id i) u) as [<-|Hne]; simpl.
    + unfold Spec.USER_QUEUE_CAP. lia.
    + specialize (Hu u). lia.
Qed.

Lemma afterDeferReply_bounded i randomFile now s :
  bounded s -> bounded (afterDeferReply toLowerCase i randomFile now s).
Proof.
  intros Hb. unfold afterDeferReply, handleNewGIF.
  repeat case_match; try done; apply handleNewGIFWithGif_bounded;
    by apply (bounded_same s).
Qed.

Lemma onInteractionCreate_sched i now s :
  gifQueue (onInteractionCreate toLowerCase i now s) = gifQueue s /\
  processingCount (onInteractionCreate toLowerCase i now s) = processingCount s.
Proof.
  unfold onInteractionCreate, handleAutocomplete. by repeat case_match.
Qed.

Lemma step_bounded s now e s' :
  bounded s -> step toLowerCase s now e = Some s' -> bounded s'.
Proof.
  intros Hb. unfold step. destruct (clock s <=? now); [|done].
  assert (bounded (set_clock now s)) as Hb0 by (by apply (bounded_same s)).
  revert Hb0. generalize (set_clock now s). clear s Hb. intros s Hb.
  destruct e as [i|k o rf|j o|j o|k| | | |banned].
  - intros [= <-]. destruct (onInteractionCreate_sched i now s).
    by apply (bounded_same s).
  - unfold taskSettles. destruct (tasks s !! k) as [t|]; [|done].
    assert (bounded (set_tasks (delete k (tasks s)) s)) as Hb1
      by (by apply (bounded_same s)).
    destruct t, o; intros [= <-]; try done;
      try (by apply afterDeferReply_bounded);
      try (by apply processNextInQueue_bounded);
      by apply (bounded_same s).
  - unfold renderSettles. destruct (jobs s !! j) as [job|]; [|done].
    destruct (render job) eqn:Hpc; try done;
      (destruct (well_typed _ o); [|done]);
      destruct (processGif_resume _ _ _ _ _ _) as [[P eff] [a|m|pc']];
      intros [= <-]; try apply settle_bounded; by apply (bounded_same s).
  - unfold errorReplySettles. destruct (jobs s !! j) as [job|]; [|done].
    destruct (caller job); intros [= <-]. by apply finally_block_bounded.
  - unfold timerFires. destruct (timers s !! k) as [t|]; [|done].
    destruct (due t <=? now); [|done].
    assert (bounded (set_timers (delete k (timers s)) s)) as Hb1
      by (by apply (bounded_same s)).
    destruct (callback t) as [j|].
    + cbn [jobs set_timers]. destruct (jobs s !! j); intros [= <-]; [|done].
      by apply settle_bounded.
    + intros [= <-]. by apply processNextInQueue_bounded.
  - intros [= <-]. by apply (bounded_same s).
  - intros [= <-]. unfold idleCheck, cleanupBrowser.
    repeat case_match; by apply (bounded_same s).
  - intros [= <-]. unfold cleanupBrowser.
    repeat case_match; by apply (bounded_same s).
  - intros [= <-]. by apply (bounded_same s).
Qed.

End Invariants.

Lemma init_bounded gifs : bounded (init gifs).
Proof. unfold bounded, getUserQueueCount, Spec.MAX_CONCURRENT. cbn. split; [lia|]. split; [|lia]. intros. lia. Qed.

(** C3: in every state that a sequence of events reaches, the queue holds
    at most [MAX_QUEUE_SIZE] items, at most [USER_QUEUE_CAP] of them of any
    one caller, and the counter of running jobs is at most
    [MAX_CONCURRENT]. *)
Theorem queue_and_counter_bounded toLowerCase gifs (trace : list (Z * Event)) (s : State) :
  run toLowerCase (init gifs) trace = Some s ->
  (length (gifQueue s) <= Spec.MAX_QUEUE_SIZE)%nat /\
  (forall u, getUserQueueCount s u <= Spec.USER_QUEUE_CAP)%nat /\
  processingCount s <= Spec.MAX_CONCURRENT.
Proof.
  intros Hrun. change (bounded s).
  eapply (run_invariant toLowerCase bounded); [|apply init_bounded|exact Hrun].
  intros. by eapply step_bounded.
Qed.

Lemma queue_and_counter_bounded_witness :
  exists s, run ascii_toLowerCase (init gifs) trace_submit = Some s /\
            processingCount s = 1 /\ processingCount s <= Spec.MAX_CONCURRENT.
Proof.
  eexists. split; [vm_compute; reflexivity|]. split; [reflexivity|].
  eapply (queue_and_counter_bounded ascii_toLowerCase gifs trace_submit).
  vm_compute. reflexivity.
Defined.

(** *** What the items of the queue and of the jobs are *)

Section Items.
Variable toLowerCase : jsstring -> jsstring.
Variable P : QueueItem -> Prop.

Lemma items_same s s' :
  gifQueue s' = gifQueue s -> map item (jobs s') = map item (jobs s) ->
  items_ok P s -> items_ok P s'.
Proof. unfold items_ok, items. by intros -> ->. Qed.

Lemma map_item_alter (f : Job -> Job) j (l : list Job) :
  (forall job, item (f job) = item job) -> map item (alter f j l) = map item l.
Proof.
  intros Hf. revert j. induction l as [|x l IH]; intros [|j]; simpl; [done..| |].
  - by rewrite Hf.
  - f_equal. apply IH.
Qed.

Lemma update_job_items f j s :
  (forall job, item (f job) = item job) ->
  items_ok P s -> items_ok P (update_job j f s).
Proof.
  intros Hf. apply items_same; [done|]. cbn. by apply map_item_alter.
Qed.

Lemma catch_block_items j s : items_ok P s -> items_ok P (catch_block j s).
Proof.
  unfold catch_block. destruct (jobs s !! j); [|done].
  intros Hs. apply update_job_items; [done|]. by apply (items_same s).
Qed.

Lemma try_processGifWithTimeout_items org it now s :
  P it -> items_ok P s -> items_ok P (try_processGifWithTimeout org it now s).
Proof.
  destruct (try_processGifWithTimeout_spec org it now s)
    as (job & Hjobs & Hitem & _ & Hq & _).
  unfold items_ok, items. rewrite Hjobs, Hq, map_app, !Forall_app. simpl.
  rewrite Hitem. intros Hit [Hqueue Hrun]. repeat split; try done.
  by apply Forall_cons.
Qed.

Lemma processNextInQueue_items now s :
  items_ok P s -> items_ok P (processNextInQueue now s).
Proof.
  intros Hs. unfold processNextInQueue.
  destruct (_ || _); [done|].
  destruct (gifQueue s) as [|it rest] eqn:Hq; [done|].
  unfold items_ok, items in Hs. rewrite Hq in Hs. simpl in Hs.
  apply Forall_cons in Hs as [Hit Hs].
  by apply try_processGifWithTimeout_items.
Qed.

Lemma finally_block_items j org now s :
  items_ok P s -> items_ok P (finally_block j org now s).
Proof.
  intros Hs. unfold finally_block.
  assert (items_ok P (update_job j (set_caller Completed) s)) as Hs'
    by (by apply update_job_items).
  destruct org.
  - apply processNextInQueue_items. by eapply items_same; [| |exact Hs'].
  - by eapply items_same; [| |exact Hs'].
Qed.

Lemma settle_items j r now s : items_ok P s -> items_ok P (settle j r now s).
Proof.
  intros Hs. unfold settle.
  destruct (jobs s !! j) as [job|]; [|done].
  destruct (promise job); [|done..].
  assert (items_ok P (update_job j (set_promise r) s)) as Hs'
    by (by apply update_job_items).
  destruct r; try (by apply finally_block_items). by apply catch_block_items.
Qed.

Lemma handleNewGIFWithGif_items i text gif now s :
  P (mkQueueItem i text gif (user_id i) now) ->
  items_ok P s -> items_ok P (handleNewGIFWithGif i text gif now s).
Proof.
  intros Hit Hs.
  destruct (canProcessMore s && (length (gifQueue s) =? 0)%nat) eqn:Hfast.
  - rewrite handleNewGIFWithGif_fast by done.
    apply try_processGifWithTimeout_items; [done|]. by apply (items_same s).
  - rewrite handleNewGIFWithGif_slow by done.
    destruct (isQueueFull s); [by apply (items_same s)|].
    destruct (2 <=? _)%nat; [by apply (items_same s)|].
    unfold items_ok, items in *. cbn.
    apply Forall_app in Hs as [Hqueue Hrun].
    rewrite !Forall_app. repeat split; try done. by apply Forall_cons.
Qed.

Lemma step_items s now e s' :
  (forall i randomFile t s1,
      currentGIFs s1 = currentGIFs s ->
      afterDeferReply toLowerCase i randomFile t s1 = s1 \/
      exists text gif s2,
        afterDeferReply toLowerCase i randomFile t s1
        = handleNewGIFWithGif i text gif t s2 /\
        P (mkQueueItem i text gif (user_id i) t) /\
        gifQueue s2 = gifQueue s1 /\ jobs s2 = jobs s1) ->
  items_ok P s -> step toLowerCase s now e = Some s' -> items_ok P s'.
Proof.
  intros Hdefer Hs. unfold step. destruct (clock s <=? now); [|done].
  assert (items_ok P (set_clock now s)) as Hs0 by (by apply (items_same s)).
  change (currentGIFs s) with (currentGIFs (set_clock now s)) in Hdefer.
  revert Hdefer Hs0. generalize (set_clock now s). clear s Hs. intros s Hdefer Hs.
  destruct e as [i|k o rf|j o|j o|k| | | |banned].
  - intros [= <-]. apply (items_same s); [| |done];
      unfold onInteractionCreate, handleAutocomplete; by repeat case_match.
  - unfold taskSettles. destruct (tasks s !! k) as [t|]; [|done].
    assert (items_ok P (set_tasks (delete k (tasks s)) s)) as Hs1
      by (by apply (items_same s)).
    destruct t, o; intros [= <-]; try done;
      try (by apply processNextInQueue_items);
      try (by apply (items_same s));
      (destruct (Hdefer i rf now (set_tasks (delete k (tasks s)) s) eq_refl)
        as [->|(text & gif & s2 & -> & Hit & Hq & Hj)]; [done|];
       apply handleNewGIFWithGif_items; [done|];
       apply (items_same s); [done|by rewrite Hj|done]).
  - unfold renderSettles. destruct (jobs s !! j) as [job|]; [|done].
    destruct (render job) eqn:Hpc; try done;
      (destruct (well_typed _ o); [|done]);
      destruct (processGif_resume _ _ _ _ _ _) as [[Pl eff] [a|m|pc']];
      intros [= <-]; try apply settle_items;
      try (apply update_job_items; [done|]); by apply (items_same s).
  - unfold errorReplySettles. destruct (jobs s !! j) as [job|]; [|done].
    destruct (caller job); intros [= <-]. by apply finally_block_items.
  - unfold timerFires. destruct (timers s !! k) as [t|]; [|done].
    destruct (due t <=? now); [|done].
    assert (items_ok P (set_timers (delete k (timers s)) s)) as Hs1
      by (by apply (items_same s)).
    destruct (callback t) as [j|].
    + cbn [jobs set_timers]. destruct (jobs s !! j); intros [= <-]; [|done].
      by apply settle_items.
    + intros [= <-]. by apply processNextInQueue_items.
  - intros [= <-]. by apply (items_same s).
  - intros [= <-]. unfold idleCheck, cleanupBrowser.
    repeat case_match; by apply (items_same s).
  - intros [= <-]. unfold cleanupBrowser.
    repeat case_match; by apply (items_same s).
  - intros [= <-]. by apply (items_same s).
Qed.

End Items.

Lemma afterDeferReply_item toLowerCase names i randomFile t s1 :
  currentGIFs s1 = names ->
  afterDeferReply toLowerCase i randomFile t s1 = s1 \/
  exists text gif s2,
    afterDeferReply toLowerCase i randomFile t s1
    = handleNewGIFWithGif i text gif t s2 /\
    item_ok toLowerCase names (mkQueueItem i text gif (user_id i) t) /\
    gifQueue s2 = gifQueue s1 /\ jobs s2 = jobs s1.
Proof.
  intros <-. unfold afterDeferReply, handleNewGIF, item_ok.
  destruct (kind i) as [| option_text option_gif | content | |] eqn:Hkind;
    try (by left); right.
  - cbn [currentGIFs set_userRequestTimes].
    destruct (sanitizeInput option_gif) as [|c g] eqn:Hsan;
      [|destruct (returnGIFQuery _ _ (c :: g)) as [|found [|]] eqn:Hfound];
      eexists _, _, _; (split; [reflexivity|]); cbn; rewrite Hkind, ?Hsan;
      repeat split; try done; intros found0 Hne Hq; congruence.
  - eexists _, _, _; (split; [reflexivity|]); cbn; by rewrite Hkind.
Qed.

(** C10: the text of every item that waits or runs and comes from a slash
    command is the text option with every code unit outside
    [a-zA-Z0-9_\- ] removed, the empty string when the option is missing;
    its GIF is looked up with the gif option sanitized in the same way.
    The text of an item of a context-menu command is the content of the
    message as it is. *)
Theorem slash_command_text_sanitized toLowerCase gifs trace (s : State) (it : QueueItem) :
  run toLowerCase (init gifs) trace = Some s ->
  In it (items s) ->
  match kind (interaction it) with
  | SlashCommand option_text option_gif =>
      text it = sanitizeInput option_text /\
      text it = List.filter allowed_char (default [] option_text) /\
      forallb allowed_char (text it) = true /\
      (forall found,
          sanitizeInput option_gif <> [] ->
          returnGIFQuery toLowerCase gifs (sanitizeInput option_gif) = [found] ->
          gif it = found)
  | MessageContextMenu content => text it = content
  | _ => False
  end.
Proof.
  intros Hrun Hin.
  assert (currentGIFs s = gifs /\ items_ok (item_ok toLowerCase gifs) s) as [_ Hs].
  { eapply (run_invariant toLowerCase
              (fun s => currentGIFs s = gifs /\ items_ok (item_ok toLowerCase gifs) s));
      [| |exact Hrun].
    - intros s0 now e s' [Hg Hs0] Hstep. split.
      + by rewrite (step_currentGIFs _ _ _ _ _ Hstep).
      + eapply step_items; [|exact Hs0|exact Hstep].
        intros i rf t s1 Hs1. apply afterDeferReply_item. congruence.
    - split; [done|]. by apply Forall_nil. }
  unfold items_ok in Hs. rewrite Forall_forall in Hs.
  apply list_elem_of_In, Hs in Hin. unfold item_ok in Hin.
  destruct (kind (interaction it)); try done.
  destruct Hin as [Htext Hgif]. rewrite Htext. split; [done|]. split; [|split].
  - apply sanitizeInput_eq.
  - apply sanitizeInput_allowed.
  - exact Hgif.
Qed.

Lemma slash_command_text_sanitized_witness :
  exists s it,
    run ascii_toLowerCase (init gifs) trace_submit = Some s /\
    items s = [it] /\ interaction it = alice /\ text it = js "hello world".
Proof.
  eexists _, _. split; [vm_compute; reflexivity|]. split; [reflexivity|].
  split; [reflexivity|].
  match goal with |- text ?it = _ =>
    pose proof (slash_command_text_sanitized ascii_toLowerCase gifs trace_submit _ it
                  eq_refl (or_introl eq_refl)) as H end.
  destruct H as (H & _). rewrite H. vm_compute. reflexivity.
Defined.

(** The text of a context-menu submission keeps the characters that
    [sanitizeInput] would remove. *)
Example context_menu_not_sanitized :
  exists s it,
    run ascii_toLowerCase (init gifs) trace_context_menu = Some s /\
    items s = [it] /\ text it = js "<b>bold</b>" /\
    forallb allowed_char (text it) = false.
Proof.
  eexists _, _. split; [vm_compute; reflexivity|]. repeat split; reflexivity.
Qed.

(** ** The deadline of a job *)

Lemma clock_ok s now : clock s <= now -> (clock s <=? now) = true.
Proof. apply Z.leb_le. Qed.

Lemma timer_step toLowerCase
    (s : State) (now : Z) (k j : nat) (t : Timer) (job : Job) :
   clock s <= now ->
   timers s !! k = Some t -> callback t = RejectTimeout j -> due t <= now ->
   jobs s !! j = Some job -> promise job = Pending ->
   exists s',
     step toLowerCase s now (TimerFires k) = Some s' /\
     jobs s' !! j = Some (mkJob (item job) (origin job) (render job)
                            (RejectedWith (timeout_message (userId (item job))))
                            AwaitErrorReply) /\
     new_effects s s' = [EditReply (interaction (item job)) SomethingWentWrong] /\
     BROWSER_POOL s' = BROWSER_POOL s /\
     processingCount s' = processingCount s /\ gifQueue s' = gifQueue s.
Proof.
  intros Hclock Hk Hcb Hdue Hj Hp.
  unfold step, timerFires. rewrite (clock_ok _ _ Hclock). cbn.
  rewrite Hk, (proj2 (Z.leb_le _ _) Hdue), Hcb. cbn. rewrite Hj.
  unfold settle. cbn. rewrite Hj, Hp. unfold catch_block. cbn.
  rewrite list_lookup_alter_eq, Hj. cbn.
  eexists. split; [reflexivity|]. cbn.
  rewrite !list_lookup_alter_eq, Hj. cbn.
  unfold new_effects. cbn. rewrite drop_app_length. done.
Qed.

Lemma late_result_step toLowerCase (s : State) (now : Z) (j : nat) (job : Job) attachment :
  clock s <= now -> jobs s !! j = Some job -> render job = AwaitGenerateGIF ->
  exists s',
    step toLowerCase s now (RenderSettles j (Fulfilled attachment)) = Some s' /\
    new_effects s s' = [EditReply (interaction (item job)) (Files attachment)] /\
    jobs s' !! j = Some (set_render AwaitEditReply job).
Proof.
  intros Hclock Hj Hpc.
  unfold step, renderSettles. rewrite (clock_ok _ _ Hclock). cbn.
  rewrite Hj, Hpc. cbn.
  eexists. split; [reflexivity|]. cbn.
  rewrite list_lookup_alter_eq, Hj. unfold new_effects. cbn.
  by rewrite drop_app_length.
Qed.

(** Once the promise of a job is settled, [resolve] and [reject] do
    nothing. *)
Lemma settle_settled j r now s job :
  jobs s !! j = Some job -> promise job <> Pending -> settle j r now s = s.
Proof. unfold settle. intros -> Hp. by destruct (promise job). Qed.

(** The render of a job whose promise is rejected goes on at every
    outcome of what it awaits, and does what [processGif] does and
    nothing else: the function that awaited the job is not resumed. *)
Lemma late_render_step toLowerCase (s : State) (now : Z) (j : nat) (job : Job) o m :
  clock s <= now -> jobs s !! j = Some job ->
  promise job = RejectedWith m ->
  render job <> Finished -> well_typed (render job) o = true ->
  exists s',
    step toLowerCase s now (RenderSettles j o) = Some s' /\
    new_effects s s'
    = snd (fst (processGif_resume (interaction (item job)) (gif (item job)) (render job)
                  o now (BROWSER_POOL s))) /\
    processingCount s' = processingCount s /\ gifQueue s' = gifQueue s /\
    caller <$> jobs s' !! j = Some (caller job) /\
    length (jobs s') = length (jobs s).
Proof.
  intros Hclock Hj Hp Hpc Hwt.
  unfold step, renderSettles. rewrite (clock_ok _ _ Hclock).
  cbn [jobs set_clock BROWSER_POOL]. rewrite Hj.
  destruct (processGif_resume (interaction (item job)) (gif (item job)) (render job) o
              now (BROWSER_POOL s)) as [[P eff] c] eqn:Hr.
  assert (forall pc (s1 : State),
             jobs s1 = jobs s ->
             settle j (match c with Throws m' => RejectedWith m' | _ => Resolved end) now
               (clearTimeout j (update_job j (set_render pc) s1))
             = clearTimeout j (update_job j (set_render pc) s1)) as Hsettle.
  { intros pc s1 Hs1. apply (settle_settled j _ now _ (set_render pc job)).
    - cbn. by rewrite Hs1, list_lookup_alter_eq, Hj.
    - cbn. by rewrite Hp. }
  destruct (render job) eqn:Hpc'; try done; rewrite Hwt, Hr;
    destruct c; (eexists; split; [reflexivity|]);
    rewrite ?Hsettle by done; unfold new_effects; cbn;
    rewrite drop_app_length, list_lookup_alter_eq, Hj, length_alter; done.
Qed.

(** [processGif] does not await at [Finished]. *)
Lemma processGif_resume_awaits i gif pc o now P P' eff pc' :
  processGif_resume i gif pc o now P = (P', eff, Awaits pc') -> pc' <> Finished.
Proof.
  unfold processGif_resume, generateImage_resume, generateImage_try,
    getBrowserPage, getBrowserPage_resume.
  intros Hr. destruct pc, o; simpl in *; repeat case_match; simplify_eq; done.
Qed.

(** What [processGif] calls when it goes on: the GIF is sent when
    [generateGIF] has ended well, and nothing is sent otherwise; nothing
    at all is called when what it awaits has failed, or when it ends. *)
Lemma processGif_resume_effects i gif pc o now P :
  let '(_, eff, c) := processGif_resume i gif pc o now P in
  (forall e, In e eff ->
     (exists attachment,
         pc = AwaitGenerateGIF /\ o = Fulfilled attachment /\
         e = EditReply i (Files attachment)) \/
     (exists path, e = Screenshot path) \/
     (exists gif' id, e = GenerateGIF gif' id)) /\
  ((exists m, o = Rejected m) -> eff = []) /\
  ((forall pc', c <> Awaits pc') -> eff = []).
Proof.
  unfold processGif_resume, generateImage_resume, generateImage_try,
    getBrowserPage, getBrowserPage_resume.
  destruct pc, o; simpl; repeat case_match; simplify_eq; simpl;
    (split; [|split]); try done;
    try (by intros [? ?]); try (intros Hc; by destruct (Hc _ eq_refl));
    intros e He; repeat (destruct He as [<-|He]; [by eauto 10|]); try done.
Qed.

(** The job after a step of its render, when its promise is rejected. *)
Lemma late_render_job toLowerCase (s : State) (now : Z) (j : nat) (job : Job) o m s' :
  clock s <= now -> jobs s !! j = Some job ->
  promise job = RejectedWith m ->
  render job <> Finished -> well_typed (render job) o = true ->
  step toLowerCase s now (RenderSettles j o) = Some s' ->
  jobs s' !! j
  = Some (set_render
            (match snd (processGif_resume (interaction (item job)) (gif (item job))
                          (render job) o now (BROWSER_POOL s)) with
             | Awaits pc' => pc'
             | _ => Finished
             end) job).
Proof.
  intros Hclock Hj Hp Hpc Hwt.
  unfold step, renderSettles. rewrite (clock_ok _ _ Hclock).
  cbn [jobs set_clock BROWSER_POOL]. rewrite Hj.
  destruct (processGif_resume (interaction (item job)) (gif (item job)) (render job) o
              now (BROWSER_POOL s)) as [[P eff] c] eqn:Hr.
  assert (forall pc (s1 : State),
             jobs s1 = jobs s ->
             settle j (match c with Throws m' => RejectedWith m' | _ => Resolved end) now
               (clearTimeout j (update_job j (set_render pc) s1))
             = clearTimeout j (update_job j (set_render pc) s1)) as Hsettle.
  { intros pc s1 Hs1. apply (settle_settled j _ now _ (set_render pc job)).
    - cbn. by rewrite Hs1, list_lookup_alter_eq, Hj.
    - cbn. by rewrite Hp. }
  destruct (render job) eqn:Hpc'; try done; rewrite Hwt, Hr;
    destruct c; intros [= <-];
    rewrite ?Hsettle by done; cbn;
    rewrite list_lookup_alter_eq, Hj; done.
Qed.

(** What a step of the render of a job whose promise is rejected sends:
    the GIF when [generateGIF] has ended well, and no other message;
    nothing at all when what the render awaits has failed or when the
    render ends; and the promise stays rejected. *)
Lemma late_render_sent toLowerCase (s : State) (now : Z) (j : nat) (job : Job) o m s' :
  clock s <= now -> jobs s !! j = Some job ->
  promise job = RejectedWith m ->
  render job <> Finished -> well_typed (render job) o = true ->
  step toLowerCase s now (RenderSettles j o) = Some s' ->
  (forall e, In e (new_effects s s') ->
     (exists attachment,
         render job = AwaitGenerateGIF /\ o = Fulfilled attachment /\
         e = EditReply (interaction (item job)) (Files attachment)) \/
     (exists path, e = Screenshot path) \/
     (exists gif' id, e = GenerateGIF gif' id)) /\
  ((exists m', o = Rejected m') \/ render <$> jobs s' !! j = Some Finished ->
   new_effects s s' = []) /\
  promise <$> jobs s' !! j = Some (RejectedWith m).
Proof.
  intros Hclock Hj Hp Hpc Hwt Hstep.
  destruct (late_render_step toLowerCase s now j job o m Hclock Hj Hp Hpc Hwt)
    as (s1 & Hstep1 & Heff & _).
  rewrite Hstep in Hstep1. injection Hstep1 as <-.
  rewrite (late_render_job toLowerCase s now j job o m s' Hclock Hj Hp Hpc Hwt Hstep).
  rewrite Heff. clear Heff Hstep.
  pose proof (processGif_resume_effects (interaction (item job)) (gif (item job))
                (render job) o now (BROWSER_POOL s)) as Hsent.
  destruct (processGif_resume (interaction (item job)) (gif (item job)) (render job) o
              now (BROWSER_POOL s)) as [[P eff] c] eqn:Hr.
  destruct Hsent as (Hsent & Hfailed & Hended). cbn [fst snd].
  split; [exact Hsent|]. split; [|cbn; by rewrite Hp].
  intros [Hrejected|Hfinished]; [by apply Hfailed|].
  apply Hended. intros pc' ->. cbn in Hfinished. injection Hfinished as ->.
  by apply processGif_resume_awaits in Hr.
Qed.

(** The timer of a job that starts and awaits is due
    [MAX_PROCESSING_TIME_MS] after the start. *)
Lemma deadline_set org it now s :
  let s' := try_processGifWithTimeout org it now s in
  (exists job, jobs s' !! length (jobs s) = Some job /\ promise job = Pending) ->
  timers s'
  = timers s ++ [mkTimer (now + Config.MAX_PROCESSING_TIME_MS)
                   Config.MAX_PROCESSING_TIME_MS (RejectTimeout (length (jobs s)))].
Proof.
  cbv zeta. intros (job' & Hjob' & Hp).
  destruct (try_processGifWithTimeout_spec org it now s)
    as (job & Hjobs & _ & _ & _ & _ & _ & _ & _ & _ & _ & _ & Hcase).
  rewrite Hjobs, lookup_snoc in Hjob'. injection Hjob' as <-.
  destruct Hcase as [(_ & _ & _ & _ & ->)|(_ & [m Hm] & _)]; [done|congruence].
Qed.

(** A timer does not fire before it is due. *)
Lemma timer_not_before_due toLowerCase s now k t s' :
  timers s !! k = Some t -> step toLowerCase s now (TimerFires k) = Some s' ->
  due t <= now.
Proof.
  unfold step, timerFires. destruct (clock s <=? now); [|done].
  cbn [timers set_clock]. intros ->.
  destruct (Z.leb_spec (due t) now); done.
Qed.

(** C1, as amended: the timer of a job is due [MAX_PROCESSING_TIME_MS]
    after its start and does not fire before.  When it fires while the
    promise of the job is pending, the promise is rejected with the
    timeout error, the failure message is sent, and the render is left
    where it is.  When [generateGIF] ends well, the attachment is sent,
    whatever the promise is.  And the render of a job whose promise is
    rejected goes on at every outcome of what it awaits; it does what
    [processGif] does, the function that awaited the job is not resumed
    again, and the promise stays rejected.  The only message that such a
    step sends is the GIF, when [generateGIF] has ended well; when what
    the render awaits fails, or when the render ends, nothing is sent. *)
Theorem timeout_soft_cancellation toLowerCase
    (s : State) (now : Z) (j : nat) (job : Job) :
  clock s <= now -> jobs s !! j = Some job ->
  (forall org it,
      let s' := try_processGifWithTimeout org it now s in
      (exists job', jobs s' !! length (jobs s) = Some job' /\ promise job' = Pending) ->
      timers s'
      = timers s ++ [mkTimer (now + Config.MAX_PROCESSING_TIME_MS)
                       Config.MAX_PROCESSING_TIME_MS (RejectTimeout (length (jobs s)))]) /\
  (forall k t s',
      timers s !! k = Some t -> step toLowerCase s now (TimerFires k) = Some s' ->
      due t <= now) /\
  (forall k t,
      timers s !! k = Some t -> callback t = RejectTimeout j -> due t <= now ->
      promise job = Pending ->
      exists s',
        step toLowerCase s now (TimerFires k) = Some s' /\
        jobs s' !! j = Some (mkJob (item job) (origin job) (render job)
                               (RejectedWith (timeout_message (userId (item job))))
                               AwaitErrorReply) /\
        new_effects s s' = [EditReply (interaction (item job)) SomethingWentWrong] /\
        BROWSER_POOL s' = BROWSER_POOL s) /\
  (forall attachment,
      render job = AwaitGenerateGIF ->
      exists s',
        step toLowerCase s now (RenderSettles j (Fulfilled attachment)) = Some s' /\
        new_effects s s' = [EditReply (interaction (item job)) (Files attachment)] /\
        jobs s' !! j = Some (set_render AwaitEditReply job)) /\
  (forall o m,
      promise job = RejectedWith m ->
      render job <> Finished -> well_typed (render job) o = true ->
      exists s',
        step toLowerCase s now (RenderSettles j o) = Some s' /\
        new_effects s s'
        = snd (fst (processGif_resume (interaction (item job)) (gif (item job))
                      (render job) o now (BROWSER_POOL s))) /\
        processingCount s' = processingCount s /\ gifQueue s' = gifQueue s /\
        caller <$> jobs s' !! j = Some (caller job) /\
        promise <$> jobs s' !! j = Some (RejectedWith m) /\
        (forall e, In e (new_effects s s') ->
           (exists attachment,
               render job = AwaitGenerateGIF /\ o = Fulfilled attachment /\
               e = EditReply (interaction (item job)) (Files attachment)) \/
           (exists path, e = Screenshot path) \/
           (exists gif' id, e = GenerateGIF gif' id)) /\
        ((exists m', o = Rejected m') \/ render <$> jobs s' !! j = Some Finished ->
         new_effects s s' = [])).
Proof.
  intros Hclock Hj. split; [|split; [|split; [|split]]].
  - intros org it. apply deadline_set.
  - intros k t s'. apply timer_not_before_due.
  - intros k t Hk Hcb Hdue Hp.
    destruct (timer_step toLowerCase s now k j t job) as (s' & ? & ? & ? & ? & _);
      eauto.
  - intros attachment Hpc. by apply late_result_step.
  - intros o m Hp Hpc Hwt.
    destruct (late_render_step toLowerCase s now j job o m)
      as (s' & Hstep & ? & ? & ? & ? & _); [done..|].
    destruct (late_render_sent toLowerCase s now j job o m s')
      as (? & ? & ?); [done..|].
    exists s'. repeat (split; [done|]). done.
Qed.

Lemma timeout_soft_cancellation_witness :
  (exists s,
      run ascii_toLowerCase (init gifs) trace_deadline = Some s /\
      exists s',
        step ascii_toLowerCase s 31010 (TimerFires 0) = Some s' /\
        new_effects s s' = [EditReply alice SomethingWentWrong]) /\
  (exists s,
      run ascii_toLowerCase (init gifs) trace_timed_out = Some s /\
      exists s',
        step ascii_toLowerCase s 45000 (RenderSettles 0 (Rejected "gifsicle")) = Some s' /\
        new_effects s s' = []).
Proof.
  split.
  - eexists. split; [vm_compute; reflexivity|].
    match goal with |- exists s', step _ ?s _ _ = _ /\ _ =>
      destruct (timeout_soft_cancellation ascii_toLowerCase s 31010 0
                  (mkJob (mkQueueItem alice (js "hello world") (js "jerma.gif") "alice" 1010)
                     FastPath AwaitGenerateGIF Pending AwaitJob))
        as (_ & _ & Hfire & _) end.
    + vm_compute. discriminate.
    + reflexivity.
    + destruct (Hfire 0%nat (mkTimer 31010 30000 (RejectTimeout 0)))
        as (s' & Hstep & _ & Heff & _).
      * reflexivity.
      * reflexivity.
      * vm_compute. discriminate.
      * reflexivity.
      * exists s'. split; [exact Hstep|exact Heff].
  - eexists. split; [vm_compute; reflexivity|].
    match goal with |- exists s', step _ ?s _ _ = _ /\ _ =>
      destruct (timeout_soft_cancellation ascii_toLowerCase s 45000 0
                  (mkJob (mkQueueItem alice (js "hello world") (js "jerma.gif") "alice" 1010)
                     FastPath AwaitGenerateGIF
                     (RejectedWith "Processing timeout for user alice") Completed))
        as (_ & _ & _ & _ & Hlate) end.
    + vm_compute. discriminate.
    + reflexivity.
    + destruct (Hlate (Rejected "gifsicle") "Processing timeout for user alice")
        as (s' & Hstep & _ & _ & _ & _ & _ & _ & Hnothing).
      * reflexivity.
      * discriminate.
      * reflexivity.
      * exists s'. split; [exact Hstep|]. apply Hnothing. left. by eexists.
Defined.

(** C1, as stated, fails: the job of alice times out while [generateGIF]
    runs, [generateGIF] ends later, and alice is sent the failure message
    and then the GIF. *)
Lemma late_result_is_delivered :
  exists s,
    run ascii_toLowerCase (init gifs) trace_late_result = Some s /\
    map promise (jobs s) = [RejectedWith "Processing timeout for user alice"] /\
    notifications "i1" s = [SomethingWentWrong; Files 42].
Proof.
  eexists. split; [vm_compute; reflexivity|]. split; reflexivity.
Qed.

(** ** When the counter and the slot are given back *)

(** The flag goes from set to cleared only where a call of
    [generateImage] ends. *)
Lemma processGif_resume_release i gif pc o now P P' eff c :
  processGif_resume i gif pc o now P = (P', eff, c) ->
  inUse P = true -> inUse P' = false ->
  in_generateImage pc = true /\
  match generateImage_resume (render_id i) pc o now P with
  | (_, _, Awaits _) => False
  | _ => True
  end.
Proof.
  unfold processGif_resume, generateImage_resume, generateImage_try,
    getBrowserPage, getBrowserPage_resume.
  intros Hr Hin Hout.
  destruct pc, o; simpl in *; repeat case_match; simplify_eq; simpl in *;
    try done; congruence.
Qed.

Lemma error_reply_step toLowerCase (s : State) (now : Z) (j : nat) (o : Outcome) (job : Job) :
  clock s <= now -> jobs s !! j = Some job -> caller job = AwaitErrorReply ->
  exists s',
    step toLowerCase s now (ErrorReplySettles j o) = Some s' /\
    BROWSER_POOL s' = BROWSER_POOL s /\
    processingCount s'
    = processingCount s - 1 + Z.of_nat (length (jobs s') - length (jobs s)) /\
    jobs s' !! j = Some (set_caller Completed job).
Proof.
  intros Hclock Hj Hc. unfold step, errorReplySettles.
  rewrite (clock_ok _ _ Hclock). cbn. rewrite Hj, Hc.
  eexists. split; [reflexivity|].
  destruct (finally_block_spec j (origin job) now (set_clock now s))
    as ([HP _] & Hn & Hjob).
  repeat split; [done..|]. by apply Hjob.
Qed.

Lemma release_step toLowerCase (s : State) (now : Z) (e : Event) (s' : State) :
  step toLowerCase s now e = Some s' ->
  inUse (BROWSER_POOL s) = true -> inUse (BROWSER_POOL s') = false ->
  exists j o job,
    e = RenderSettles j o /\ jobs s !! j = Some job /\
    in_generateImage (render job) = true /\
    match generateImage_resume (render_id (interaction (item job))) (render job) o now
            (BROWSER_POOL s) with
    | (_, _, Awaits _) => False
    | _ => True
    end.
Proof.
  unfold step. destruct (clock s <=? now); [|done].
  change (BROWSER_POOL s) with (BROWSER_POOL (set_clock now s)).
  change (jobs s) with (jobs (set_clock now s)).
  generalize (set_clock now s). clear s. intros s Hstep Hin Hout.
  assert (BROWSER_POOL s' = BROWSER_POOL s -> False) as Hsame by congruence.
  destruct e as [i|k o rf|j o|j o|k| | | |banned]; simpl in Hstep.
  - exfalso. injection Hstep as <-. apply Hsame, onInteractionCreate_pool.
  - exfalso. unfold taskSettles in Hstep. destruct (tasks s !! k) as [t|]; [|done].
    destruct t, o; injection Hstep as <-;
      try (by apply Hsame; rewrite ?afterDeferReply_pool);
      try (by apply Hsame; destruct (processNextInQueue_spec now
                (set_tasks (delete k (tasks s)) s)) as [[-> _] _]);
      cbn in Hout; congruence.
  - unfold renderSettles in Hstep. destruct (jobs s !! j) as [job|] eqn:Hj; [|done].
    exists j, o, job. split; [done|]. split; [done|].
    destruct (processGif_resume (interaction (item job)) (gif (item job)) (render job) o
                now (BROWSER_POOL s)) as [[P eff] c] eqn:Hr.
    apply (processGif_resume_release _ _ _ _ _ _ P eff c Hr Hin).
    destruct (render job) eqn:Hpc; try done;
      (destruct (well_typed _ o); [|done]);
      rewrite Hr in Hstep;
      destruct c; injection Hstep as <-; by rewrite ?settle_pool in Hout.
  - exfalso. unfold errorReplySettles in Hstep. destruct (jobs s !! j) as [job|]; [|done].
    destruct (caller job); try done. injection Hstep as <-. apply Hsame.
    by destruct (finally_block_spec j (origin job) now s) as ([-> _] & _).
  - exfalso. unfold timerFires in Hstep. destruct (timers s !! k) as [t|]; [|done].
    destruct (due t <=? now); [|done].
    destruct (callback t) as [j|].
    + cbn [jobs set_timers] in Hstep.
      destruct (jobs s !! j); injection Hstep as <-; [|by apply Hsame].
      apply Hsame. by rewrite settle_pool.
    + injection Hstep as <-. apply Hsame.
      by destruct (processNextInQueue_spec now (set_timers (delete k (timers s)) s))
        as [[-> _] _].
  - exfalso. injection Hstep as <-. by apply Hsame.
  - exfalso. injection Hstep as <-. apply Hsame. unfold idleCheck, cleanupBrowser.
    by repeat case_match.
  - exfalso. injection Hstep as <-. apply Hsame. unfold cleanupBrowser.
    by repeat case_match.
  - exfalso. injection Hstep as <-. by apply Hsame.
Qed.

(** C4, as amended: the firing of the timer of a job gives nothing back
    (counter, pool and render are as they were); the counter is
    decremented when the reply of the [catch] block has settled, wherever
    the render is; and the flag of the pool goes from set to cleared only
    in a step in which a call of [generateImage] ends. *)
Theorem accounting_windows toLowerCase (s : State) (now : Z) :
  clock s <= now ->
  (forall k t j job,
      timers s !! k = Some t -> callback t = RejectTimeout j -> due t <= now ->
      jobs s !! j = Some job -> promise job = Pending ->
      exists s',
        step toLowerCase s now (TimerFires k) = Some s' /\
        BROWSER_POOL s' = BROWSER_POOL s /\
        processingCount s' = processingCount s /\
        render <$> jobs s' !! j = Some (render job)) /\
  (forall j o job,
      jobs s !! j = Some job -> caller job = AwaitErrorReply ->
      exists s',
        step toLowerCase s now (ErrorReplySettles j o) = Some s' /\
        BROWSER_POOL s' = BROWSER_POOL s /\
        processingCount s'
        = processingCount s - 1 + Z.of_nat (length (jobs s') - length (jobs s)) /\
        render <$> jobs s' !! j = Some (render job)) /\
  (forall e s',
      step toLowerCase s now e = Some s' ->
      inUse (BROWSER_POOL s) = true -> inUse (BROWSER_POOL s') = false ->
      exists j o job,
        e = RenderSettles j o /\ jobs s !! j = Some job /\
        in_generateImage (render job) = true /\
        match generateImage_resume (render_id (interaction (item job))) (render job) o
                now (BROWSER_POOL s) with
        | (_, _, Awaits _) => False
        | _ => True
        end).
Proof.
  intros Hclock. split; [|split].
  - intros k t j job Hk Hcb Hdue Hj Hp.
    destruct (timer_step toLowerCase s now k j t job)
      as (s' & Hstep & Hjob & _ & HP & Hc & _); try done.
    exists s'. by rewrite Hjob.
  - intros j o job Hj Hc.
    destruct (error_reply_step toLowerCase s now j o job)
      as (s' & Hstep & HP & Hn & Hjob); try done.
    exists s'. by rewrite Hjob.
  - intros e s'. apply release_step.
Qed.

Lemma accounting_windows_witness :
  exists s,
    run ascii_toLowerCase (init gifs) trace_deadline_fired = Some s /\
    exists s',
      step ascii_toLowerCase s 31050 (ErrorReplySettles 0 (Fulfilled 0)) = Some s' /\
      processingCount s = 1 /\ processingCount s' = 0 /\
      render <$> jobs s' !! 0%nat = Some AwaitGenerateGIF.
Proof.
  eexists. split; [vm_compute; reflexivity|].
  match goal with |- exists s', step _ ?s _ _ = _ /\ _ =>
    destruct (accounting_windows ascii_toLowerCase s 31050) as (_ & Hreply & _) end.
  - vm_compute. discriminate.
  - destruct (Hreply 0%nat (Fulfilled 0)
                (mkJob (mkQueueItem alice (js "hello world") (js "jerma.gif") "alice" 1010)
                   FastPath AwaitGenerateGIF
                   (RejectedWith "Processing timeout for user alice") AwaitErrorReply))
      as (s' & Hstep & _ & Hcount & Hrender).
    + reflexivity.
    + reflexivity.
    + exists s'. split; [exact Hstep|]. split; [reflexivity|].
      split; [|exact Hrender].
      rewrite Hcount.
      vm_compute in Hstep. injection Hstep as <-. reflexivity.
Defined.

(** C4, as stated, fails for the counter: the job of alice is counted
    while [generateGIF] runs; the timer fires and the failure message is
    sent; the counter is back at 0 and [generateGIF] still runs. *)
Lemma counter_decremented_at_deadline :
  exists s0 s,
    run ascii_toLowerCase (init gifs) trace_deadline = Some s0 /\
    processingCount s0 = 1 /\
    run ascii_toLowerCase (init gifs) trace_timed_out = Some s /\
    processingCount s = 0 /\
    map render (jobs s) = [AwaitGenerateGIF].
Proof.
  eexists _, _. split; [vm_compute; reflexivity|]. split; [reflexivity|].
  split; [vm_compute; reflexivity|]. split; reflexivity.
Qed.

(** ** The next dispatch after a completion *)

(** The [finally] block of [processNextInQueue] starts nothing: it sets a
    timer of 100 ms for the next call of [processNextInQueue]. *)
Lemma queue_completion_schedules_delay j now s :
  let s' := finally_block j FromQueue now s in
  timers s' = timers s ++ [mkTimer (now + 100) 100 ProcessNext] /\
  gifQueue s' = gifQueue s /\ length (jobs s') = length (jobs s) /\
  processingCount s' = processingCount s - 1.
Proof. cbn. by rewrite length_alter. Qed.

(** The [finally] block of the fast path calls [processNextInQueue]
    itself. *)
Lemma fast_path_completion_calls j now s :
  finally_block j FastPath now s
  = processNextInQueue now
      (set_processingCount (processingCount s - 1)
         (update_job j (set_caller Completed) s)).
Proof. reflexivity. Qed.

(** C8 on the code: five jobs run, the first of them by the fast path,
    and a sixth submission waits in the queue.  In the step in which the
    job of the fast path completes, the submission that waited is taken
    from the queue and started, and no timer for [processNextInQueue]
    is set. *)
Theorem fast_path_completion_dispatches_at_once :
  exists s s',
    run ascii_toLowerCase (init gifs) trace_six_submissions = Some s /\
    map userId (gifQueue s) = ["u6"%string] /\
    origin <$> jobs s !! 0%nat = Some FastPath /\
    step ascii_toLowerCase s 3100 (RenderSettles 0 (Fulfilled 0)) = Some s' /\
    caller <$> jobs s' !! 0%nat = Some Completed /\
    gifQueue s' = [] /\
    (fun job => (userId (item job), origin job)) <$> jobs s' !! 5%nat
      = Some ("u6"%string, FromQueue) /\
    List.filter (fun t => match callback t with ProcessNext => true | _ => false end)
      (timers s') = [].
Proof.
  eexists _, _. split; [vm_compute; reflexivity|].
  split; [reflexivity|]. split; [reflexivity|].
  split; [vm_compute; reflexivity|]. repeat split; reflexivity.
Qed.

(** ** The slot of the pool *)

(** An acquire while the browser is in use throws at once. *)
Lemma getBrowserPage_busy now P b :
  browser P = Some b -> inUse P = true ->
  getBrowserPage now P = (P, Throws "Browser is currently in use").
Proof. unfold getBrowserPage. intros -> ->. by destruct (page P). Qed.

(** After a release the next acquire returns the page that is there. *)
Lemma getBrowserPage_after_release now now' P b p :
  browser P = Some b -> page P = Some p ->
  getBrowserPage now' (releaseBrowserPage now P)
  = (mkPool (Some b) (Some p) true now', Returns p).
Proof. unfold getBrowserPage, releaseBrowserPage. cbn. by intros -> ->. Qed.

(** The [finally] block of [generateImage] clears the flag also when
    [getBrowserPage] has thrown because the browser is in use. *)
Lemma generateImage_releases_when_busy id now P b :
  browser P = Some b -> inUse P = true ->
  generateImage_resume id AwaitHtml (Fulfilled 0) now P
  = (releaseBrowserPage now P, [],
     Throws "Failed to generate image: Browser is currently in use").
Proof.
  intros Hb Hu. unfold generateImage_resume, generateImage_try.
  by rewrite (getBrowserPage_busy now P b Hb Hu).
Qed.

(** C2 on the code: three submissions render at the same time.  The
    render of alice has the page; the render of bob finds the browser in
    use and fails, and the [finally] block of its [generateImage] clears
    the flag; the render of carol then gets the page that the render of
    alice still has. *)
Theorem two_renders_hold_the_page :
  exists s,
    run ascii_toLowerCase (init gifs) trace_three_renders = Some s /\
    map (fun job => (userId (item job), has_page (render job))) (holders s)
      = [("alice"%string, Some 2%nat); ("carol"%string, Some 2%nat)] /\
    map promise (jobs s)
      = [Pending;
         RejectedWith "Failed to generate image: Browser is currently in use";
         Pending].
Proof.
  eexists. split; [vm_compute; reflexivity|]. split; reflexivity.
Qed.

(** ** The text of the image *)

Lemma span_spec p s :
  let '(taken, rest) := span p s in
  s = taken ++ rest /\ forallb p taken = true /\
  match rest with c :: _ => p c = false | [] => True end.
Proof.
  induction s as [|c s IH]; simpl; [done|].
  destruct (p c) eqn:Hc; [|by rewrite Hc].
  destruct (span p s) as [taken rest]. destruct IH as (-> & Hall & Hrest).
  simpl. by rewrite Hc, Hall.
Qed.

Lemma span_app p taken c rest :
  forallb p taken = true -> p c = false ->
  span p (taken ++ c :: rest) = (taken, c :: rest).
Proof.
  intros Hall Hc. induction taken as [|d taken IH]; simpl in *.
  - by rewrite Hc.
  - apply andb_true_iff in Hall as [-> Hall]. by rewrite IH.
Qed.

Lemma span_all p s : forallb p s = true -> span p s = (s, []).
Proof.
  induction s as [|c s IH]; simpl; [done|].
  intros [-> Hall]%andb_true_iff. by rewrite IH.
Qed.

Lemma span_length p s : (length (snd (span p s)) <= length s)%nat.
Proof.
  pose proof (span_spec p s) as H. destruct (span p s) as [taken rest].
  destruct H as (-> & _). rewrite length_app. simpl. lia.
Qed.

Lemma match_emoji_body_length s name id rest :
  match_emoji_body s = Some (name, id, rest) -> (length rest < length s)%nat.
Proof.
  unfold match_emoji_body. destruct s as [|c s1]; [done|].
  destruct (is_unit 58 c); [|done].
  pose proof (span_length (fun c => negb (is_unit 58 c)) s1) as H1.
  destruct (span _ s1) as [name' s2]. simpl in H1.
  destruct name'; [done|]. destruct s2 as [|c2 s3]; [done|].
  destruct (is_unit 58 c2); [|done].
  pose proof (span_length is_digit s3) as H2.
  destruct (span is_digit s3) as [id' s4]. simpl in H2.
  destruct id'; [done|]. destruct s4 as [|c4 s5]; [done|].
  destruct (is_unit 62 c4); [|done]. intros [= _ _ <-]. simpl in *. lia.
Qed.

Lemma match_emoji_length s name id rest :
  match_emoji s = Some (name, id, rest) -> (length rest < length s)%nat.
Proof.
  unfold match_emoji. destruct s as [|c s1]; [done|].
  destruct (is_unit 60 c); [|done].
  destruct s1 as [|a s2].
  - simpl. done.
  - destruct (is_unit 97 a).
    + destruct (match_emoji_body s2) as [[[n i] r]|] eqn:E.
      * intros [= -> -> ->]. apply match_emoji_body_length in E. simpl. lia.
      * intros E'%match_emoji_body_length. simpl in *. lia.
    + intros E'%match_emoji_body_length. simpl in *. lia.
Qed.

(** Fuel beyond the length changes nothing. *)
Lemma replace_emojis_fuel n m s :
  (length s <= n)%nat -> (length s <= m)%nat ->
  replace_emojis n s = replace_emojis m s.
Proof.
  revert m s. induction n as [|n IH]; intros [|m] s Hn Hm; try done.
  - destruct s; [done|simpl in Hn; lia].
  - destruct s; [done|simpl in Hm; lia].
  - cbn [replace_emojis]. destruct (match_emoji s) as [[[name id] rest]|] eqn:E.
    + apply match_emoji_length in E. f_equal. apply IH; lia.
    + destruct s as [|c s']; [done|]. cbn [length] in *. f_equal. apply IH; lia.
Qed.

(** How [processDiscordEmojis] goes through its input. *)
Lemma processDiscordEmojis_eq s :
  processDiscordEmojis s =
    match match_emoji s with
    | Some (name, id, rest) => emoji_img name id ++ processDiscordEmojis rest
    | None =>
        match s with
        | [] => []
        | c :: s' => c :: processDiscordEmojis s'
        end
    end.
Proof.
  unfold processDiscordEmojis. destruct s as [|c s']; [done|].
  cbn [length replace_emojis].
  destruct (match_emoji (c :: s')) as [[[name id] rest]|] eqn:E.
  - apply match_emoji_length in E. simpl in E. f_equal.
    apply replace_emojis_fuel; lia.
  - done.
Qed.

Lemma match_emoji_needs_lt c s : is_unit 60 c = false -> match_emoji (c :: s) = None.
Proof. unfold match_emoji. by intros ->. Qed.

(** A text without a less-than sign has no emoji. *)
Lemma processDiscordEmojis_no_lt s :
  forallb (fun c => negb (is_unit 60 c)) s = true -> processDiscordEmojis s = s.
Proof.
  induction s as [|c s IH]; [done|]. simpl.
  intros [Hc%negb_true_iff Hs]%andb_true_iff.
  rewrite processDiscordEmojis_eq, match_emoji_needs_lt by done.
  by rewrite IH.
Qed.

Lemma match_img_length s tag rest :
  match_img s = Some (tag, rest) -> (length rest < length s)%nat.
Proof.
  unfold match_img. destruct (starts_with _ s); [|done].
  pose proof (span_length (fun c => negb (is_unit 62 c)) (drop 4 s)) as H.
  destruct (span _ (drop 4 s)) as [attributes s1]. simpl in H.
  destruct s1 as [|c rest']; [done|]. intros [= _ <-].
  rewrite length_drop in H. simpl in H. lia.
Qed.

Lemma split_img_fuel n m part s :
  (length s < n)%nat -> (length s < m)%nat ->
  split_img n part s = split_img m part s.
Proof.
  revert m part s. induction n as [|n IH]; intros [|m] part s Hn Hm; try lia.
  cbn [split_img]. destruct (match_img s) as [[tag rest]|] eqn:E.
  - apply match_img_length in E. do 2 f_equal. apply IH; lia.
  - destruct s as [|c s']; [done|]. cbn [length] in *. apply IH; lia.
Qed.

Lemma match_img_needs_lt c s : is_unit 60 c = false -> match_img (c :: s) = None.
Proof.
  unfold match_img. intros Hc.
  assert (starts_with (js "<img") (c :: s) = false) as ->; [|done].
  change (js "<img") with (60%N :: js "img"). cbn [starts_with].
  unfold is_unit in Hc. rewrite N.eqb_sym in Hc. by rewrite Hc.
Qed.

Lemma split_img_no_lt n part s :
  forallb (fun c => negb (is_unit 60 c)) s = true ->
  (length s < n)%nat -> split_img n part s = [rev part ++ s].
Proof.
  revert part s. induction n as [|n IH]; intros part s Hs Hn; [lia|].
  destruct s as [|c s']; simpl.
  - unfold match_img. cbn. by rewrite app_nil_r.
  - simpl in Hs. apply andb_true_iff in Hs as [Hc%negb_true_iff Hs].
    rewrite match_img_needs_lt by done. rewrite IH by (done || simpl in Hn; lia).
    simpl. by rewrite <- app_assoc.
Qed.

Lemma starts_with_img_needs_lt s :
  forallb (fun c => negb (is_unit 60 c)) s = true -> starts_with (js "<img") s = false.
Proof.
  destruct s as [|c s]; [done|]. cbn [forallb].
  intros [Hc%negb_true_iff _]%andb_true_iff.
  change (js "<img") with (60%N :: js "img"). cbn [starts_with].
  unfold is_unit in Hc. rewrite N.eqb_sym in Hc. by rewrite Hc.
Qed.

(** On a text without a less-than sign [processText] is [sanitizeHtml]. *)
Lemma processText_no_lt (input : jsstring) :
  forallb (fun c => negb (is_unit 60 c)) input = true ->
  processText input = sanitizeHtml input.
Proof.
  intros H. unfold processText. rewrite processDiscordEmojis_no_lt by done.
  rewrite split_img_no_lt by (done || lia). cbn [rev app map concat].
  unfold processText_part. rewrite starts_with_img_needs_lt by done.
  apply app_nil_r.
Qed.

Lemma starts_with_spec needle s :
  starts_with needle s = true <-> exists post, s = needle ++ post.
Proof.
  revert s. induction needle as [|a needle IH]; intros s; simpl.
  - split; [by exists s|done].
  - destruct s as [|b s]; [split; [done|by intros [? [=]]]|].
    rewrite andb_true_iff, N.eqb_eq, IH. split.
    + intros [-> [post ->]]. by exists post.
    + intros [post [= -> ->]]. eauto.
Qed.

(** Facts on single code units, by arithmetic. *)
Ltac unit_facts :=
  unfold is_unit, in_range in *;
  rewrite ?orb_true_iff, ?orb_false_iff, ?andb_true_iff, ?negb_true_iff,
    ?N.leb_le, ?N.eqb_eq, ?N.eqb_neq in *;
  lia.

Lemma allowed_char_plain c :
  allowed_char c = true -> needs_escape c = false.
Proof. unfold allowed_char, needs_escape. intros H. unit_facts. Qed.

Lemma escape_char_plain c : needs_escape c = false -> escape_char c = [c].
Proof.
  unfold needs_escape, escape_char. rewrite !orb_false_iff.
  by intros (((((-> & ->) & ->) & ->) & ->) & ->).
Qed.

Lemma escape_char_markup c :
  forallb (fun d => negb (is_markup d)) (escape_char c) = true.
Proof.
  unfold escape_char.
  repeat match goal with
         | |- context [if is_unit ?k c then _ else _] =>
             destruct (is_unit k c) eqn:?; [reflexivity|]
         end.
  unfold is_markup. cbn [forallb]. 
  repeat match goal with H : is_unit _ c = false |- _ => rewrite H; clear H end.
  done.
Qed.

Lemma sanitizeHtml_plain (input : jsstring) :
  forallb (fun c => negb (needs_escape c)) input = true -> sanitizeHtml input = input.
Proof.
  unfold sanitizeHtml. induction input as [|c s IH]; [done|]. cbn [flat_map forallb].
  intros [Hc%negb_true_iff Hs]%andb_true_iff. by rewrite escape_char_plain, IH.
Qed.

(** [sanitizeHtml] leaves no less-than, greater-than, quote, apostrophe
    or slash; it changes nothing in a text that has none of the six
    characters it escapes; and it never shortens. *)
Theorem sanitizeHtml_escapes (input : jsstring) :
  forallb (fun c => negb (is_markup c)) (sanitizeHtml input) = true /\
  (forallb (fun c => negb (needs_escape c)) input = true -> sanitizeHtml input = input) /\
  (length input <= length (sanitizeHtml input))%nat.
Proof.
  split; [|split; [apply sanitizeHtml_plain|]].
  - unfold sanitizeHtml. induction input as [|c s IH]; [done|]. cbn [flat_map].
    by rewrite forallb_app, escape_char_markup.
  - unfold sanitizeHtml. induction input as [|c s IH]; [done|]. cbn [flat_map].
    rewrite length_app. cbn [length].
    assert (1 <= length (escape_char c))%nat; [|lia].
    unfold escape_char. repeat case_match; simpl; lia.
Qed.

Lemma sanitizeHtml_escapes_witness :
  sanitizeHtml (js "jerma rat") = js "jerma rat".
Proof.
  apply (sanitizeHtml_escapes (js "jerma rat")). reflexivity.
Defined.

(** The text of a slash command goes through [processText] as it is. *)
Theorem processText_sanitized (input : option jsstring) :
  processText (sanitizeInput input) = sanitizeInput input.
Proof.
  pose proof (sanitizeInput_allowed input) as Hall.
  rewrite forallb_forall in Hall.
  rewrite processText_no_lt.
  - apply sanitizeHtml_plain. apply forallb_forall. intros c Hc.
    by rewrite (allowed_char_plain c (Hall c Hc)).
  - apply forallb_forall. intros c Hc.
    pose proof (allowed_char_plain c (Hall c Hc)) as H.
    unfold needs_escape in H. by destruct (is_unit 60 c); destruct (is_unit 38 c).
Qed.

Lemma processDiscordEmojis_prefix pre post :
  forallb (fun c => negb (is_unit 60 c)) pre = true ->
  processDiscordEmojis (pre ++ post) = pre ++ processDiscordEmojis post.
Proof.
  induction pre as [|c pre IH]; [done|]. cbn [forallb app].
  intros [Hc%negb_true_iff Hs]%andb_true_iff.
  rewrite processDiscordEmojis_eq, match_emoji_needs_lt by done.
  by rewrite IH.
Qed.

Lemma match_emoji_markup animated name id post :
  name <> [] -> forallb (fun c => negb (is_unit 58 c)) name = true ->
  id <> [] -> forallb is_digit id = true ->
  match_emoji (emoji_markup animated name id ++ post) = Some (name, id, post).
Proof.
  intros Hname Hcolon Hid Hdigits.
  assert (match_emoji_body (js ":" ++ name ++ js ":" ++ id ++ js ">" ++ post)
          = Some (name, id, post)) as Hbody.
  { change (js ":") with [58%N]. change (js ">") with [62%N].
    cbn [app match_emoji_body]. change (is_unit 58 58) with true. cbv iota.
    rewrite span_app by done.
    destruct name as [|n name']; [done|]. change (is_unit 58 58) with true. cbv iota.
    rewrite span_app by done.
    destruct id as [|d id']; [done|]. done. }
  unfold emoji_markup. rewrite <- !app_assoc.
  change (js "<") with [60%N]. destruct animated.
  - change (js "a") with [97%N]. cbn [app match_emoji].
    change (is_unit 60 60) with true. change (is_unit 97 97) with true. cbv iota.
    by rewrite Hbody.
  - change (js ":") with [58%N] in *. cbn [app match_emoji] in *.
    change (is_unit 60 60) with true. change (is_unit 97 58) with false. cbv iota.
    by rewrite Hbody.
Qed.

(** An emoji in Discord's markup, after a text without a less-than sign,
    is replaced by its image. *)
Theorem processDiscordEmojis_emoji (pre post : jsstring) (animated : bool)
    (name id : jsstring) :
  forallb (fun c => negb (is_unit 60 c)) pre = true ->
  name <> [] -> forallb (fun c => negb (is_unit 58 c)) name = true ->
  id <> [] -> forallb is_digit id = true ->
  processDiscordEmojis (pre ++ emoji_markup animated name id ++ post)
  = pre ++ emoji_img name id ++ processDiscordEmojis post.
Proof.
  intros Hpre Hname Hcolon Hid Hdigits.
  rewrite processDiscordEmojis_prefix by done. f_equal.
  by rewrite processDiscordEmojis_eq, match_emoji_markup.
Qed.

Lemma match_img_tag attributes rest :
  forallb (fun c => negb (is_unit 62 c)) attributes = true ->
  match_img (img_tag attributes ++ rest) = Some (img_tag attributes, rest).
Proof.
  intros Hattr. unfold match_img, img_tag. rewrite <- !app_assoc.
  change (js "<img") with [60%N; 105%N; 109%N; 103%N]. change (js ">") with [62%N].
  cbn [app starts_with drop]. rewrite !N.eqb_refl. cbn [andb].
  rewrite ?drop_0. by rewrite span_app.
Qed.

Lemma match_emoji_img rest : match_emoji (js "<img" ++ rest) = None.
Proof. reflexivity. Qed.

Lemma processText_part_tag attributes :
  processText_part (img_tag attributes) = img_tag attributes.
Proof.
  unfold processText_part, img_tag.
  by rewrite (proj2 (starts_with_spec (js "<img") _)) by eauto.
Qed.

Lemma split_img_tag n attributes rest :
  forallb (fun c => negb (is_unit 62 c)) attributes = true ->
  (length (img_tag attributes ++ rest) < n)%nat ->
  split_img n [] (img_tag attributes ++ rest)
  = [] :: img_tag attributes :: split_img (S (length rest)) [] rest.
Proof.
  intros Hattr Hn. destruct n as [|n]; [lia|]. cbn [split_img].
  rewrite match_img_tag by done. cbn [rev].
  rewrite (split_img_fuel n (S (length rest))); [done| |lia].
  rewrite length_app in Hn. unfold img_tag in Hn. rewrite !length_app in Hn.
  simpl in Hn. lia.
Qed.

(** A tag that opens with [<img] and has no further less-than or
    greater-than sign before its end is copied as it is, and the text
    after it is processed as usual. *)
Theorem processText_img (attributes post : jsstring) :
  forallb (fun c => negb (is_unit 60 c) && negb (is_unit 62 c)) attributes = true ->
  processText (img_tag attributes ++ post) = img_tag attributes ++ processText post.
Proof.
  intros Hattr.
  assert (forallb (fun c => negb (is_unit 60 c)) attributes = true
          /\ forallb (fun c => negb (is_unit 62 c)) attributes = true) as [Hlt Hgt].
  { rewrite !forallb_forall in *.
    split; intros c Hc; by apply Hattr, andb_true_iff in Hc as [? ?]. }
  assert (processDiscordEmojis (img_tag attributes ++ post)
          = img_tag attributes ++ processDiscordEmojis post) as Hemoji.
  { unfold img_tag. rewrite <- !app_assoc.
    rewrite processDiscordEmojis_eq, match_emoji_img.
    change (js "<img") with (60%N :: js "img"). cbn [app].
    rewrite (app_assoc (js "img")), (app_assoc (js "img" ++ attributes)).
    rewrite processDiscordEmojis_prefix; [by rewrite <- !app_assoc|].
    by rewrite !forallb_app, Hlt. }
  unfold processText at 1. cbv zeta. rewrite Hemoji.
  rewrite split_img_tag by (done || lia).
  cbn [map concat]. by rewrite processText_part_tag.
Qed.

Lemma is_digit_not_gt id :
  forallb is_digit id = true -> forallb (fun c => negb (is_unit 62 c)) id = true.
Proof.
  rewrite !forallb_forall. intros H c Hc. specialize (H c Hc).
  unfold is_digit in H. unit_facts.
Qed.

Lemma emoji_img_tag name id :
  forallb (fun c => negb (is_unit 62 c)) name = true -> forallb is_digit id = true ->
  exists attributes,
    emoji_img name id = img_tag attributes /\
    forallb (fun c => negb (is_unit 62 c)) attributes = true.
Proof.
  intros Hname Hid%is_digit_not_gt.
  exists (js " src=" ++ quote ++ js "https://cdn.discordapp.com/emojis/" ++ id
            ++ js ".png?size=64" ++ quote
          ++ js " alt=" ++ quote ++ name ++ quote
          ++ js " style=" ++ quote
          ++ js "height:60px;vertical-align:middle;margin:0 3px;" ++ quote
          ++ js " crossorigin=" ++ quote ++ js "anonymous" ++ quote ++ js " /").
  split.
  - unfold emoji_img, img_tag.
    change (js "<img src=") with (js "<img" ++ js " src=").
    change (js " />") with (js " /" ++ js ">").
    by rewrite <- !app_assoc.
  - rewrite !forallb_app, Hname, Hid. reflexivity.
Qed.

(** An emoji whose name has no greater-than sign comes out of
    [processText] as its image, unescaped, and the text after it is
    processed as usual. *)
Theorem processText_emoji (animated : bool) (name id post : jsstring) :
  name <> [] ->
  forallb (fun c => negb (is_unit 58 c) && negb (is_unit 62 c)) name = true ->
  id <> [] -> forallb is_digit id = true ->
  processText (emoji_markup animated name id ++ post)
  = emoji_img name id ++ processText post.
Proof.
  intros Hname Hchars Hid Hdigits.
  assert (forallb (fun c => negb (is_unit 58 c)) name = true
          /\ forallb (fun c => negb (is_unit 62 c)) name = true) as [Hcolon Hgt].
  { rewrite !forallb_forall in *.
    split; intros c Hc; by apply Hchars, andb_true_iff in Hc as [? ?]. }
  destruct (emoji_img_tag name id Hgt Hdigits) as (attributes & Htag & Hattr).
  unfold processText at 1. cbv zeta.
  rewrite processDiscordEmojis_eq, match_emoji_markup by done.
  rewrite Htag, split_img_tag by (done || lia).
  cbn [map concat]. by rewrite processText_part_tag.
Qed.

Lemma processDiscordEmojis_emoji_witness :
  processDiscordEmojis (js "gg " ++ emoji_markup true (js "dance") (js "42") ++ js " <3")
  = js "gg " ++ emoji_img (js "dance") (js "42") ++ processDiscordEmojis (js " <3").
Proof.
  apply (processDiscordEmojis_emoji (js "gg ") (js " <3") true (js "dance") (js "42"));
    (reflexivity || discriminate).
Defined.

Lemma processText_img_witness :
  processText (img_tag (js " src=x onerror=alert(1)") ++ js "</div>")
  = img_tag (js " src=x onerror=alert(1)") ++ processText (js "</div>").
Proof.
  apply (processText_img (js " src=x onerror=alert(1)") (js "</div>")). reflexivity.
Defined.

Lemma processText_emoji_witness :
  processText (emoji_markup false (js "kek") (js "123") ++ js " & co")
  = emoji_img (js "kek") (js "123") ++ processText (js " & co").
Proof.
  apply (processText_emoji false (js "kek") (js "123") (js " & co"));
    (reflexivity || discriminate).
Defined.

(** ** The names of the GIFs *)

(** [includes] holds exactly of the strings that contain the needle. *)
Lemma includes_spec s needle :
  includes s needle = true <-> exists pre post, s = pre ++ needle ++ post.
Proof.
  induction s as [|c s IH]; simpl.
  - rewrite orb_false_r, starts_with_spec. split.
    + intros [post H]. by exists [], post.
    + intros (pre & post & H). destruct pre; [by exists post|done].
  - rewrite orb_true_iff, starts_with_spec, IH. split.
    + intros [[post ->]|(pre & post & ->)].
      * by exists [], post.
      * by exists (c :: pre), post.
    + intros ([|d pre] & post & H).
      * left. by exists post.
      * right. injection H as <- ->. by exists pre, post.
Qed.

Lemma filter_sublist {A} (f : A -> bool) (l : list A) : List.filter f l `sublist_of` l.
Proof.
  induction l as [|x l IH]; simpl; [done|].
  destruct (f x); by constructor.
Qed.

Lemma returnGIFQuery_length toLowerCase names searchQuery :
  (length (returnGIFQuery toLowerCase names searchQuery) <= 25)%nat.
Proof. unfold returnGIFQuery. rewrite length_take. lia. Qed.

Lemma returnGIFQuery_sublist toLowerCase names searchQuery :
  returnGIFQuery toLowerCase names searchQuery `sublist_of` names.
Proof.
  unfold returnGIFQuery. etrans; [apply sublist_take|apply filter_sublist].
Qed.

(** [returnGIFQuery] gives at most 25 names, taken from the names in
    their order, each of which contains the query when both are put in
    lower case; and when it gives fewer than 25 it gives every such
    name. *)
Theorem returnGIFQuery_results toLowerCase (names : list jsstring) (searchQuery : jsstring) :
  let results := returnGIFQuery toLowerCase names searchQuery in
  (length results <= 25)%nat /\
  results `sublist_of` names /\
  (forall name, In name results ->
     exists pre post, toLowerCase name = pre ++ toLowerCase searchQuery ++ post) /\
  ((length results < 25)%nat ->
   forall name pre post,
     In name names -> toLowerCase name = pre ++ toLowerCase searchQuery ++ post ->
     In name results).
Proof.
  cbv zeta.
  split; [apply returnGIFQuery_length|]. split; [apply returnGIFQuery_sublist|].
  unfold returnGIFQuery. set (matching := List.filter _ names). split.
  - intros name Hin. apply includes_spec.
    assert (In name matching) as Hm.
    { apply list_elem_of_In.
      apply (sublist_subseteq _ _ (sublist_take matching 25) name).
      by apply list_elem_of_In. }
    by apply filter_In in Hm as [_ Hm].
  - intros Hlen name pre post Hin Hname.
    rewrite length_take in Hlen. rewrite take_ge by lia.
    apply filter_In. split; [done|]. apply includes_spec. eauto.
Qed.

Lemma returnGIFQuery_results_witness :
  In (js "Sus.gif") (returnGIFQuery ascii_toLowerCase [js "jerma.gif"; js "Sus.gif"] (js "SUS")).
Proof.
  apply (returnGIFQuery_results ascii_toLowerCase [js "jerma.gif"; js "Sus.gif"] (js "SUS"))
    with (pre := []) (post := js ".gif").
  - vm_compute. lia.
  - right. left. reflexivity.
  - reflexivity.
Defined.

(** [handleAutocomplete] answers once, with at most 25 of the names, and
    changes nothing else; a query that is missing, empty or made only of
    characters that [sanitizeInput] removes gets the first 25 names. *)
Theorem handleAutocomplete_responds toLowerCase (i : Interaction)
    (value : option jsstring) (s : State) :
  exists choices,
    handleAutocomplete toLowerCase i value s = call [Respond i choices] s /\
    (length choices <= 25)%nat /\
    choices `sublist_of` currentGIFs s /\
    (forallb (fun c => negb (allowed_char c)) (default [] value) = true ->
     choices = take 25 (currentGIFs s)) /\
    (sanitizeInput value <> [] ->
     choices = returnGIFQuery toLowerCase (currentGIFs s) (sanitizeInput value)).
Proof.
  unfold handleAutocomplete.
  assert (forallb (fun c => negb (allowed_char c)) (default [] value) = true ->
          sanitizeInput value = []) as Hnone.
  { rewrite sanitizeInput_eq. unfold remove_disallowed.
    induction (default [] value) as [|c l IH]; [done|]. simpl.
    intros [Hc%negb_true_iff Hl]%andb_true_iff. rewrite Hc. auto. }
  destruct (sanitizeInput value) as [|c q] eqn:Hq.
  - eexists. split; [reflexivity|]. rewrite length_take.
    split; [lia|]. split; [apply sublist_take|]. by split.
  - eexists. split; [reflexivity|].
    split; [apply returnGIFQuery_length|]. split; [apply returnGIFQuery_sublist|].
    split; [|done]. intros Hall. by specialize (Hnone Hall).
Qed.

Lemma handleAutocomplete_responds_witness :
  exists choices,
    handleAutocomplete ascii_toLowerCase
      (mkInteraction "i9" "dave" (Autocomplete (Some (js "!?"))))
      (Some (js "!?")) (init gifs)
    = call [Respond (mkInteraction "i9" "dave" (Autocomplete (Some (js "!?")))) choices]
        (init gifs) /\
    choices = take 25 gifs.
Proof.
  destruct (handleAutocomplete_responds ascii_toLowerCase
              (mkInteraction "i9" "dave" (Autocomplete (Some (js "!?"))))
              (Some (js "!?")) (init gifs)) as (choices & Heq & _ & _ & Hfirst & _).
  exists choices. split; [exact Heq|]. apply Hfirst. reflexivity.
Defined.

(** ** The position in the queue *)

Lemma findIndex_spec {A} (f : A -> bool) (l : list A) :
  (findIndex f l = -1 /\ forallb (fun x => negb (f x)) l = true) \/
  (exists x,
      0 <= findIndex f l /\
      l !! Z.to_nat (findIndex f l) = Some x /\ f x = true /\
      forallb (fun y => negb (f y)) (take (Z.to_nat (findIndex f l)) l) = true).
Proof.
  induction l as [|x l IH]; [by left|]. cbn [findIndex].
  destruct (f x) eqn:Hx.
  - right. exists x. by repeat split.
  - destruct IH as [[Hnone Hall]|(y & Hge & Hy & Hfy & Hbefore)].
    + left. rewrite Hnone. cbn. by rewrite Hx.
    + right. exists y. destruct (Z.ltb_spec (findIndex f l) 0); [lia|].
      replace (Z.to_nat (findIndex f l + 1)) with (S (Z.to_nat (findIndex f l))) by lia.
      cbn. rewrite Hx. repeat split; try done. lia.
Qed.

(** [getQueuePosition] is 0 exactly when the caller has nothing in the
    queue; otherwise it is the place, counted from 1, of the first item
    of the caller. *)
Theorem getQueuePosition_first (s : State) (u : string) :
  let position := getQueuePosition s u in
  0 <= position <= Z.of_nat (length (gifQueue s)) /\
  (position = 0 <-> getUserQueueCount s u = 0%nat) /\
  (0 < position ->
   exists it,
     gifQueue s !! Z.to_nat (position - 1) = Some it /\ userId it = u /\
     forall k it', (k < Z.to_nat (position - 1))%nat ->
                   gifQueue s !! k = Some it' -> userId it' <> u).
Proof.
  cbv zeta. unfold getQueuePosition, getUserQueueCount.
  set (f := fun it => String.eqb (userId it) u).
  assert (forall l, forallb (fun x => negb (f x)) l = true -> List.filter f l = []) as Hnil.
  { induction l as [|x l IH]; [done|]. cbn.
    intros [Hx%negb_true_iff Hl]%andb_true_iff. rewrite Hx. auto. }
  destruct (findIndex_spec f (gifQueue s)) as [[-> Hall]|(it & Hge & Hit & Hfit & Hbefore)].
  - rewrite (Hnil _ Hall). cbn. repeat split; try lia; done.
  - apply lookup_lt_Some in Hit as Hlt.
    split; [lia|]. split.
    + split; [lia|]. intros Hcount. exfalso.
      apply list_elem_of_lookup_2, list_elem_of_In in Hit.
      assert (In it (List.filter f (gifQueue s))) as Hin by (by apply filter_In).
      destruct (List.filter f (gifQueue s)); [done|discriminate].
    + intros _. replace (findIndex f (gifQueue s) + 1 - 1) with (findIndex f (gifQueue s)) by lia.
      exists it. split; [done|]. split; [by apply String.eqb_eq|].
      intros k it' Hk Hit' Hu.
      rewrite forallb_forall in Hbefore.
      assert (In it' (take (Z.to_nat (findIndex f (gifQueue s))) (gifQueue s))) as Hin.
      { apply list_elem_of_In, list_elem_of_lookup. exists k.
        by rewrite lookup_take_lt. }
      apply Hbefore in Hin. unfold f in Hin. rewrite Hu, String.eqb_refl in Hin. done.
Qed.

Lemma getQueuePosition_first_witness :
  let it := mkQueueItem bob (js "x") (js "jerma.gif") "bob" 5 in
  let it' := mkQueueItem alice (js "y") (js "jerma.gif") "alice" 6 in
  let s := set_gifQueue [it; it'; it'] (init gifs) in
  exists first,
    gifQueue s !! Z.to_nat (getQueuePosition s "alice" - 1) = Some first /\
    userId first = "alice"%string /\
    forall k it0, (k < Z.to_nat (getQueuePosition s "alice" - 1))%nat ->
                  gifQueue s !! k = Some it0 -> userId it0 <> "alice"%string.
Proof.
  cbv zeta.
  apply (getQueuePosition_first
           (set_gifQueue [mkQueueItem bob (js "x") (js "jerma.gif") "bob" 5;
                          mkQueueItem alice (js "y") (js "jerma.gif") "alice" 6;
                          mkQueueItem alice (js "y") (js "jerma.gif") "alice" 6]
              (init gifs)) "alice").
  vm_compute. reflexivity.
Defined.

Lemma findIndex_snoc {A} (f : A -> bool) (l : list A) (x : A) :
  f x = true ->
  findIndex f (l ++ [x])
  = if findIndex f l =? -1 then Z.of_nat (length l) else findIndex f l.
Proof.
  intros Hx. induction l as [|y l IH]; cbn [app findIndex length].
  - by rewrite Hx.
  - destruct (f y); [done|]. rewrite IH.
    destruct (findIndex_spec f l) as [[-> _]|(z & Hge & _)].
    + cbn. destruct (Z.ltb_spec (Z.of_nat (length l)) 0); lia.
    + destruct (Z.eqb_spec (findIndex f l) (-1)); [lia|].
      destruct (Z.ltb_spec (findIndex f l) 0); [lia|].
      destruct (Z.eqb_spec (findIndex f l + 1) (-1)); [lia|done].
Qed.

(** The position that a queued submission is told is the place of the
    first item of the caller in the queue: the place of the new item,
    the last, only when the caller had nothing queued before.  The
    total is the length of the queue plus the counter of running jobs. *)
Theorem queue_position_reported (i : Interaction) (text gif : jsstring) (now : Z)
    (s : State) (position total : Z) :
  In (EditReply i (QueuePosition position total))
     (new_effects s (handleNewGIFWithGif i text gif now s)) ->
  position = (if getQueuePosition s (user_id i) =? 0
              then Z.of_nat (length (gifQueue s)) + 1
              else getQueuePosition s (user_id i)) /\
  1 <= position <= Z.of_nat (length (gifQueue s)) + 1 /\
  total = Z.of_nat (length (gifQueue s)) + 1 + processingCount s.
Proof.
  unfold new_effects.
  destruct (canProcessMore s && (length (gifQueue s) =? 0)%nat) eqn:Hfast.
  - rewrite handleNewGIFWithGif_fast by done.
    destruct (try_processGifWithTimeout_spec FastPath
                (mkQueueItem i text gif (user_id i) now) now
                (set_processingCount (processingCount s + 1) s))
      as (job & _ & _ & _ & _ & _ & _ & _ & _ & _ & _ & _ & Heff).
    destruct Heff as [(_ & _ & _ & -> & _)|(_ & _ & _ & -> & _)]; cbn.
    + rewrite drop_all. by intros [].
    + rewrite drop_app_length. by intros [[=]|[]].
  - rewrite handleNewGIFWithGif_slow by done.
    destruct (isQueueFull s);
      [cbn [effects call suspend set_tasks set_effects]; rewrite drop_app_length;
       by intros [[=]|[]]|].
    destruct (2 <=? _)%nat;
      [cbn [effects call suspend set_tasks set_effects]; rewrite drop_app_length;
       by intros [[=]|[]]|].
    cbn [effects call suspend set_tasks set_effects set_gifQueue gifQueue
           processingCount].
    rewrite drop_app_length. intros [[= <- <-]|[]].
    unfold getQueuePosition. cbn [gifQueue set_gifQueue].
    rewrite findIndex_snoc by apply String.eqb_refl.
    rewrite length_app. cbn [length].
    pose proof (getQueuePosition_bounds := findIndex_spec
                  (fun it => String.eqb (userId it) (user_id i)) (gifQueue s)).
    destruct getQueuePosition_bounds as [[-> _]|(x & Hge & Hx & _)].
    + cbn. repeat split; lia.
    + apply lookup_lt_Some in Hx.
      destruct (Z.eqb_spec (findIndex (fun it => String.eqb (userId it) (user_id i))
                              (gifQueue s)) (-1)); [lia|].
      destruct (Z.eqb_spec (findIndex (fun it => String.eqb (userId it) (user_id i))
                              (gifQueue s) + 1) 0); [lia|].
      repeat split; lia.
Qed.

Lemma queue_position_reported_witness :
  let it := mkQueueItem alice (js "y") (js "jerma.gif") "alice" 6 in
  let it' := mkQueueItem bob (js "x") (js "jerma.gif") "bob" 5 in
  let s := set_gifQueue [it; it'] (init gifs) in
  1 = (if getQueuePosition s "alice" =? 0
       then Z.of_nat (length (gifQueue s)) + 1
       else getQueuePosition s "alice") /\
  1 <= 1 <= Z.of_nat (length (gifQueue s)) + 1 /\
  3 = Z.of_nat (length (gifQueue s)) + 1 + processingCount s.
Proof.
  cbv zeta.
  apply (queue_position_reported alice (js "z") (js "jerma.gif") 9
           (set_gifQueue [mkQueueItem alice (js "y") (js "jerma.gif") "alice" 6;
                          mkQueueItem bob (js "x") (js "jerma.gif") "bob" 5]
              (init gifs)) 1 3).
  vm_compute. left. reflexivity.
Defined.

(** ** What the rate limiter keeps *)

(** After the sweep the table holds, for every caller, the times of the
    last minute that it held before, and no caller with none left. *)
Theorem cleanupRequestTimes_keeps (t : gmap string (list Z)) (now : Z) (u : string)
    (times : list Z) :
  cleanupRequestTimes t now !! u = Some times <->
  times <> [] /\ times = List.filter (fun time => now - 60000 <? time) (userTimes t u).
Proof.
  unfold cleanupRequestTimes, userTimes. rewrite lookup_omap.
  destruct (t !! u) as [l|]; cbn.
  - destruct (List.filter _ l) as [|x l'] eqn:E; split.
    + done.
    + by intros [? ->].
    + by intros [= <-].
    + by intros [_ ->].
  - split; [done|]. by intros [? ->].
Qed.

Lemma handleNewGIFWithGif_times i text gif now s :
  userRequestTimes (handleNewGIFWithGif i text gif now s) = userRequestTimes s.
Proof.
  destruct (canProcessMore s && (length (gifQueue s) =? 0)%nat) eqn:Hfast.
  - rewrite handleNewGIFWithGif_fast by done.
    by destruct (try_processGifWithTimeout_spec FastPath
                   (mkQueueItem i text gif (user_id i) now) now
                   (set_processingCount (processingCount s + 1) s))
      as (job & _ & _ & _ & _ & _ & _ & _ & -> & _).
  - rewrite handleNewGIFWithGif_slow by done. by repeat case_match.
Qed.

(** A submission that gets past [deferReply] is recorded for the rate
    limit once, whatever becomes of it: dispatched, queued, or rejected
    because the queue is full or the caller has two items in it. *)
Theorem handleNewGIF_records toLowerCase (i : Interaction) (text : jsstring)
    (gif : option jsstring) (randomFile : jsstring) (now : Z) (s : State) :
  userRequestTimes (handleNewGIF toLowerCase i text gif randomFile now s)
  = recordRequest (userRequestTimes s) (user_id i) now /\
  forall u,
    userTimes (userRequestTimes (handleNewGIF toLowerCase i text gif randomFile now s)) u
    = if String.eqb (user_id i) u
      then userTimes (userRequestTimes s) u ++ [now]
      else userTimes (userRequestTimes s) u.
Proof.
  assert (userRequestTimes (handleNewGIF toLowerCase i text gif randomFile now s)
          = recordRequest (userRequestTimes s) (user_id i) now) as ->.
  { unfold handleNewGIF. repeat case_match; by rewrite handleNewGIFWithGif_times. }
  split; [done|]. intros u. apply userTimes_record.
Qed.

(** The sweeps change no verdict: when the sweeps were made before [now],
    a caller is rate limited at [now] exactly when three or more of the
    requests recorded for the caller, swept or not, are younger than a
    minute. *)
Theorem isRateLimited_history (h : list RateEvent) (u : string) (now : Z) :
  sweeps_before now h ->
  isRateLimited (rate_table h) u now = true <->
  (3 <= length (List.filter (fun time => (now - 60000 <? time)%Z) (recorded_for u h)))%nat.
Proof.
  intros Hs. by rewrite isRateLimited_iff, rate_table_complete, count_within_filter.
Qed.

Lemma isRateLimited_history_witness :
  isRateLimited (rate_table [Recorded "alice" 1000; Recorded "alice" 2000; Swept 50000;
                             Recorded "alice" 61500]) "alice" 61900 = false.
Proof.
  apply not_true_iff_false. intros Hlimited.
  apply (isRateLimited_history [Recorded "alice" 1000; Recorded "alice" 2000; Swept 50000;
                                Recorded "alice" 61500] "alice" 61900) in Hlimited.
  - vm_compute in Hlimited. lia.
  - unfold sweeps_before. repeat constructor. lia.
Defined.

(** ** The counter counts the awaited jobs *)

Lemma filter_length_alter {A} (g : A -> bool) (f : A -> A) (j : nat) (l : list A) (x : A) :
  l !! j = Some x ->
  (length (List.filter g (alter f j l)) + (if g x then 1 else 0)
   = length (List.filter g l) + (if g (f x) then 1 else 0))%nat.
Proof.
  revert j. induction l as [|y l IH]; intros [|j]; try done; cbn.
  - intros [= ->]. destruct (g x), (g (f x)); simpl; lia.
  - intros Hj. specialize (IH j Hj). destruct (g y); simpl; lia.
Qed.

Lemma shaped_but_all j l : Forall job_shape l -> shaped_but j l.
Proof. intros H k job Hk _. by eapply Forall_lookup_1. Qed.

Lemma shaped_but_alter j f l : shaped_but j l -> shaped_but j (alter f j l).
Proof.
  intros H k job Hk Hne. rewrite list_lookup_alter_ne in Hk by done. by eapply H.
Qed.

Lemma shaped_alter j f l job :
  l !! j = Some job -> shaped_but j l -> job_shape (f job) ->
  Forall job_shape (alter f j l).
Proof.
  intros Hj Hothers Hshape. apply Forall_lookup. intros k x Hk.
  destruct (decide (k = j)) as [->|Hne].
  - rewrite list_lookup_alter_eq, Hj in Hk. by injection Hk as <-.
  - rewrite list_lookup_alter_ne in Hk by done. by eapply Hothers.
Qed.

Lemma awaited_alter j f s job :
  jobs s !! j = Some job ->
  (awaited (update_job j f s) + (if is_completed job then 0 else 1)
   = awaited s + (if is_completed (f job) then 0 else 1))%nat.
Proof.
  intros Hj. unfold awaited. cbn [jobs update_job set_jobs].
  pose proof (filter_length_alter (fun job => negb (is_completed job)) f j (jobs s) job Hj)
    as Hlen.
  cbv beta in Hlen. destruct (is_completed job), (is_completed (f job)); cbn in Hlen; lia.
Qed.

Lemma accounted_same s s' :
  jobs s' = jobs s -> processingCount s' = processingCount s ->
  accounted s -> accounted s'.
Proof. unfold accounted, awaited. by intros -> ->. Qed.

(** A started job has a shape and is awaited. *)
Lemma try_processGifWithTimeout_accounted org it now s :
  Forall job_shape (jobs s) -> processingCount s = Z.of_nat (awaited s) + 1 ->
  accounted (try_processGifWithTimeout org it now s).
Proof.
  intros Hshape Hcount.
  destruct (try_processGifWithTimeout_spec org it now s)
    as (job & Hjobs & _ & _ & _ & Hc & _ & _ & _ & _ & _ & _ & Hcase).
  unfold accounted, awaited. rewrite Hjobs, Hc, Hcount, List.filter_app, length_app.
  assert (job_shape job /\ is_completed job = false) as [Hjob Hnot].
  { unfold job_shape, is_completed.
    destruct Hcase as [(-> & -> & -> & _)|(_ & [m ->] & -> & _)]; by split. }
  split.
  - apply Forall_app. split; [done|]. by apply Forall_singleton.
  - cbn. rewrite Hnot. cbn. unfold awaited. lia.
Qed.

Lemma processNextInQueue_accounted now s :
  accounted s -> accounted (processNextInQueue now s).
Proof.
  intros [Hshape Hcount]. unfold processNextInQueue.
  destruct (_ || _); [done|]. destruct (gifQueue s) as [|it rest]; [done|].
  apply try_processGifWithTimeout_accounted; [done|]. cbn. unfold awaited in *. cbn. lia.
Qed.

Lemma finally_block_accounted j org now s job :
  jobs s !! j = Some job -> is_completed job = false ->
  job_shape (set_caller Completed job) -> shaped_but j (jobs s) ->
  processingCount s = Z.of_nat (awaited s) ->
  accounted (finally_block j org now s).
Proof.
  intros Hj Hnot Hshape Hothers Hcount.
  assert (accounted (set_processingCount (processingCount s - 1)
                       (update_job j (set_caller Completed) s))) as Hacc.
  { split; cbn.
    - by eapply shaped_alter.
    - pose proof (awaited_alter j (set_caller Completed) s job Hj) as Hlen.
      rewrite Hnot in Hlen. cbn in Hlen. unfold awaited in *. cbn in *. lia. }
  unfold finally_block. destruct org.
  - by apply processNextInQueue_accounted.
  - by apply (accounted_same _ _ eq_refl eq_refl Hacc).
Qed.

Lemma catch_block_accounted j s job :
  jobs s !! j = Some job -> is_completed job = false ->
  job_shape (set_caller AwaitErrorReply job) -> shaped_but j (jobs s) ->
  processingCount s = Z.of_nat (awaited s) ->
  accounted (catch_block j s).
Proof.
  intros Hj Hnot Hshape Hothers Hcount. unfold catch_block. rewrite Hj.
  split; cbn.
  - by eapply shaped_alter.
  - pose proof (awaited_alter j (set_caller AwaitErrorReply) s job Hj) as Hlen.
    rewrite Hnot in Hlen. cbn in Hlen. unfold awaited in *. cbn in *. lia.
Qed.

Lemma settle_accounted j r now s job :
  jobs s !! j = Some job -> shaped_but j (jobs s) ->
  processingCount s = Z.of_nat (awaited s) ->
  (promise job = Pending ->
   caller job = AwaitJob /\ r <> Pending /\ (r = Resolved -> render job = Finished)) ->
  (promise job <> Pending -> job_shape job) ->
  accounted (settle j r now s).
Proof.
  intros Hj Hothers Hcount Hpending Hsettled. unfold settle. rewrite Hj.
  destruct (promise job) eqn:Hp.
  - destruct Hpending as (Hcaller & Hr & Hrender); [done|].
    assert (jobs (update_job j (set_promise r) s) !! j = Some (set_promise r job)) as Hj1.
    { cbn. by rewrite list_lookup_alter_eq, Hj. }
    assert (processingCount (update_job j (set_promise r) s)
            = Z.of_nat (awaited (update_job j (set_promise r) s))) as Hcount1.
    { pose proof (awaited_alter j (set_promise r) s job Hj) as Hlen.
      change (is_completed (set_promise r job)) with (is_completed job) in Hlen.
      change (processingCount (update_job j (set_promise r) s)) with (processingCount s).
      lia. }
    assert (shaped_but j (jobs (update_job j (set_promise r) s))) as Hothers1
      by (by apply shaped_but_alter).
    destruct r as [| |m]; [done| |].
    + apply (finally_block_accounted j _ now _ _ Hj1); try done.
      * unfold is_completed. cbn. by rewrite Hcaller.
      * unfold job_shape. cbn. by apply Hrender.
    + apply (catch_block_accounted j _ _ Hj1); try done.
      unfold is_completed. cbn. by rewrite Hcaller.
  - split; [|done]. apply Forall_lookup. intros k x Hk.
    destruct (decide (k = j)) as [->|Hne]; [|by eapply Hothers].
    rewrite Hj in Hk. injection Hk as <-. apply Hsettled. congruence.
  - split; [|done]. apply Forall_lookup. intros k x Hk.
    destruct (decide (k = j)) as [->|Hne]; [|by eapply Hothers].
    rewrite Hj in Hk. injection Hk as <-. apply Hsettled. congruence.
Qed.

Lemma processGif_resume_returns i gif pc o now P P' eff :
  processGif_resume i gif pc o now P = (P', eff, Returns tt) ->
  pc = AwaitEditReply \/ pc = Finished.
Proof.
  unfold processGif_resume, generateImage_resume, generateImage_try,
    getBrowserPage, getBrowserPage_resume.
  intros Hr. destruct pc, o; simpl in *; repeat case_match; simplify_eq; auto.
Qed.

Section Accounting.
Variable toLowerCase : jsstring -> jsstring.

Lemma handleNewGIFWithGif_accounted i text gif now s :
  accounted s -> accounted (handleNewGIFWithGif i text gif now s).
Proof.
  intros Hacc. destruct (canProcessMore s && (length (gifQueue s) =? 0)%nat) eqn:Hfast.
  - rewrite handleNewGIFWithGif_fast by done. destruct Hacc as [Hshape Hcount].
    apply try_processGifWithTimeout_accounted; [done|].
    unfold awaited in *. cbn. lia.
  - rewrite handleNewGIFWithGif_slow by done.
    repeat case_match; by apply (accounted_same s).
Qed.

Lemma afterDeferReply_accounted i randomFile now s :
  accounted s -> accounted (afterDeferReply toLowerCase i randomFile now s).
Proof.
  intros Hacc. unfold afterDeferReply, handleNewGIF.
  repeat case_match; try done; apply handleNewGIFWithGif_accounted;
    by apply (accounted_same s).
Qed.

Lemma onInteractionCreate_jobs i now s :
  jobs (onInteractionCreate toLowerCase i now s) = jobs s /\
  processingCount (onInteractionCreate toLowerCase i now s) = processingCount s.
Proof. unfold onInteractionCreate, handleAutocomplete. by repeat case_match. Qed.

Lemma renderSettles_accounted j o now s s' :
  accounted s -> renderSettles j o now s = Some s' -> accounted s'.
Proof.
  intros [Hshape Hcount]. unfold renderSettles.
  destruct (jobs s !! j) as [job|] eqn:Hj; [|done].
  pose proof (Forall_lookup_1 _ _ _ _ Hshape Hj) as Hjob.
  pose proof (shaped_but_all j _ Hshape) as Hothers.
  assert (render job <> Finished ->
          well_typed (render job) o = true ->
          match processGif_resume (interaction (item job)) (gif (item job)) (render job) o now
                  (BROWSER_POOL s) with
          | (P, eff, Awaits pc') =>
              Some (update_job j (set_render pc') (call eff (set_BROWSER_POOL P s)))
          | (P, eff, Returns _) =>
              Some (settle j Resolved now
                      (clearTimeout j
                         (update_job j (set_render Finished)
                            (call eff (set_BROWSER_POOL P s)))))
          | (P, eff, Throws m) =>
              Some (settle j (RejectedWith m) now
                      (clearTimeout j
                         (update_job j (set_render Finished)
                            (call eff (set_BROWSER_POOL P s)))))
          end = Some s' -> accounted s') as Hgo.
  { intros Hpc _.
    destruct (processGif_resume _ _ _ _ _ _) as [[P eff] [[]|m|pc']] eqn:Hr; intros [= <-].
    - eapply (settle_accounted j _ now _ (set_render Finished job)).
      + cbn. by rewrite list_lookup_alter_eq, Hj.
      + cbn. by apply shaped_but_alter.
      + pose proof (awaited_alter j (set_render Finished) s job Hj) as Hlen.
        change (is_completed (set_render Finished job)) with (is_completed job) in Hlen.
        unfold awaited in *. cbn in *. destruct (is_completed job); lia.
      + cbn. intros Hp. unfold job_shape in Hjob. rewrite Hp in Hjob.
        destruct (caller job); done.
      + cbn. intros Hp. unfold job_shape in *. cbn.
        destruct (promise job), (caller job); done.
    - eapply (settle_accounted j _ now _ (set_render Finished job)).
      + cbn. by rewrite list_lookup_alter_eq, Hj.
      + cbn. by apply shaped_but_alter.
      + pose proof (awaited_alter j (set_render Finished) s job Hj) as Hlen.
        change (is_completed (set_render Finished job)) with (is_completed job) in Hlen.
        unfold awaited in *. cbn in *. destruct (is_completed job); lia.
      + cbn. intros Hp. unfold job_shape in Hjob. rewrite Hp in Hjob.
        destruct (caller job); done.
      + cbn. intros Hp. unfold job_shape in *. cbn.
        destruct (promise job), (caller job); done.
    - apply processGif_resume_awaits in Hr. split.
      + cbn. eapply shaped_alter; [done..|].
        unfold job_shape in *. cbn. destruct (promise job), (caller job); done.
      + pose proof (awaited_alter j (set_render pc') s job Hj) as Hlen.
        change (is_completed (set_render pc' job)) with (is_completed job) in Hlen.
        unfold awaited in *. cbn in *. destruct (is_completed job); lia. }
  destruct (render job) eqn:Hpc; try done;
    (destruct (well_typed _ o) eqn:Hwt; [|done]); by apply Hgo.
Qed.

Lemma step_accounted s now e s' :
  accounted s -> step toLowerCase s now e = Some s' -> accounted s'.
Proof.
  intros Hacc. unfold step. destruct (clock s <=? now); [|done].
  assert (accounted (set_clock now s)) as Hacc0 by (by apply (accounted_same s)).
  revert Hacc0. generalize (set_clock now s). clear s Hacc. intros s Hacc.
  destruct e as [i|k o rf|j o|j o|k| | | |banned].
  - intros [= <-]. destruct (onInteractionCreate_jobs i now s).
    by apply (accounted_same s).
  - unfold taskSettles. destruct (tasks s !! k) as [t|]; [|done].
    assert (accounted (set_tasks (delete k (tasks s)) s)) as Hacc1
      by (by apply (accounted_same s)).
    destruct t, o; intros [= <-]; try done;
      try (by apply afterDeferReply_accounted);
      try (by apply processNextInQueue_accounted);
      by apply (accounted_same s).
  - by apply renderSettles_accounted.
  - unfold errorReplySettles. destruct (jobs s !! j) as [job|] eqn:Hj; [|done].
    destruct Hacc as [Hshape Hcount].
    pose proof (Forall_lookup_1 _ _ _ _ Hshape Hj) as Hjob.
    destruct (caller job) eqn:Hcaller; intros [= <-].
    apply (finally_block_accounted j _ now s job Hj).
    + unfold is_completed. by rewrite Hcaller.
    + unfold job_shape in *. cbn. rewrite Hcaller in Hjob. by destruct (promise job).
    + by apply shaped_but_all.
    + done.
  - unfold timerFires. destruct (timers s !! k) as [t|]; [|done].
    destruct (due t <=? now); [|done].
    assert (accounted (set_timers (delete k (timers s)) s)) as Hacc1
      by (by apply (accounted_same s)).
    destruct (callback t) as [j|].
    + cbn [jobs set_timers]. destruct (jobs s !! j) as [job|] eqn:Hj; intros [= <-]; [|done].
      destruct Hacc as [Hshape Hcount].
      pose proof (Forall_lookup_1 _ _ _ _ Hshape Hj) as Hjob.
      apply (settle_accounted j _ now _ job); try done.
      * by apply shaped_but_all.
      * intros Hp. unfold job_shape in Hjob. rewrite Hp in Hjob.
        destruct (caller job); done.
    + intros [= <-]. by apply processNextInQueue_accounted.
  - intros [= <-]. by apply (accounted_same s).
  - intros [= <-]. unfold idleCheck, cleanupBrowser.
    repeat case_match; by apply (accounted_same s).
  - intros [= <-]. unfold cleanupBrowser.
    repeat case_match; by apply (accounted_same s).
  - intros [= <-]. by apply (accounted_same s).
Qed.

End Accounting.

Lemma init_accounted gifs : accounted (init gifs).
Proof. split; [by apply Forall_nil|done]. Qed.

Lemma run_accounted toLowerCase gifs (trace : list (Z * Event)) (s : State) :
  run toLowerCase (init gifs) trace = Some s -> accounted s.
Proof.
  intros Hrun.
  eapply (run_invariant toLowerCase accounted); [|apply init_accounted|exact Hrun].
  intros. by eapply step_accounted.
Qed.

(** In every state that a sequence of events reaches, [processingCount] is
    the number of the jobs whose [finally] block has not run: the counter
    is raised once for a job that starts and lowered once when the function
    that awaits it is done, whether the job was sent, failed or timed out;
    so the counter never goes below zero. *)
Theorem processingCount_accounts toLowerCase gifs (trace : list (Z * Event)) (s : State) :
  run toLowerCase (init gifs) trace = Some s ->
  processingCount s = Z.of_nat (awaited s) /\ 0 <= processingCount s.
Proof.
  intros Hrun. destruct (run_accounted _ _ _ _ Hrun) as [_ Hcount]. split; [done|lia].
Qed.

Lemma processingCount_accounts_witness :
  exists s, run ascii_toLowerCase (init gifs) trace_three_renders = Some s /\
            processingCount s = Z.of_nat (awaited s) /\ 0 <= processingCount s.
Proof.
  eexists. split; [vm_compute; reflexivity|].
  eapply (processingCount_accounts ascii_toLowerCase gifs trace_three_renders).
  vm_compute. reflexivity.
Defined.

(** In every state that a sequence of events reaches, the promise of a job
    is pending exactly while the function that started the job awaits it,
    and [processGif] is then still running; the promise of a job is resolved
    only when [processGif] has returned, and the [finally] block of the
    awaiting function has then run; the failure message of the [catch]
    block is on its way only for a rejected promise. *)
Theorem job_settles_with_its_caller toLowerCase gifs (trace : list (Z * Event))
    (s : State) (j : nat) (job : Job) :
  run toLowerCase (init gifs) trace = Some s ->
  jobs s !! j = Some job ->
  (promise job = Pending <-> caller job = AwaitJob) /\
  (promise job = Pending -> render job <> Finished) /\
  (promise job = Resolved -> caller job = Completed /\ render job = Finished) /\
  (caller job = AwaitErrorReply -> exists m, promise job = RejectedWith m).
Proof.
  intros Hrun Hj. destruct (run_accounted _ _ _ _ Hrun) as [Hshape _].
  pose proof (Forall_lookup_1 _ _ _ _ Hshape Hj) as Hjob. unfold job_shape in Hjob.
  destruct (promise job) as [| |m], (caller job); try done; repeat split; try done;
    try (intros _; by exists m).
Qed.

Lemma job_settles_with_its_caller_witness :
  exists s job, run ascii_toLowerCase (init gifs) trace_timed_out = Some s /\
    jobs s !! 0%nat = Some job /\
    (promise job = Pending <-> caller job = AwaitJob) /\
    (promise job = Pending -> render job <> Finished) /\
    (promise job = Resolved -> caller job = Completed /\ render job = Finished) /\
    (caller job = AwaitErrorReply -> exists m, promise job = RejectedWith m).
Proof.
  eexists. eexists. split; [vm_compute; reflexivity|]. split; [vm_compute; reflexivity|].
  eapply (job_settles_with_its_caller ascii_toLowerCase gifs trace_timed_out _ 0%nat);
    vm_compute; reflexivity.
Defined.

(** ** The queue is first in, first out *)

Lemma filter_alter_same {A B} (g : A -> bool) (h : A -> B) (f : A -> A) (j : nat)
    (l : list A) :
  (forall x, g (f x) = g x) -> (forall x, h (f x) = h x) ->
  map h (List.filter g (alter f j l)) = map h (List.filter g l).
Proof.
  intros Hg Hh. revert j. induction l as [|y l IH]; intros [|j]; try done; cbn.
  - rewrite Hg. destruct (g y); cbn; by rewrite ?Hh.
  - destruct (g y); cbn; by rewrite IH.
Qed.

Lemma queue_history_same s s' :
  jobs s' = jobs s -> gifQueue s' = gifQueue s -> queue_history s' = queue_history s.
Proof. unfold queue_history. by intros -> ->. Qed.

Lemma queue_history_clearTimeout j s : queue_history (clearTimeout j s) = queue_history s.
Proof. done. Qed.

Lemma queue_history_update_job j f s :
  (forall job, origin (f job) = origin job) -> (forall job, item (f job) = item job) ->
  queue_history (update_job j f s) = queue_history s.
Proof.
  intros Horg Hitem. unfold queue_history. cbn. f_equal.
  apply filter_alter_same; [|done]. intros job. unfold from_queue. by rewrite Horg.
Qed.

Lemma try_processGifWithTimeout_history org it now s :
  queue_history (try_processGifWithTimeout org it now s)
  = map item (List.filter from_queue (jobs s))
    ++ (if org is FromQueue then [it] else []) ++ gifQueue s.
Proof.
  destruct (try_processGifWithTimeout_spec org it now s)
    as (job & Hjobs & Hitem & Horg & Hq & _).
  unfold queue_history. rewrite Hjobs, Hq, List.filter_app, map_app, <- app_assoc.
  f_equal. f_equal. cbn. unfold from_queue. rewrite Horg. destruct org; cbn; by rewrite ?Hitem.
Qed.

Lemma processNextInQueue_history now s :
  queue_history (processNextInQueue now s) = queue_history s.
Proof.
  unfold processNextInQueue. destruct (_ || _); [done|].
  destruct (gifQueue s) as [|it rest] eqn:Hq; [done|].
  rewrite try_processGifWithTimeout_history. unfold queue_history. by rewrite Hq.
Qed.

Lemma catch_block_history j s : queue_history (catch_block j s) = queue_history s.
Proof.
  unfold catch_block. destruct (jobs s !! j); [|done].
  by rewrite queue_history_update_job.
Qed.

Lemma finally_block_history j org now s :
  queue_history (finally_block j org now s) = queue_history s.
Proof.
  unfold finally_block, handleNewGIFWithGif_finally, processNextInQueue_finally.
  destruct org.
  - rewrite processNextInQueue_history.
    by rewrite <- (queue_history_update_job j (set_caller Completed) s).
  - by rewrite <- (queue_history_update_job j (set_caller Completed) s).
Qed.

Lemma settle_history j r now s : queue_history (settle j r now s) = queue_history s.
Proof.
  unfold settle. destruct (jobs s !! j) as [job|]; [|done].
  destruct (promise job); [|done..].
  destruct r; rewrite ?finally_block_history, ?catch_block_history;
    by rewrite queue_history_update_job.
Qed.

Lemma handleNewGIFWithGif_history i text gif now s :
  queue_history s `prefix_of` queue_history (handleNewGIFWithGif i text gif now s).
Proof.
  destruct (canProcessMore s && (length (gifQueue s) =? 0)%nat) eqn:Hfast.
  - rewrite handleNewGIFWithGif_fast by done.
    rewrite try_processGifWithTimeout_history. reflexivity.
  - rewrite handleNewGIFWithGif_slow by done.
    repeat case_match; try reflexivity.
    exists [mkQueueItem i text gif (user_id i) now]. unfold queue_history. cbn.
    by rewrite app_assoc.
Qed.

Section Order.
Variable toLowerCase : jsstring -> jsstring.

Lemma afterDeferReply_history i randomFile now s :
  queue_history s `prefix_of` queue_history (afterDeferReply toLowerCase i randomFile now s).
Proof.
  unfold afterDeferReply, handleNewGIF.
  repeat case_match; try reflexivity;
    match goal with |- _ `prefix_of` queue_history (handleNewGIFWithGif ?i ?t ?g ?n ?s1) =>
      apply (handleNewGIFWithGif_history i t g n s1) end.
Qed.

Lemma onInteractionCreate_history i now s :
  queue_history (onInteractionCreate toLowerCase i now s) = queue_history s.
Proof. unfold onInteractionCreate, handleAutocomplete. by repeat case_match. Qed.

Lemma step_history s now e s' :
  step toLowerCase s now e = Some s' -> queue_history s `prefix_of` queue_history s'.
Proof.
  unfold step. destruct (clock s <=? now); [|done].
  change (queue_history s) with (queue_history (set_clock now s)).
  generalize (set_clock now s). clear s. intros s.
  destruct e as [i|k o rf|j o|j o|k| | | |banned].
  - intros [= <-]. by rewrite onInteractionCreate_history.
  - unfold taskSettles. destruct (tasks s !! k) as [t|]; [|done].
    change (queue_history s) with (queue_history (set_tasks (delete k (tasks s)) s)).
    destruct t, o; intros [= <-]; try done;
      try (by apply afterDeferReply_history);
      by rewrite ?processNextInQueue_history.
  - unfold renderSettles. destruct (jobs s !! j) as [job|]; [|done].
    destruct (render job) eqn:Hpc; try done;
      (destruct (well_typed _ o); [|done]);
      destruct (processGif_resume _ _ _ _ _ _) as [[P eff] [a|m|pc']];
      intros [= <-]; rewrite ?settle_history, ?queue_history_clearTimeout;
      by rewrite queue_history_update_job.
  - unfold errorReplySettles. destruct (jobs s !! j) as [job|]; [|done].
    destruct (caller job); intros [= <-]. by rewrite finally_block_history.
  - unfold timerFires. destruct (timers s !! k) as [t|]; [|done].
    destruct (due t <=? now); [|done].
    destruct (callback t) as [j|].
    + cbn [jobs set_timers]. destruct (jobs s !! j); intros [= <-]; [|done].
      by rewrite settle_history.
    + intros [= <-]. by rewrite processNextInQueue_history.
  - by intros [= <-].
  - intros [= <-]. unfold idleCheck, cleanupBrowser. by repeat case_match.
  - intros [= <-]. unfold cleanupBrowser. by repeat case_match.
  - by intros [= <-].
Qed.

End Order.

(** The queue is first in, first out: the items whose jobs
    [processNextInQueue] has started, in the order of their start, and
    then the items that wait, are the items in the order in which
    [addToQueue] has added them; whatever happens, this list only grows
    at its end. *)
Theorem queue_is_fifo toLowerCase (trace : list (Z * Event)) (s s' : State) :
  run toLowerCase s trace = Some s' ->
  exists added, queue_history s' = queue_history s ++ added.
Proof.
  revert s. induction trace as [|[now e] trace IH]; intros s; simpl.
  - intros [= <-]. exists []. by rewrite app_nil_r.
  - destruct (step toLowerCase s now e) as [s1|] eqn:Hstep; [|done].
    intros Hrun. destruct (IH _ Hrun) as [added' ->].
    destruct (step_history _ _ _ _ _ Hstep) as [added ->].
    exists (added ++ added'). by rewrite app_assoc.
Qed.

Lemma queue_is_fifo_witness :
  exists s', run ascii_toLowerCase (init gifs) trace_six_submissions = Some s' /\
    exists added, queue_history s' = queue_history (init gifs) ++ added.
Proof.
  eexists. split; [vm_compute; reflexivity|].
  eapply (queue_is_fifo ascii_toLowerCase trace_six_submissions).
  vm_compute. reflexivity.
Defined.

(** ** Every awaited job has its deadline *)

Lemma filter_length_delete {A} (g : A -> bool) (k : nat) (l : list A) (x : A) :
  l !! k = Some x ->
  (length (List.filter g (delete k l)) + (if g x then 1 else 0)
   = length (List.filter g l))%nat.
Proof.
  revert k. induction l as [|y l IH]; intros [|k]; try done.
  - intros [= ->]. cbn. destruct (g x); simpl; lia.
  - intros Hk. specialize (IH k Hk).
    change (delete (S k) (y :: l)) with (y :: delete k l).
    cbn [List.filter]. destruct (g y); cbn [length]; lia.
Qed.

Lemma is_timeout_of_eq j j' t :
  is_timeout_of j t = true -> is_timeout_of j' t = true -> j = j'.
Proof.
  unfold is_timeout_of. destruct (callback t); [|done].
  intros ->%Nat.eqb_eq ->%Nat.eqb_eq. done.
Qed.

Lemma deadlines_cleared j j0 (ts : list Timer) :
  length (List.filter (is_timeout_of j)
            (List.filter (fun t => negb (is_timeout_of j0 t)) ts))
  = if decide (j = j0) then 0%nat else length (List.filter (is_timeout_of j) ts).
Proof.
  induction ts as [|t ts IH]; [by destruct (decide _)|]. cbn [List.filter].
  destruct (is_timeout_of j0 t) eqn:H0; cbn [negb].
  - rewrite IH. destruct (decide (j = j0)) as [->|Hne]; [done|].
    destruct (is_timeout_of j t) eqn:H; [|done].
    destruct Hne. by eapply is_timeout_of_eq.
  - cbn [List.filter]. destruct (is_timeout_of j t) eqn:H; cbn [length]; rewrite IH;
      destruct (decide (j = j0)) as [->|Hne]; try done. congruence.
Qed.

Lemma lookup_snoc_ne {A} (l : list A) (x : A) (k : nat) :
  k <> length l -> (l ++ [x]) !! k = l !! k.
Proof.
  intros Hne. destruct (decide (k < length l)%nat) as [Hlt|Hge].
  - by rewrite lookup_app_l.
  - rewrite (lookup_ge_None_2 l) by lia. apply lookup_ge_None_2.
    rewrite length_app. cbn. lia.
Qed.

Lemma armed_same s s' :
  jobs s' = jobs s -> timers s' = timers s -> armed s -> armed s'.
Proof. unfold armed, deadlines. by intros -> ->. Qed.

Lemma deadlines_due_alter j f l k :
  (forall job, is_pending (f job) = is_pending job) ->
  deadlines_due k (alter f j l) = deadlines_due k l.
Proof.
  intros Hf. unfold deadlines_due. destruct (decide (k = j)) as [->|Hne].
  - rewrite list_lookup_alter_eq. destruct (l !! j); cbn; by rewrite ?Hf.
  - by rewrite list_lookup_alter_ne.
Qed.

Lemma armed_update_job j f s :
  (forall job, is_pending (f job) = is_pending job) ->
  armed s -> armed (update_job j f s).
Proof.
  intros Hf Harmed k. cbn. rewrite deadlines_due_alter by done. apply Harmed.
Qed.

Lemma armed_setTimeout_next ms now s : armed s -> armed (setTimeout ProcessNext ms now s).
Proof.
  intros Harmed k. unfold deadlines. cbn. rewrite List.filter_app, length_app. cbn.
  rewrite Nat.add_0_r. apply Harmed.
Qed.

Lemma try_processGifWithTimeout_armed org it now s :
  armed s -> armed (try_processGifWithTimeout org it now s).
Proof.
  intros Harmed k.
  destruct (try_processGifWithTimeout_spec org it now s)
    as (job & Hjobs & _ & _ & _ & _ & _ & _ & _ & _ & _ & _ & Hcase).
  pose proof (Harmed k) as Hk. pose proof (Harmed (length (jobs s))) as Hnew.
  unfold deadlines, deadlines_due in *. rewrite Hjobs.
  rewrite lookup_ge_None_2 in Hnew by lia.
  destruct Hcase as [(_ & Hp & _ & _ & ->)|(_ & [m Hp] & _ & _ & ->)].
  - rewrite List.filter_app, length_app. cbn.
    destruct (decide (k = length (jobs s))) as [->|Hne].
    + rewrite Nat.eqb_refl, Hnew, lookup_snoc. unfold is_pending. by rewrite Hp.
    + destruct (Nat.eqb_spec k (length (jobs s))) as [|_]; [done|]. cbn.
      by rewrite Nat.add_0_r, Hk, lookup_snoc_ne.
  - rewrite deadlines_cleared. destruct (decide (k = length (jobs s))) as [->|Hne].
    + rewrite lookup_snoc. unfold is_pending. by rewrite Hp.
    + by rewrite Hk, lookup_snoc_ne.
Qed.

Lemma processNextInQueue_armed now s : armed s -> armed (processNextInQueue now s).
Proof.
  intros Harmed. unfold processNextInQueue.
  destruct (_ || _); [done|]. destruct (gifQueue s) as [|it rest]; [done|].
  apply try_processGifWithTimeout_armed. by apply (armed_same s).
Qed.

Lemma finally_block_armed j org now s : armed s -> armed (finally_block j org now s).
Proof.
  intros Harmed.
  assert (armed (update_job j (set_caller Completed) s)) as H1
    by (by apply armed_update_job).
  unfold finally_block, handleNewGIFWithGif_finally, processNextInQueue_finally.
  destruct org.
  - apply processNextInQueue_armed. by apply (armed_same (update_job j (set_caller Completed) s)).
  - apply armed_setTimeout_next.
    by apply (armed_same (update_job j (set_caller Completed) s)).
Qed.

Lemma catch_block_armed j s : armed s -> armed (catch_block j s).
Proof.
  intros Harmed. unfold catch_block. destruct (jobs s !! j) as [job|]; [|done].
  apply armed_update_job; [done|]. by apply (armed_same s).
Qed.

(** The promise of job [j] is settled when its timer is gone. *)
Lemma settle_armed j r now s :
  r <> Pending -> deadlines j s = 0%nat ->
  (forall k, k <> j -> deadlines k s = deadlines_due k (jobs s)) ->
  armed (settle j r now s).
Proof.
  intros Hr Hj Hothers. unfold settle.
  destruct (jobs s !! j) as [job|] eqn:Hjob.
  - destruct (promise job) eqn:Hp.
    + assert (armed (update_job j (set_promise r) s)) as H1.
      { intros k.
        change (deadlines k s = deadlines_due k (alter (set_promise r) j (jobs s))).
        destruct (decide (k = j)) as [->|Hne].
        * rewrite Hj. unfold deadlines_due. rewrite list_lookup_alter_eq, Hjob. cbn.
          unfold is_pending. cbn. by destruct r.
        * rewrite Hothers by done. unfold deadlines_due.
          by rewrite list_lookup_alter_ne. }
      destruct r; [done|by apply finally_block_armed|by apply catch_block_armed].
    + intros k. destruct (decide (k = j)) as [->|Hne]; [|by apply Hothers].
      rewrite Hj. unfold deadlines_due, is_pending. by rewrite Hjob, Hp.
    + intros k. destruct (decide (k = j)) as [->|Hne]; [|by apply Hothers].
      rewrite Hj. unfold deadlines_due, is_pending. by rewrite Hjob, Hp.
  - intros k. destruct (decide (k = j)) as [->|Hne]; [|by apply Hothers].
    rewrite Hj. unfold deadlines_due. by rewrite Hjob.
Qed.

Lemma handleNewGIFWithGif_armed i text gif now s :
  armed s -> armed (handleNewGIFWithGif i text gif now s).
Proof.
  intros Harmed. destruct (canProcessMore s && (length (gifQueue s) =? 0)%nat) eqn:Hfast.
  - rewrite handleNewGIFWithGif_fast by done.
    apply try_processGifWithTimeout_armed. by apply (armed_same s).
  - rewrite handleNewGIFWithGif_slow by done.
    repeat case_match; by apply (armed_same s).
Qed.

Section Deadlines.
Variable toLowerCase : jsstring -> jsstring.

Lemma afterDeferReply_armed i randomFile now s :
  armed s -> armed (afterDeferReply toLowerCase i randomFile now s).
Proof.
  intros Harmed. unfold afterDeferReply, handleNewGIF.
  repeat case_match; try done; apply handleNewGIFWithGif_armed;
    by apply (armed_same s).
Qed.

Lemma onInteractionCreate_timers i now s :
  jobs (onInteractionCreate toLowerCase i now s) = jobs s /\
  timers (onInteractionCreate toLowerCase i now s) = timers s.
Proof. unfold onInteractionCreate, handleAutocomplete. by repeat case_match. Qed.

Lemma step_armed s now e s' :
  armed s -> step toLowerCase s now e = Some s' -> armed s'.
Proof.
  intros Harmed. unfold step. destruct (clock s <=? now); [|done].
  assert (armed (set_clock now s)) as Harmed0 by (by apply (armed_same s)).
  revert Harmed0. generalize (set_clock now s). clear s Harmed. intros s Harmed.
  destruct e as [i|k o rf|j o|j o|k| | | |banned].
  - intros [= <-]. destruct (onInteractionCreate_timers i now s).
    by apply (armed_same s).
  - unfold taskSettles. destruct (tasks s !! k) as [t|]; [|done].
    assert (armed (set_tasks (delete k (tasks s)) s)) as Harmed1
      by (by apply (armed_same s)).
    destruct t, o; intros [= <-]; try done;
      try (by apply afterDeferReply_armed);
      try (by apply processNextInQueue_armed);
      by apply (armed_same s).
  - unfold renderSettles. destruct (jobs s !! j) as [job|]; [|done].
    assert (forall r P eff,
              r <> Pending ->
              armed (settle j r now
                       (clearTimeout j
                          (update_job j (set_render Finished)
                             (call eff (set_BROWSER_POOL P s)))))) as Hsettle.
    { intros r P eff Hr. apply settle_armed; [done|..].
      - unfold deadlines. cbn. rewrite deadlines_cleared. by rewrite decide_True.
      - intros k Hne. unfold deadlines. cbn. rewrite deadlines_cleared.
        rewrite decide_False by done. rewrite deadlines_due_alter by done. apply Harmed. }
    destruct (render job) eqn:Hpc; try done;
      (destruct (well_typed _ o); [|done]);
      destruct (processGif_resume _ _ _ _ _ _) as [[P eff] [a|m|pc']];
      intros [= <-]; try (by apply Hsettle);
      (apply armed_update_job; [done|]); by apply (armed_same s).
  - unfold errorReplySettles. destruct (jobs s !! j) as [job|]; [|done].
    destruct (caller job); intros [= <-]. by apply finally_block_armed.
  - unfold timerFires. destruct (timers s !! k) as [t|] eqn:Hk; [|done].
    destruct (due t <=? now); [|done].
    pose proof (fun j => filter_length_delete (is_timeout_of j) k (timers s) t Hk) as Hdel.
    destruct (callback t) as [j|] eqn:Hcb.
    + assert (deadlines j (set_timers (delete k (timers s)) s) = 0%nat /\
              forall k', k' <> j ->
                deadlines k' (set_timers (delete k (timers s)) s)
                = deadlines_due k' (jobs s)) as [Hj Hothers].
      { split.
        - pose proof (Hdel j) as Hd. pose proof (Harmed j) as Ha.
          unfold deadlines, deadlines_due in *. cbn.
          unfold is_timeout_of at 2 in Hd. rewrite Hcb, Nat.eqb_refl in Hd.
          destruct (jobs s !! j) as [job|]; [destruct (is_pending job)|]; lia.
        - intros k' Hne. pose proof (Hdel k') as Hd. rewrite <- Harmed.
          unfold deadlines. cbn. unfold is_timeout_of at 2 in Hd. rewrite Hcb in Hd.
          destruct (Nat.eqb_spec k' j); [done|]. lia. }
      cbn [jobs set_timers]. destruct (jobs s !! j) as [job|] eqn:Hjob; intros [= <-].
      * by apply settle_armed.
      * intros k'. destruct (decide (k' = j)) as [->|Hne]; [|by apply Hothers].
        rewrite Hj. unfold deadlines_due. cbn. by rewrite Hjob.
    + intros [= <-]. apply processNextInQueue_armed. intros j.
      pose proof (Hdel j) as Hd. rewrite <- Harmed.
      unfold deadlines. cbn. unfold is_timeout_of at 2 in Hd. rewrite Hcb in Hd. lia.
  - intros [= <-]. by apply (armed_same s).
  - intros [= <-]. unfold idleCheck, cleanupBrowser.
    repeat case_match; by apply (armed_same s).
  - intros [= <-]. unfold cleanupBrowser.
    repeat case_match; by apply (armed_same s).
  - intros [= <-]. by apply (armed_same s).
Qed.

End Deadlines.

Lemma init_armed gifs : armed (init gifs).
Proof. by intros j. Qed.

(** In every state that a sequence of events reaches, a job whose promise
    is pending has exactly one timer that rejects it, and a job whose
    promise is settled has none: the deadline of [processGifWithTimeout]
    is armed as long as the job is awaited, and it is cleared or has
    fired when the job is settled. *)
Theorem deadline_armed_while_pending toLowerCase gifs (trace : list (Z * Event))
    (s : State) (j : nat) (job : Job) :
  run toLowerCase (init gifs) trace = Some s ->
  jobs s !! j = Some job ->
  length (List.filter (is_timeout_of j) (timers s))
  = if is_pending job then 1%nat else 0%nat.
Proof.
  intros Hrun Hj.
  assert (armed s) as Harmed.
  { eapply (run_invariant toLowerCase armed); [|apply init_armed|exact Hrun].
    intros. by eapply step_armed. }
  specialize (Harmed j). unfold deadlines, deadlines_due in Harmed. by rewrite Hj in Harmed.
Qed.

Lemma deadline_armed_while_pending_witness :
  exists s job, run ascii_toLowerCase (init gifs) trace_submit = Some s /\
    jobs s !! 0%nat = Some job /\
    length (List.filter (is_timeout_of 0) (timers s))
    = if is_pending job then 1%nat else 0%nat.
Proof.
  eexists. eexists. split; [vm_compute; reflexivity|]. split; [vm_compute; reflexivity|].
  eapply (deadline_armed_while_pending ascii_toLowerCase gifs trace_submit _ 0%nat);
    vm_compute; reflexivity.
Defined.

(** ** The browser and the page go together *)

Lemma processGif_resume_paired i gif pc o now P P' eff c :
  pool_paired P ->
  processGif_resume i gif pc o now P = (P', eff, c) ->
  pool_paired P' /\ forall pc', c = Awaits pc' -> closes_old pc' = false.
Proof.
  unfold pool_paired. intros [Hbrowser Hpage].
  unfold processGif_resume, generateImage_resume, generateImage_try,
    getBrowserPage, getBrowserPage_resume, releaseBrowserPage.
  intros Hr.
  destruct pc, o; simpl in *; repeat case_match; simplify_eq; simpl;
    (split; [try done|intros ? [= <-]; try done]);
    try (split; congruence);
    try (by specialize (Hpage eq_refl)); try naive_solver.
Qed.

Lemma renders_ok_same s s' : jobs s' = jobs s -> renders_ok s -> renders_ok s'.
Proof. unfold renders_ok. by intros ->. Qed.

Lemma renders_ok_update_job j f s :
  (forall job, closes_old (render job) = false -> closes_old (render (f job)) = false) ->
  renders_ok s -> renders_ok (update_job j f s).
Proof.
  intros Hf Hok. unfold renders_ok. cbn. apply Forall_alter; [done|].
  intros job _. apply Hf.
Qed.

Lemma try_processGifWithTimeout_renders org it now s :
  renders_ok s -> renders_ok (try_processGifWithTimeout org it now s).
Proof.
  intros Hok.
  destruct (try_processGifWithTimeout_spec org it now s)
    as (job & Hjobs & _ & _ & _ & _ & _ & _ & _ & _ & _ & _ & Hcase).
  unfold renders_ok. rewrite Hjobs. apply Forall_app. split; [done|].
  apply Forall_singleton. by destruct Hcase as [(-> & _)|(-> & _)].
Qed.

Lemma processNextInQueue_renders now s :
  renders_ok s -> renders_ok (processNextInQueue now s).
Proof.
  intros Hok. unfold processNextInQueue.
  destruct (_ || _); [done|]. destruct (gifQueue s) as [|it rest]; [done|].
  apply try_processGifWithTimeout_renders. by apply (renders_ok_same s).
Qed.

Lemma finally_block_renders j org now s :
  renders_ok s -> renders_ok (finally_block j org now s).
Proof.
  intros Hok.
  assert (renders_ok (update_job j (set_caller Completed) s)) as H1
    by (by apply renders_ok_update_job).
  unfold finally_block, handleNewGIFWithGif_finally, processNextInQueue_finally.
  destruct org.
  - apply processNextInQueue_renders.
    by apply (renders_ok_same (update_job j (set_caller Completed) s)).
  - by apply (renders_ok_same (update_job j (set_caller Completed) s)).
Qed.

Lemma catch_block_renders j s : renders_ok s -> renders_ok (catch_block j s).
Proof.
  intros Hok. unfold catch_block. destruct (jobs s !! j) as [job|]; [|done].
  apply renders_ok_update_job; [done|]. by apply (renders_ok_same s).
Qed.

Lemma settle_renders j r now s : renders_ok s -> renders_ok (settle j r now s).
Proof.
  intros Hok. unfold settle. destruct (jobs s !! j) as [job|]; [|done].
  destruct (promise job); [|done..].
  assert (renders_ok (update_job j (set_promise r) s)) as H1
    by (by apply renders_ok_update_job).
  destruct r; by auto using finally_block_renders, catch_block_renders.
Qed.

Lemma handleNewGIFWithGif_renders i text gif now s :
  renders_ok s -> renders_ok (handleNewGIFWithGif i text gif now s).
Proof.
  intros Hok. destruct (canProcessMore s && (length (gifQueue s) =? 0)%nat) eqn:Hfast.
  - rewrite handleNewGIFWithGif_fast by done.
    apply try_processGifWithTimeout_renders. by apply (renders_ok_same s).
  - rewrite handleNewGIFWithGif_slow by done.
    repeat case_match; by apply (renders_ok_same s).
Qed.

Section Pool.
Variable toLowerCase : jsstring -> jsstring.

Lemma afterDeferReply_renders i randomFile now s :
  renders_ok s -> renders_ok (afterDeferReply toLowerCase i randomFile now s).
Proof.
  intros Hok. unfold afterDeferReply, handleNewGIF.
  repeat case_match; try done; apply handleNewGIFWithGif_renders;
    by apply (renders_ok_same s).
Qed.

Lemma onInteractionCreate_renders i now s :
  jobs (onInteractionCreate toLowerCase i now s) = jobs s.
Proof. unfold onInteractionCreate, handleAutocomplete. by repeat case_match. Qed.

Lemma pool_ok_same s s' :
  BROWSER_POOL s' = BROWSER_POOL s -> renders_ok s' -> pool_ok s -> pool_ok s'.
Proof. unfold pool_ok. intros -> Hok [Hpair _]. done. Qed.

Lemma step_pool_ok s now e s' :
  pool_ok s -> step toLowerCase s now e = Some s' -> pool_ok s'.
Proof.
  intros Hok. unfold step. destruct (clock s <=? now); [|done].
  assert (pool_ok (set_clock now s)) as Hok0 by done.
  revert Hok0. generalize (set_clock now s). clear s Hok. intros s Hok.
  pose proof Hok as [Hpair Hrenders].
  destruct e as [i|k o rf|j o|j o|k| | | |banned].
  - intros [= <-]. apply (pool_ok_same s); [apply onInteractionCreate_pool| |done].
    apply (renders_ok_same s); [apply onInteractionCreate_renders|done].
  - unfold taskSettles. destruct (tasks s !! k) as [t|]; [|done].
    destruct t, o; intros [= <-]; try done.
    all: try (apply (pool_ok_same s);
              [apply (afterDeferReply_pool toLowerCase _ _ _ (set_tasks _ s))
              |by apply afterDeferReply_renders|done]).
    all: try (apply (pool_ok_same s);
              [apply (processNextInQueue_spec now (set_tasks _ s))
              |by apply processNextInQueue_renders|done]).
    all: split; [unfold pool_paired; by cbn|done].
  - unfold renderSettles. destruct (jobs s !! j) as [job|]; [|done].
    assert (forall P eff c,
              processGif_resume (interaction (item job)) (gif (item job)) (render job) o now
                (BROWSER_POOL s) = (P, eff, c) ->
              pool_paired P /\ forall pc', c = Awaits pc' -> closes_old pc' = false) as Hres
      by (intros; by eapply processGif_resume_paired).
    assert (forall P eff,
              renders_ok (update_job j (set_render Finished)
                            (call eff (set_BROWSER_POOL P s)))) as Hfin.
    { intros. apply renders_ok_update_job; [done|]. by apply (renders_ok_same s). }
    destruct (render job) eqn:Hpc; try done;
      (destruct (well_typed _ o); [|done]);
      destruct (processGif_resume _ _ _ _ _ _) as [[P eff] [a|m|pc']] eqn:Hr;
      intros [= <-]; destruct (Hres _ _ _ eq_refl) as [HP Hpc'].
    all: split;
      [rewrite ?settle_pool; exact HP
      |try (apply settle_renders; by apply (renders_ok_same
              (update_job j (set_render Finished) (call eff (set_BROWSER_POOL P s)))))].
    all: apply renders_ok_update_job; [intros; by apply Hpc'|by apply (renders_ok_same s)].
  - unfold errorReplySettles. destruct (jobs s !! j) as [job|]; [|done].
    destruct (caller job); intros [= <-].
    apply (pool_ok_same s); [apply finally_block_spec|by apply finally_block_renders|done].
  - unfold timerFires. destruct (timers s !! k) as [t|]; [|done].
    destruct (due t <=? now); [|done].
    destruct (callback t) as [j|].
    + cbn [jobs set_timers]. destruct (jobs s !! j); intros [= <-]; [|done].
      apply (pool_ok_same s);
        [apply (settle_pool j _ now (set_timers _ s))|by apply settle_renders|done].
    + intros [= <-].
      apply (pool_ok_same s);
        [apply (processNextInQueue_spec now (set_timers _ s))
        |by apply processNextInQueue_renders|done].
  - by intros [= <-].
  - intros [= <-]. unfold idleCheck, cleanupBrowser. by repeat case_match.
  - intros [= <-]. unfold cleanupBrowser. by repeat case_match.
  - by intros [= <-].
Qed.

End Pool.

Lemma init_pool_ok gifs : pool_ok (init gifs).
Proof. split; [done|]. unfold renders_ok. cbn. by apply Forall_nil. Qed.

(** In every state that a sequence of events reaches, the pool has a page
    exactly when it has a browser: [getBrowserPage] sets both and
    [cleanupBrowser] clears both.  So [getBrowserPage] never finds a
    browser without a page, and no render is ever at the [close()] of an
    old browser. *)
Theorem browser_and_page_go_together toLowerCase gifs (trace : list (Z * Event))
    (s : State) :
  run toLowerCase (init gifs) trace = Some s ->
  (browser (BROWSER_POOL s) = None <-> page (BROWSER_POOL s) = None) /\
  forall j job, jobs s !! j = Some job -> closes_old (render job) = false.
Proof.
  intros Hrun.
  assert (pool_ok s) as [Hpair Hrenders].
  { eapply (run_invariant toLowerCase pool_ok); [|apply init_pool_ok|exact Hrun].
    intros. by eapply step_pool_ok. }
  split; [done|]. intros j job Hj. by eapply (Forall_lookup_1 _ _ _ _ Hrenders).
Qed.

Lemma browser_and_page_go_together_witness :
  exists s, run ascii_toLowerCase (init gifs) trace_three_renders = Some s /\
    (browser (BROWSER_POOL s) = None <-> page (BROWSER_POOL s) = None) /\
    forall j job, jobs s !! j = Some job -> closes_old (render job) = false.
Proof.
  eexists. split; [vm_compute; reflexivity|].
  eapply (browser_and_page_go_together ascii_toLowerCase gifs trace_three_renders).
  vm_compute. reflexivity.
Defined.

(** ** Who the handler turns away *)

Lemma existsb_eqb_In (u : string) (l : list string) :
  existsb (String.eqb u) l = true <-> In u l.
Proof.
  rewrite existsb_exists. split.
  - intros (x & Hx & ->%String.eqb_eq). done.
  - intros Hu. exists u. by rewrite String.eqb_refl.
Qed.

(** An interaction of a banned user starts nothing: no reply is deferred,
    no request is recorded, and the queue, the jobs and the counter stay
    as they are; an autocomplete is answered with no choices, a command or
    a context menu with the message for banned users, and anything else
    is not answered. *)
Theorem banned_user_is_turned_away toLowerCase (i : Interaction) (now : Z) (s : State) :
  In (user_id i) (bannedUsers s) ->
  let s' := onInteractionCreate toLowerCase i now s in
  tasks s' = tasks s /\ jobs s' = jobs s /\ gifQueue s' = gifQueue s /\
  processingCount s' = processingCount s /\ timers s' = timers s /\
  userRequestTimes s' = userRequestTimes s /\
  effects s' = effects s ++
    match kind i with
    | Autocomplete _ => [Respond i []]
    | SlashCommand _ _ | MessageContextMenu _ | UserContextMenu =>
        [Reply i BannedUserMessage]
    | Component => []
    end.
Proof.
  intros Hbanned%existsb_eqb_In. cbv zeta. unfold onInteractionCreate.
  rewrite Hbanned. unfold isAutocomplete, isMessageContextMenu, isApplicationCommand.
  destruct (isRateLimited (userRequestTimes s) (user_id i) now);
    destruct (kind i); cbn; repeat split; try done; by rewrite ?app_nil_r.
Qed.

Lemma banned_user_is_turned_away_witness :
  let s := set_bannedUsers ["alice"%string] (init gifs) in
  let s' := onInteractionCreate ascii_toLowerCase alice 5 s in
  In (user_id alice) (bannedUsers s) /\
  tasks s' = tasks s /\ effects s' = [Reply alice BannedUserMessage].
Proof.
  cbv zeta.
  assert (In (user_id alice) (bannedUsers (set_bannedUsers ["alice"%string] (init gifs))))
    as Hbanned by (vm_compute; left; reflexivity).
  split; [exact Hbanned|].
  destruct (banned_user_is_turned_away ascii_toLowerCase alice 5 _ Hbanned)
    as (Htasks & _ & _ & _ & _ & _ & Heffects).
  split; [exact Htasks|exact Heffects].
Defined.

(** An interaction of a caller who is rate limited and not banned, other
    than an autocomplete, starts nothing either: no reply is deferred and
    no request is recorded; a command or a context menu is answered with
    the warning, anything else is not answered. *)
Theorem rate_limited_user_is_turned_away toLowerCase (i : Interaction) (now : Z)
    (s : State) :
  ~ In (user_id i) (bannedUsers s) ->
  isRateLimited (userRequestTimes s) (user_id i) now = true ->
  isAutocomplete i = false ->
  let s' := onInteractionCreate toLowerCase i now s in
  tasks s' = tasks s /\ jobs s' = jobs s /\ gifQueue s' = gifQueue s /\
  processingCount s' = processingCount s /\ timers s' = timers s /\
  userRequestTimes s' = userRequestTimes s /\
  effects s' = effects s ++
    match kind i with
    | SlashCommand _ _ | MessageContextMenu _ | UserContextMenu => [Reply i TooQuickly]
    | _ => []
    end.
Proof.
  intros Hbanned Hlimited Hauto. cbv zeta. unfold onInteractionCreate.
  destruct (existsb _ _) eqn:Hex; [by apply existsb_eqb_In in Hex|].
  rewrite Hlimited. unfold isAutocomplete, isMessageContextMenu, isApplicationCommand in *.
  destruct (kind i); cbn; repeat split; try done; by rewrite ?app_nil_r.
Qed.

(** ** [sanitizeInput] twice *)

Lemma filter_filter_same {A} (f : A -> bool) (l : list A) :
  List.filter f (List.filter f l) = List.filter f l.
Proof.
  induction l as [|x l IH]; [done|]. simpl.
  destruct (f x) eqn:Hx; [|exact IH]. simpl. by rewrite Hx, IH.
Qed.

(** [sanitizeInput] keeps what it has let through: the result is a
    subsequence of the input, and to sanitize it again changes nothing. *)
Theorem sanitizeInput_idempotent (input : jsstring) :
  sanitizeInput (Some input) `sublist_of` input /\
  sanitizeInput (Some (sanitizeInput (Some input))) = sanitizeInput (Some input).
Proof.
  rewrite !sanitizeInput_eq.
  change (remove_disallowed input `sublist_of` input /\
          remove_disallowed (remove_disallowed input) = remove_disallowed input).
  unfold remove_disallowed. split; [apply filter_sublist|apply filter_filter_same].
Qed.

Lemma rate_limited_user_is_turned_away_witness :
  let s := set_userRequestTimes
             (recordRequest (recordRequest (recordRequest ∅ "alice" 1) "alice" 2) "alice" 3)
             (init gifs) in
  let s' := onInteractionCreate ascii_toLowerCase alice 5 s in
  isRateLimited (userRequestTimes s) (user_id alice) 5 = true /\
  tasks s' = tasks s /\ effects s' = [Reply alice TooQuickly].
Proof.
  cbv zeta. split; [vm_compute; reflexivity|].
  destruct (rate_limited_user_is_turned_away ascii_toLowerCase alice 5
              (set_userRequestTimes
                 (recordRequest (recordRequest (recordRequest ∅ "alice" 1) "alice" 2)
                    "alice" 3)
                 (init gifs)))
    as (Htasks & _ & _ & _ & _ & _ & Heffects).
  - vm_compute. intros [].
  - vm_compute. reflexivity.
  - reflexivity.
  - split; [exact Htasks|exact Heffects].
Defined.

(** ** A promise is settled once *)

Lemma job_later_refl job : job_later job job.
Proof. by repeat split. Qed.

Lemma job_later_trans job1 job2 job3 :
  job_later job1 job2 -> job_later job2 job3 -> job_later job1 job3.
Proof.
  intros (Hi1 & Ho1 & Hp1) (Hi2 & Ho2 & Hp2). repeat split; [congruence..|].
  intros Hp. rewrite <- (Hp1 Hp). apply Hp2. by rewrite (Hp1 Hp).
Qed.

Lemma jobs_later_refl s : jobs_later s s.
Proof. intros j job Hj. exists job. split; [done|apply job_later_refl]. Qed.

Lemma jobs_later_trans s1 s2 s3 :
  jobs_later s1 s2 -> jobs_later s2 s3 -> jobs_later s1 s3.
Proof.
  intros H12 H23 j job Hj. destruct (H12 j job Hj) as (job2 & Hj2 & Hl2).
  destruct (H23 j job2 Hj2) as (job3 & Hj3 & Hl3).
  exists job3. split; [done|]. by eapply job_later_trans.
Qed.

Lemma jobs_later_same s s' : jobs s' = jobs s -> jobs_later s s'.
Proof. intros Hjobs j job Hj. exists job. rewrite Hjobs. split; [done|apply job_later_refl]. Qed.

Lemma jobs_later_update_job j f s :
  (forall job, jobs s !! j = Some job -> job_later job (f job)) ->
  jobs_later s (update_job j f s).
Proof.
  intros Hf k job Hk. cbn. destruct (decide (k = j)) as [->|Hne].
  - exists (f job). rewrite list_lookup_alter_eq, Hk. split; [done|by apply Hf].
  - exists job. rewrite list_lookup_alter_ne by done. split; [done|apply job_later_refl].
Qed.

Lemma jobs_later_app s s' l : jobs s' = jobs s ++ l -> jobs_later s s'.
Proof.
  intros Hjobs j job Hj. exists job. rewrite Hjobs.
  split; [by apply lookup_app_l_Some|apply job_later_refl].
Qed.

Lemma try_processGifWithTimeout_later org it now s :
  jobs_later s (try_processGifWithTimeout org it now s).
Proof.
  destruct (try_processGifWithTimeout_spec org it now s) as (job & Hjobs & _).
  by eapply jobs_later_app.
Qed.

Lemma processNextInQueue_later now s : jobs_later s (processNextInQueue now s).
Proof.
  unfold processNextInQueue. destruct (_ || _); [apply jobs_later_refl|].
  destruct (gifQueue s) as [|it rest]; [apply jobs_later_refl|].
  apply (jobs_later_trans _ (set_processingCount (processingCount s + 1) (set_gifQueue rest s)));
    [by apply jobs_later_same|apply try_processGifWithTimeout_later].
Qed.

Lemma finally_block_later j org now s : jobs_later s (finally_block j org now s).
Proof.
  assert (jobs_later s (update_job j (set_caller Completed) s)) as H1.
  { apply jobs_later_update_job. intros job _. by repeat split. }
  unfold finally_block, handleNewGIFWithGif_finally, processNextInQueue_finally.
  destruct org.
  - eapply jobs_later_trans; [exact H1|].
    eapply jobs_later_trans; [|apply processNextInQueue_later]. by apply jobs_later_same.
  - eapply jobs_later_trans; [exact H1|]. by apply jobs_later_same.
Qed.

Lemma catch_block_later j s : jobs_later s (catch_block j s).
Proof.
  unfold catch_block. destruct (jobs s !! j) as [job|]; [|apply jobs_later_refl].
  eapply jobs_later_trans; [|apply jobs_later_update_job].
  - by apply (jobs_later_same s (call _ s)).
  - intros job0 _. by repeat split.
Qed.

Lemma settle_later j r now s : jobs_later s (settle j r now s).
Proof.
  unfold settle. destruct (jobs s !! j) as [job|] eqn:Hj; [|apply jobs_later_refl].
  destruct (promise job) eqn:Hp; [|apply jobs_later_refl..].
  assert (jobs_later s (update_job j (set_promise r) s)) as H1.
  { apply jobs_later_update_job. intros job0 Hj0. rewrite Hj in Hj0. injection Hj0 as <-.
    repeat split. cbn. by rewrite Hp. }
  destruct r; (eapply jobs_later_trans; [exact H1|]);
    auto using finally_block_later, catch_block_later.
Qed.

Lemma handleNewGIFWithGif_later i text gif now s :
  jobs_later s (handleNewGIFWithGif i text gif now s).
Proof.
  destruct (canProcessMore s && (length (gifQueue s) =? 0)%nat) eqn:Hfast.
  - rewrite handleNewGIFWithGif_fast by done.
    eapply jobs_later_trans; [|apply try_processGifWithTimeout_later].
    by apply jobs_later_same.
  - rewrite handleNewGIFWithGif_slow by done.
    repeat case_match; by apply jobs_later_same.
Qed.

Section Later.
Variable toLowerCase : jsstring -> jsstring.

Lemma afterDeferReply_later i randomFile now s :
  jobs_later s (afterDeferReply toLowerCase i randomFile now s).
Proof.
  unfold afterDeferReply, handleNewGIF.
  repeat case_match; try apply jobs_later_refl;
    (eapply jobs_later_trans; [|apply handleNewGIFWithGif_later]);
    by apply jobs_later_same.
Qed.

Lemma onInteractionCreate_later i now s :
  jobs_later s (onInteractionCreate toLowerCase i now s).
Proof.
  apply jobs_later_same. unfold onInteractionCreate, handleAutocomplete.
  by repeat case_match.
Qed.

Lemma step_later s now e s' :
  step toLowerCase s now e = Some s' -> jobs_later s s'.
Proof.
  unfold step. destruct (clock s <=? now); [|done].
  intros Hstep. apply (jobs_later_trans _ (set_clock now s)); [by apply jobs_later_same|].
  revert Hstep. generalize (set_clock now s). clear s. intros s.
  destruct e as [i|k o rf|j o|j o|k| | | |banned].
  - intros [= <-]. apply onInteractionCreate_later.
  - unfold taskSettles. destruct (tasks s !! k) as [t|]; [|done].
    destruct t, o; intros [= <-]; try (by apply jobs_later_same).
    all: apply (jobs_later_trans _ (set_tasks (delete k (tasks s)) s));
      [by apply jobs_later_same|];
      auto using afterDeferReply_later, processNextInQueue_later.
  - unfold renderSettles. destruct (jobs s !! j) as [job|]; [|done].
    assert (forall pc P eff,
              jobs_later s (update_job j (set_render pc) (call eff (set_BROWSER_POOL P s))))
      as Hrender.
    { intros. eapply jobs_later_trans; [|apply jobs_later_update_job].
      - by apply (jobs_later_same s (call _ (set_BROWSER_POOL _ s))).
      - intros job0 _. by repeat split. }
    destruct (render job) eqn:Hpc; try done;
      (destruct (well_typed _ o); [|done]);
      destruct (processGif_resume _ _ _ _ _ _) as [[P eff] [a|m|pc']];
      intros [= <-]; try apply Hrender.
    all: eapply jobs_later_trans; [apply (Hrender Finished P eff)|].
    all: eapply jobs_later_trans; [|apply settle_later]; by apply jobs_later_same.
  - unfold errorReplySettles. destruct (jobs s !! j) as [job|]; [|done].
    destruct (caller job); intros [= <-]. apply finally_block_later.
  - unfold timerFires. destruct (timers s !! k) as [t|]; [|done].
    destruct (due t <=? now); [|done].
    destruct (callback t) as [j|].
    + cbn [jobs set_timers]. destruct (jobs s !! j); intros [= <-];
        [|by apply jobs_later_same].
      eapply jobs_later_trans; [|apply settle_later]. by apply jobs_later_same.
    + intros [= <-].
      eapply jobs_later_trans; [|apply processNextInQueue_later]. by apply jobs_later_same.
  - intros [= <-]. by apply jobs_later_same.
  - intros [= <-]. apply jobs_later_same. unfold idleCheck, cleanupBrowser.
    by repeat case_match.
  - intros [= <-]. apply jobs_later_same. unfold cleanupBrowser. by repeat case_match.
  - intros [= <-]. by apply jobs_later_same.
Qed.

Lemma run_later trace s s' :
  run toLowerCase s trace = Some s' -> jobs_later s s'.
Proof.
  revert s. induction trace as [|[now e] trace IH]; intros s; simpl.
  - intros [= <-]. apply jobs_later_refl.
  - destruct (step toLowerCase s now e) as [s1|] eqn:Hstep; [|done].
    intros Hrun. apply (jobs_later_trans _ s1); [by eapply step_later|by apply IH].
Qed.

End Later.

(** Whatever happens after a promise is settled, it stays as it is, and
    the job keeps its number and its item: a job that the deadline has
    rejected is not resolved by a render that ends later, and a job that
    was resolved is not rejected by a timer. *)
Theorem promise_settles_once toLowerCase (trace : list (Z * Event)) (s s' : State)
    (j : nat) (job : Job) :
  run toLowerCase s trace = Some s' ->
  jobs s !! j = Some job ->
  promise job <> Pending ->
  exists job', jobs s' !! j = Some job' /\
    promise job' = promise job /\ item job' = item job.
Proof.
  intros Hrun Hj Hp.
  pose proof (run_later _ _ _ _ Hrun) as Hlater.
  destruct (Hlater j job Hj) as (job' & Hj' & Hitem & _ & Hpromise).
  exists job'. auto.
Qed.

Lemma promise_settles_once_witness :
  exists s s' job job',
    run ascii_toLowerCase (init gifs) trace_timed_out = Some s /\
    run ascii_toLowerCase s [(40000, RenderSettles 0 (Fulfilled 7))] = Some s' /\
    jobs s !! 0%nat = Some job /\ promise job <> Pending /\
    jobs s' !! 0%nat = Some job' /\ promise job' = promise job /\ item job' = item job.
Proof.
  eexists. eexists. eexists.
  assert (run ascii_toLowerCase (init gifs) trace_timed_out
          = Some (default (init gifs) (run ascii_toLowerCase (init gifs) trace_timed_out)))
    as Hrun by (vm_compute; reflexivity).
  destruct (promise_settles_once ascii_toLowerCase [(40000, RenderSettles 0 (Fulfilled 7))]
              (default (init gifs) (run ascii_toLowerCase (init gifs) trace_timed_out))
              (default (init gifs)
                 (run ascii_toLowerCase
                    (default (init gifs) (run ascii_toLowerCase (init gifs) trace_timed_out))
                    [(40000, RenderSettles 0 (Fulfilled 7))]))
              0%nat
              (default (mkJob (mkQueueItem alice [] [] "" 0) FastPath Finished Pending AwaitJob)
                 (jobs (default (init gifs)
                          (run ascii_toLowerCase (init gifs) trace_timed_out)) !! 0%nat)))
    as (job' & Hj' & Hp' & Hi').
  - vm_compute. reflexivity.
  - vm_compute. reflexivity.
  - vm_compute. discriminate.
  - exists job'. split; [exact Hrun|]. split; [vm_compute; reflexivity|].
    split; [vm_compute; reflexivity|]. split; [vm_compute; discriminate|].
    split; [exact Hj'|]. split; [exact Hp'|exact Hi'].
Defined.

(** ** No failure is silent *)

Lemma told_more s s' job :
  (forall e, In e (effects s) -> In e (effects s')) -> told s job -> told s' job.
Proof. intros Hmore Htold Hr. by apply Hmore, Htold. Qed.

Lemma all_told_but j s : all_told s -> told_but j s.
Proof. intros Hall k job Hk _. by eapply Hall. Qed.

Lemma all_told_same s s' :
  jobs s' = jobs s -> effects s' = effects s -> all_told s -> all_told s'.
Proof.
  intros Hjobs Heff Hall k job Hk. rewrite Hjobs in Hk.
  eapply told_more; [|by eapply Hall]. by rewrite Heff.
Qed.

Lemma told_but_same j s s' :
  jobs s' = jobs s -> effects s' = effects s -> told_but j s -> told_but j s'.
Proof.
  intros Hjobs Heff Hall k job Hk Hne. rewrite Hjobs in Hk.
  eapply told_more; [|by eapply Hall]. by rewrite Heff.
Qed.

Lemma all_told_call eff s : all_told s -> all_told (call eff s).
Proof.
  intros Hall k job Hk. eapply told_more; [|by eapply Hall].
  intros e He. cbn. apply in_or_app. by left.
Qed.

Lemma all_told_suspend t s : all_told s -> all_told (suspend t s).
Proof. by apply all_told_same. Qed.

Lemma told_but_update_job j f s : told_but j s -> told_but j (update_job j f s).
Proof.
  intros Hbut k job Hk Hne. cbn in Hk. rewrite list_lookup_alter_ne in Hk by done.
  by eapply (told_more s), Hbut.
Qed.

Lemma all_told_update_job j f s :
  (forall job, jobs s !! j = Some job -> told s (f job)) ->
  told_but j s -> all_told (update_job j f s).
Proof.
  intros Hf Hbut k job Hk. cbn in Hk. destruct (decide (k = j)) as [->|Hne].
  - rewrite list_lookup_alter_eq in Hk. destruct (jobs s !! j) as [job0|] eqn:Hj; [|done].
    injection Hk as <-. by eapply (told_more s), Hf.
  - rewrite list_lookup_alter_ne in Hk by done. by eapply (told_more s), Hbut.
Qed.

Lemma catch_block_told j s job :
  jobs s !! j = Some job -> told_but j s -> all_told (catch_block j s).
Proof.
  intros Hj Hbut. unfold catch_block. rewrite Hj. apply all_told_update_job.
  - cbn. intros job0 Hj0. rewrite Hj in Hj0. injection Hj0 as <-. intros _.
    cbn. apply in_or_app. right. by left.
  - intros k job0 Hk Hne. eapply told_more; [|by eapply Hbut].
    intros e He. cbn. apply in_or_app. by left.
Qed.

Lemma try_processGifWithTimeout_told org it now s :
  all_told s -> all_told (try_processGifWithTimeout org it now s).
Proof.
  intros Hall k job0 Hk.
  destruct (try_processGifWithTimeout_spec org it now s)
    as (job & Hjobs & Hitem & _ & _ & _ & _ & _ & _ & _ & _ & _ & Hcase).
  rewrite Hjobs in Hk. apply lookup_app_Some in Hk as [Hk|[_ Hk]].
  - eapply told_more; [|by eapply Hall].
    intros e He. destruct Hcase as [(_ & _ & _ & -> & _)|(_ & _ & _ & -> & _)]; [done|].
    apply in_or_app. by left.
  - apply list_lookup_singleton_Some in Hk as [_ <-]. intros Hr.
    destruct Hcase as [(_ & Hp & _)|(_ & _ & _ & -> & _)].
    + unfold is_rejected in Hr. by rewrite Hp in Hr.
    + rewrite Hitem. apply in_or_app. right. by left.
Qed.

Lemma processNextInQueue_told now s : all_told s -> all_told (processNextInQueue now s).
Proof.
  intros Hall. unfold processNextInQueue.
  destruct (_ || _); [done|]. destruct (gifQueue s) as [|it rest]; [done|].
  apply try_processGifWithTimeout_told. by apply (all_told_same s).
Qed.

Lemma finally_block_told j org now s : all_told s -> all_told (finally_block j org now s).
Proof.
  intros Hall.
  assert (all_told (update_job j (set_caller Completed) s)) as H1.
  { apply all_told_update_job; [|by apply all_told_but].
    intros job Hj. by apply (Hall j job Hj). }
  unfold finally_block, handleNewGIFWithGif_finally, processNextInQueue_finally.
  destruct org.
  - apply processNextInQueue_told.
    by apply (all_told_same (update_job j (set_caller Completed) s)).
  - by apply (all_told_same (update_job j (set_caller Completed) s)).
Qed.

(** The promise of job [j] is settled: a rejection is told in the same
    step. *)
Lemma settle_told j r now s :
  told_but j s ->
  (forall job, jobs s !! j = Some job -> promise job <> Pending -> told s job) ->
  all_told (settle j r now s).
Proof.
  intros Hbut Hsettled. unfold settle.
  destruct (jobs s !! j) as [job|] eqn:Hj.
  - destruct (promise job) eqn:Hp.
    + destruct r.
      * apply finally_block_told, all_told_update_job; [|done].
        intros job0 Hj0 Hr. by unfold is_rejected in Hr.
      * apply finally_block_told, all_told_update_job; [|done].
        intros job0 Hj0 Hr. by unfold is_rejected in Hr.
      * apply (catch_block_told j _ (set_promise (RejectedWith message) job)).
        -- cbn. by rewrite list_lookup_alter_eq, Hj.
        -- by apply told_but_update_job.
    + intros k job0 Hk. destruct (decide (k = j)) as [->|Hne]; [|by eapply Hbut].
      rewrite Hj in Hk. injection Hk as <-. apply Hsettled; [done|]. by rewrite Hp.
    + intros k job0 Hk. destruct (decide (k = j)) as [->|Hne]; [|by eapply Hbut].
      rewrite Hj in Hk. injection Hk as <-. apply Hsettled; [done|]. by rewrite Hp.
  - intros k job0 Hk. destruct (decide (k = j)) as [->|Hne]; [|by eapply Hbut].
    by rewrite Hj in Hk.
Qed.

Lemma handleNewGIFWithGif_told i text gif now s :
  all_told s -> all_told (handleNewGIFWithGif i text gif now s).
Proof.
  intros Hall. destruct (canProcessMore s && (length (gifQueue s) =? 0)%nat) eqn:Hfast.
  - rewrite handleNewGIFWithGif_fast by done.
    apply try_processGifWithTimeout_told. by apply (all_told_same s).
  - rewrite handleNewGIFWithGif_slow by done.
    cbv zeta. repeat case_match; apply all_told_suspend, all_told_call;
      by apply (all_told_same s).
Qed.

Section Told.
Variable toLowerCase : jsstring -> jsstring.

Lemma afterDeferReply_told i randomFile now s :
  all_told s -> all_told (afterDeferReply toLowerCase i randomFile now s).
Proof.
  intros Hall. unfold afterDeferReply, handleNewGIF.
  repeat case_match; try done; apply handleNewGIFWithGif_told;
    by apply (all_told_same s).
Qed.

Lemma onInteractionCreate_told i now s :
  all_told s -> all_told (onInteractionCreate toLowerCase i now s).
Proof.
  intros Hall. unfold onInteractionCreate, handleAutocomplete.
  repeat case_match; try done;
    try apply all_told_suspend; by apply all_told_call.
Qed.

Lemma step_told s now e s' :
  all_told s -> step toLowerCase s now e = Some s' -> all_told s'.
Proof.
  intros Hall. unfold step. destruct (clock s <=? now); [|done].
  assert (all_told (set_clock now s)) as Hall0 by (by apply (all_told_same s)).
  revert Hall0. generalize (set_clock now s). clear s Hall. intros s Hall.
  destruct e as [i|k o rf|j o|j o|k| | | |banned].
  - intros [= <-]. by apply onInteractionCreate_told.
  - unfold taskSettles. destruct (tasks s !! k) as [t|]; [|done].
    assert (all_told (set_tasks (delete k (tasks s)) s)) as Hall1
      by (by apply (all_told_same s)).
    destruct t, o; intros [= <-]; try done;
      try (by apply afterDeferReply_told);
      try (by apply processNextInQueue_told);
      by apply (all_told_same s).
  - unfold renderSettles. destruct (jobs s !! j) as [job|] eqn:Hj; [|done].
    assert (forall pc P eff,
              all_told (update_job j (set_render pc) (call eff (set_BROWSER_POOL P s))))
      as Hrender.
    { intros. apply all_told_update_job.
      - intros job0 Hj0. apply (all_told_call eff (set_BROWSER_POOL P s)) in Hj0; [done|].
        by apply (all_told_same s).
      - apply all_told_but, all_told_call. by apply (all_told_same s). }
    assert (forall r P eff,
              all_told (settle j r now
                          (clearTimeout j
                             (update_job j (set_render Finished)
                                (call eff (set_BROWSER_POOL P s)))))) as Hsettle.
    { intros. pose proof (Hrender Finished P eff) as H1. apply settle_told.
      - apply all_told_but. by eapply all_told_same; [..|exact H1].
      - intros job0 Hj0 _. by eapply (all_told_same _ _ eq_refl eq_refl H1). }
    destruct (render job) eqn:Hpc; try done;
      (destruct (well_typed _ o); [|done]);
      destruct (processGif_resume _ _ _ _ _ _) as [[P eff] [a|m|pc']];
      intros [= <-]; auto.
  - unfold errorReplySettles. destruct (jobs s !! j) as [job|]; [|done].
    destruct (caller job); intros [= <-]. by apply finally_block_told.
  - unfold timerFires. destruct (timers s !! k) as [t|]; [|done].
    destruct (due t <=? now); [|done].
    assert (all_told (set_timers (delete k (timers s)) s)) as Hall1
      by (by apply (all_told_same s)).
    destruct (callback t) as [j|].
    + cbn [jobs set_timers]. destruct (jobs s !! j) eqn:Hj; intros [= <-]; [|done].
      apply settle_told; [by apply all_told_but|]. intros job0 Hj0 _. by eapply Hall1.
    + intros [= <-]. by apply processNextInQueue_told.
  - intros [= <-]. by apply (all_told_same s).
  - intros [= <-]. unfold idleCheck, cleanupBrowser.
    repeat case_match; by apply (all_told_same s).
  - intros [= <-]. unfold cleanupBrowser.
    repeat case_match; by apply (all_told_same s).
  - intros [= <-]. by apply (all_told_same s).
Qed.

End Told.

Lemma init_told gifs : all_told (init gifs).
Proof. by intros k job Hk. Qed.

(** No failure is silent: in every state that a sequence of events
    reaches, for a job whose promise is rejected (the render has thrown,
    or the deadline has passed) the [catch] block of the function that
    awaits it has sent [editReply] with the failure message on the
    interaction of the job. *)
Theorem rejected_job_is_told toLowerCase gifs (trace : list (Z * Event)) (s : State)
    (j : nat) (job : Job) (m : string) :
  run toLowerCase (init gifs) trace = Some s ->
  jobs s !! j = Some job ->
  promise job = RejectedWith m ->
  In (EditReply (interaction (item job)) SomethingWentWrong) (effects s).
Proof.
  intros Hrun Hj Hp.
  assert (all_told s) as Hall.
  { eapply (run_invariant toLowerCase all_told); [|apply init_told|exact Hrun].
    intros. by eapply step_told. }
  apply (Hall j job Hj). unfold is_rejected. by rewrite Hp.
Qed.

Lemma rejected_job_is_told_witness :
  exists s job m, run ascii_toLowerCase (init gifs) trace_timed_out = Some s /\
    jobs s !! 0%nat = Some job /\ promise job = RejectedWith m /\
    In (EditReply (interaction (item job)) SomethingWentWrong) (effects s).
Proof.
  eexists. eexists. eexists.
  split; [vm_compute; reflexivity|]. split; [vm_compute; reflexivity|].
  split; [vm_compute; reflexivity|].
  eapply (rejected_job_is_told ascii_toLowerCase gifs trace_timed_out _ 0%nat);
    vm_compute; reflexivity.
Defined.
